(** * Multi-agent path finding: conflict-based search over space-time A*

    A shallow embedding of the solver core of the repository
    ([algorithms/astar.py], [algorithms/cbs.py], [algorithms/constraints.py],
    [environment/grid.py], [environment/agent_manager.py], [utils/metrics.py])
    and the properties established about it.

    Conventions of the embedding.
    - Python integers are [Z]; agent identifiers and list positions are [nat].
    - A Python [set] is a [gset], a [dict] whose iteration order is never
      observed is a [gmap]; the [solutions] dictionaries, whose iteration
      order decides which conflict comes first, are insertion-ordered
      association lists.
    - Objects that are shared and mutated ([SippNode]s of the low-level
      search, the [Agent]s handed to the solver) live in an explicit store
      and are referred to by their position in it.
    - A Python exception is the [Raise] outcome of the [Result] type. *)

From stdpp Require Import gmap list sorting.
From Stdlib Require Import ZArith Lia.

(** ** The binary heap of Python's [heapq]

    The open lists of both searches are plain Python lists driven by
    [heapq.heappush], [heapq.heappop] and [heapq.heapify]; which of several
    equally good entries is popped first is decided by these routines, so
    they are transcribed here statement by statement. The only comparison
    they use is the element's [__lt__], the parameter [lt]. *)
Module heapq.
Section heapq.
Context {A : Type} (lt : A → A → bool).

(** The [while pos > startpos] loop of [_siftdown]; [n] bounds the number
    of iterations, and [pos] iterations always suffice. *)
Fixpoint siftdown_loop (n : nat) (heap : list A) (newitem : A)
    (startpos pos : nat) : list A :=
  match n with
  | O => <[pos := newitem]> heap
  | S n' =>
      if bool_decide (startpos < pos) then
        let parentpos := Nat.div2 (pos - 1) in
        match heap !! parentpos with
        | Some parent =>
            if lt newitem parent
            then siftdown_loop n' (<[pos := parent]> heap) newitem startpos parentpos
            else <[pos := newitem]> heap
        | None => <[pos := newitem]> heap
        end
      else <[pos := newitem]> heap
  end.

Definition _siftdown (heap : list A) (startpos pos : nat) : list A :=
  match heap !! pos with
  | Some newitem => siftdown_loop pos heap newitem startpos pos
  | None => heap
  end.

(** The [while childpos < endpos] loop of [_siftup]: the smaller child is
    moved up until a leaf is reached; returns the heap and the leaf
    position. *)
Fixpoint siftup_loop (n : nat) (heap : list A) (pos : nat) : list A * nat :=
  match n with
  | O => (heap, pos)
  | S n' =>
      let childpos := 2 * pos + 1 in
      if bool_decide (childpos < length heap) then
        let rightpos := childpos + 1 in
        let childpos :=
          match heap !! childpos, heap !! rightpos with
          | Some c, Some r => if lt c r then childpos else rightpos
          | _, _ => childpos
          end in
        match heap !! childpos with
        | Some c => siftup_loop n' (<[pos := c]> heap) childpos
        | None => (heap, pos)
        end
      else (heap, pos)
  end.

Definition _siftup (heap : list A) (pos : nat) : list A :=
  match heap !! pos with
  | Some newitem =>
      let '(heap', pos') := siftup_loop (length heap) heap pos in
      _siftdown (<[pos' := newitem]> heap') pos pos'
  | None => heap
  end.

Definition heappush (heap : list A) (item : A) : list A :=
  _siftdown (heap ++ [item]) 0 (length heap).

(** [None] is the [IndexError] of popping from an empty list; both
    searches test [while open_list] first. *)
Definition heappop (heap : list A) : option (A * list A) :=
  match last heap with
  | None => None
  | Some lastelt =>
      match removelast heap with
      | [] => Some (lastelt, [])
      | returnitem :: rest =>
          Some (returnitem, _siftup (lastelt :: rest) 0)
      end
  end.

Definition heapify (x : list A) : list A :=
  foldl _siftup x (reverse (seq 0 (length x / 2))).
End heapq.
End heapq.

(** ** The grid ([environment/grid.py]) *)

(** A cell is the pair [(x, y)] of a row and a column; a space-time state is
    the triple [(x, y, t)]. *)
Abbreviation Cell := (Z * Z)%type.
Abbreviation State := (Z * Z * Z)%type.

Section grid.
Local Open Scope Z_scope.

(** [grid] is the occupancy array ([0] is free), [height] and [width] its
    shape. *)
Record GridEnvironment := {
  grid : list (list Z);
  height : Z;
  width : Z
}.

(** [GridEnvironment.__init__]: [self.height, self.width = grid.shape]. *)
Definition GridEnvironment_init (g : list (list Z)) : GridEnvironment :=
  {| grid := g;
     height := Z.of_nat (length g);
     width := Z.of_nat (length (default [] (head g))) |}.

(** [self.grid[x, y]], read only after the bounds test. *)
Definition grid_at (env : GridEnvironment) (x y : Z) : option Z :=
  row ← grid env !! Z.to_nat x; row !! Z.to_nat y.

Definition MOVES : list (Z * Z) := [(0, 0); (-1, 0); (0, 1); (1, 0); (0, -1)].

Definition get_neighbors (env : GridEnvironment) (state : State) : list State :=
  let '(x, y, t) := state in
  omap (λ '(dx, dy),
          let nx := x + dx in
          let ny := y + dy in
          if bool_decide (0 ≤ nx < height env ∧ 0 ≤ ny < width env)
          then if bool_decide (grid_at env nx ny = Some 0)
               then Some (nx, ny, t + 1) else None
          else None) MOVES.

Definition get_manhattan_distance (pos1 pos2 : Cell) : Z :=
  Z.abs (pos1.1 - pos2.1) + Z.abs (pos1.2 - pos2.2).
End grid.

(** ** Constraints ([algorithms/constraints.py])

    A [Constraint] is hashed and compared through the tuple
    [(agent_id, position, time)], so a constraint is that tuple; the
    [position] of an [EdgeConstraint] is the pair [(from_pos, to_pos)]. *)

Definition VertexConstraint (agent_id : nat) (position : Cell) (time : Z)
  : nat * Cell * Z := (agent_id, position, time).

Definition EdgeConstraint (agent_id : nat) (from_pos to_pos : Cell) (time : Z)
  : nat * (Cell * Cell) * Z := (agent_id, (from_pos, to_pos), time).

Record ConstraintsSet := {
  vertex_constraints : gset (nat * Cell * Z);
  edge_constraints : gset (nat * (Cell * Cell) * Z)
}.

Definition ConstraintsSet_init : ConstraintsSet :=
  {| vertex_constraints := ∅; edge_constraints := ∅ |}.

Definition add_vertex_constraint (cs : ConstraintsSet)
    (constraint : nat * Cell * Z) : ConstraintsSet :=
  {| vertex_constraints := vertex_constraints cs ∪ {[ constraint ]};
     edge_constraints := edge_constraints cs |}.

Definition add_edge_constraint (cs : ConstraintsSet)
    (constraint : nat * (Cell * Cell) * Z) : ConstraintsSet :=
  {| vertex_constraints := vertex_constraints cs;
     edge_constraints := edge_constraints cs ∪ {[ constraint ]} |}.

Definition is_constrained (cs : ConstraintsSet) (agent_id : nat)
    (position : Cell) (time : Z) : bool :=
  bool_decide (VertexConstraint agent_id position time ∈ vertex_constraints cs).

Definition is_edge_constrained (cs : ConstraintsSet) (agent_id : nat)
    (from_pos to_pos : Cell) (time : Z) : bool :=
  bool_decide (EdgeConstraint agent_id from_pos to_pos time ∈ edge_constraints cs).

(** ** The low-level search ([algorithms/astar.py]) *)

(** A [SippNode]. [f] is computed once by the constructor and afterwards only
    written by the re-opening branch of the search; [parent] refers to
    another node of the store. The fields [interval_start] and
    [interval_end] are never read and are left out. *)
Record SippNode := mkSippNode {
  n_x : Z; n_y : Z; n_t : Z;
  n_g : Z; n_h : Z; n_f : Z;
  n_parent : option nat
}.

Definition SippNode_init (x y t g h : Z) (parent : option nat) : SippNode :=
  mkSippNode x y t g h (g + h)%Z parent.

(** [SippNode.__lt__] on two nodes of the store. *)
Definition node_lt (nodes : list SippNode) (i j : nat) : bool :=
  match nodes !! i, nodes !! j with
  | Some a, Some b => bool_decide (n_f a < n_f b)%Z
  | _, _ => false
  end.

(** The local variables of [SpaceTimeAStar.search]. [nodes] is the store of
    every [SippNode] constructed so far, in construction order; the open list
    and [node_dict] hold positions in it, which is how the source shares one
    node object between the two. [reopened] is not a variable of the source:
    it counts how often the branch [if new_node.g < existing_node.g] has been
    entered. *)
Record SearchState := mkSearchState {
  open_list : list nat;
  closed_set : gset State;
  node_dict : gmap State nat;
  nodes : list SippNode;
  reopened : nat
}.

Inductive Outcome :=
  | Running (s : SearchState)
  | Returned (path : list Cell) (s : SearchState).

(** The [while current is not None] loop of [_reconstruct_path], from the goal
    node back to the start; [n] bounds the number of iterations. *)
Fixpoint parent_chain (n : nat) (nodes : list SippNode) (current : option nat)
    : list Cell :=
  match n, current with
  | S n', Some id =>
      match nodes !! id with
      | Some node => (n_x node, n_y node) :: parent_chain n' nodes (n_parent node)
      | None => []
      end
  | _, _ => []
  end.

(** [_reconstruct_path]. The chain starts with the goal node itself, so the
    final [if not path] of the source is never entered. *)
Definition _reconstruct_path (nodes : list SippNode) (goal_node : nat) : list Cell :=
  reverse (parent_chain (length nodes) nodes (Some goal_node)).

Section astar.
Local Open Scope Z_scope.
Context (env : GridEnvironment) (agent_id : nat) (constraints : ConstraintsSet).
Context (start goal : Cell) (max_time : Z).

(** The two constraint tests at the head of the [for nx, ny, nt] loop. *)
Definition permitted (current_node : SippNode) (nb : State) : bool :=
  let '(nx, ny, nt) := nb in
  negb (is_constrained constraints agent_id (nx, ny) nt)
  && negb (is_edge_constrained constraints agent_id
             (n_x current_node, n_y current_node) (nx, ny) (n_t current_node)).

(** One iteration of [for nx, ny, nt in neighbors]. *)
Definition visit (cur_id : nat) (s : SearchState) (nb : State) : SearchState :=
  match nodes s !! cur_id with
  | None => s
  | Some current_node =>
      if permitted current_node nb then
        let '(nx, ny, nt) := nb in
        let g := n_g current_node + 1 in
        let h := get_manhattan_distance (nx, ny) goal in
        let new_node := SippNode_init nx ny nt g h (Some cur_id) in
        let new_id := length (nodes s) in
        let nodes' := nodes s ++ [new_node] in
        if bool_decide ((nx, ny, nt) ∈ closed_set s) then
          mkSearchState (open_list s) (closed_set s) (node_dict s) nodes' (reopened s)
        else
          match node_dict s !! (nx, ny, nt) with
          | Some e_id =>
              match nodes' !! e_id with
              | Some existing_node =>
                  if bool_decide (n_g new_node < n_g existing_node) then
                    let existing_node' :=
                      mkSippNode (n_x existing_node) (n_y existing_node)
                        (n_t existing_node) (n_g new_node) (n_h existing_node)
                        (n_g new_node + n_h existing_node) (n_parent new_node) in
                    let nodes'' := <[e_id := existing_node']> nodes' in
                    mkSearchState (heapq.heapify (node_lt nodes'') (open_list s))
                      (closed_set s) (node_dict s) nodes'' (S (reopened s))
                  else
                    mkSearchState (open_list s) (closed_set s) (node_dict s)
                      nodes' (reopened s)
              | None =>
                  mkSearchState (open_list s) (closed_set s) (node_dict s)
                    nodes' (reopened s)
              end
          | None =>
              mkSearchState (heapq.heappush (node_lt nodes') (open_list s) new_id)
                (closed_set s) (<[(nx, ny, nt) := new_id]> (node_dict s))
                nodes' (reopened s)
          end
      else s
  end.

(** One iteration of [while open_list]. *)
Definition step (s : SearchState) : Outcome :=
  match heapq.heappop (node_lt (nodes s)) (open_list s) with
  | None => Returned [] s
  | Some (cur_id, open_list') =>
      let s := mkSearchState open_list' (closed_set s) (node_dict s)
                 (nodes s) (reopened s) in
      match nodes s !! cur_id with
      | None => Returned [] s
      | Some current_node =>
          if bool_decide ((n_x current_node, n_y current_node) = goal) then
            Returned (_reconstruct_path (nodes s) cur_id) s
          else if bool_decide (max_time ≤ n_t current_node) then Running s
          else
            let key := (n_x current_node, n_y current_node, n_t current_node) in
            let s := mkSearchState (open_list s) (closed_set s ∪ {[ key ]})
                       (node_dict s) (nodes s) (reopened s) in
            Running (foldl (visit cur_id) s (get_neighbors env key))
      end
  end.

Fixpoint run (n : nat) (s : SearchState) : Outcome :=
  match n with
  | O => Running s
  | S n' =>
      match step s with
      | Running s' => run n' s'
      | Returned path s' => Returned path s'
      end
  end.

(** The state on entry to the loop. *)
Definition init : SearchState :=
  let start_node :=
    SippNode_init start.1 start.2 0 0 (get_manhattan_distance start goal) None in
  mkSearchState (heapq.heappush (node_lt [start_node]) [] 0%nat) ∅
    {[ (start.1, start.2, 0) := 0%nat ]} [start_node] 0.

(** A number of iterations of the [while] loop that always suffices
    ([search_returns] below): every iteration pops one entry, and an entry
    is pushed at most once for each state [(x, y, t)] inside the grid with
    [1 ≤ t ≤ max_time], and once for the start. *)
Definition search_fuel : nat :=
  (2 * (Z.to_nat (height env) * Z.to_nat (width env) * Z.to_nat max_time + 1) + 1)%nat.

(** [SpaceTimeAStar.search(start, goal, max_time)]; the empty list is the
    source's answer when the open list runs empty. *)
Definition search : list Cell :=
  match run search_fuel init with
  | Returned path _ => path
  | Running _ => []
  end.
End astar.

(** ** Agents, joint plans and conflicts *)

(** [environment/agent_manager.py], class [Agent]. *)
Record Agent := mkAgent {
  a_id : nat;
  a_start : Cell;
  a_goal : Cell;
  a_path : list Cell;
  a_cost : Z
}.

(** [Agent.__init__]. *)
Definition Agent_init (agent_id : nat) (start goal : Cell) : Agent :=
  mkAgent agent_id start goal [] 0.

(** The two attributes of [config.Config] the solver reads. *)
Record Config := {
  MAX_TIME_STEPS : Z;
  CBS_MAX_ITERATIONS : Z
}.

(** An insertion-ordered Python [dict] with agent identifiers as keys. *)
Section dict.
Context {V : Type}.

(** [d[k] = v]: an existing key keeps its place. *)
Fixpoint dict_set (d : list (nat * V)) (k : nat) (v : V) : list (nat * V) :=
  match d with
  | [] => [(k, v)]
  | (k', v') :: d' =>
      if decide (k = k') then (k, v) :: d' else (k', v') :: dict_set d' k v
  end.

(** [d.get(k)]. *)
Fixpoint dict_get (d : list (nat * V)) (k : nat) : option V :=
  match d with
  | [] => None
  | (k', v') :: d' => if decide (k = k') then Some v' else dict_get d' k
  end.
End dict.

(** A joint plan: [Dict[int, List[Tuple[int, int]]]]. *)
Abbreviation Solutions := (list (nat * list Cell)).

Inductive exn := ValueError | IndexError.

Inductive Result (A : Type) :=
  | Ok (a : A)
  | Raise (e : exn).
Arguments Ok {A} a.
Arguments Raise {A} e.

Global Instance Result_ret : MRet Result := λ A a, Ok a.
Global Instance Result_bind : MBind Result := λ A B f m,
  match m with
  | Ok a => f a
  | Raise e => Raise e
  end.
Global Instance Result_fmap : FMap Result := λ A B f m,
  match m with
  | Ok a => Ok (f a)
  | Raise e => Raise e
  end.

(** The values of [Conflict.conflict_type]: the strings ["vertex"] and
    ["edge"]. *)
Inductive ConflictType := vertex | edge.

Global Instance ConflictType_eq_dec : EqDecision ConflictType.
Proof. solve_decision. Defined.

Record Conflict := mkConflict {
  agent1 : nat;
  agent2 : nat;
  position : Cell;
  time : Z;
  conflict_type : ConflictType
}.

Section find_conflicts.
Local Open Scope nat_scope.

(** [max(len(path) for path in solutions.values())]. *)
Definition max_length_of (solutions : Solutions) : Result nat :=
  match solutions with
  | [] => Raise ValueError
  | _ => Ok (max_list (length ∘ snd <$> solutions))
  end.

(** The body of the padding loop: [extended_path[-1]] raises on an empty
    path. *)
Definition extend_path (max_length : nat) (path : list Cell) : Result (list Cell) :=
  if bool_decide (length path < max_length) then
    match last path with
    | Some c => Ok (path ++ replicate (max_length - length path) c)
    | None => Raise IndexError
    end
  else Ok path.

Fixpoint extend_paths (max_length : nat) (items : Solutions) (extended_paths : Solutions)
    : Result Solutions :=
  match items with
  | [] => Ok extended_paths
  | (agent_id, path) :: items' =>
      extended_path ← extend_path max_length path;
      extend_paths max_length items' (dict_set extended_paths agent_id extended_path)
  end.

(** [positions] at time [t]. *)
Definition positions_at (t : nat) (extended_paths : Solutions) : list (nat * Cell) :=
  foldl (λ positions '(agent_id, path),
           match path !! t with
           | Some c => dict_set positions agent_id c
           | None => positions
           end) [] extended_paths.

(** The nested loops of the vertex check over [positions.items()]. *)
Fixpoint vertex_scan (t : nat) (items : list (nat * Cell)) : list Conflict :=
  match items with
  | [] => []
  | (agent1, pos1) :: rest =>
      omap (λ '(agent2, pos2),
              if bool_decide (pos1 = pos2)
              then Some (mkConflict agent1 agent2 pos1 (Z.of_nat t) vertex)
              else None) rest
      ++ vertex_scan t rest
  end.

(** [extended_paths[agent][t - 1] if t - 1 < len(extended_paths[agent])
    else pos]. *)
Definition prev_pos (extended_paths : Solutions) (agent : nat) (t : nat)
    (pos : Cell) : Cell :=
  match dict_get extended_paths agent with
  | Some path => default pos (path !! (t - 1))
  | None => pos
  end.

(** The nested loops of the edge check, entered when [t > 0]. *)
Fixpoint edge_scan (extended_paths : Solutions) (t : nat)
    (items : list (nat * Cell)) : list Conflict :=
  match items with
  | [] => []
  | (agent1, pos1) :: rest =>
      let prev_pos1 := prev_pos extended_paths agent1 t pos1 in
      omap (λ '(agent2, pos2),
              let prev_pos2 := prev_pos extended_paths agent2 t pos2 in
              if bool_decide (prev_pos1 = pos2 ∧ prev_pos2 = pos1)
              then Some (mkConflict agent1 agent2 pos1 (Z.of_nat t) edge)
              else None) rest
      ++ edge_scan extended_paths t rest
  end.

(** One iteration of [for t in range(max_length)]. *)
Definition conflicts_at (extended_paths : Solutions) (t : nat) : list Conflict :=
  let positions := positions_at t extended_paths in
  vertex_scan t positions
  ++ (if bool_decide (0 < t) then edge_scan extended_paths t positions else []).

(** [CBS._find_conflicts]. *)
Definition _find_conflicts (solutions : Solutions) : Result (list Conflict) :=
  max_length ← max_length_of solutions;
  extended_paths ← extend_paths max_length solutions [];
  Ok (mjoin (conflicts_at extended_paths <$> seq 0 max_length)).
End find_conflicts.

(** ** The collision check of the front end ([utils/metrics.py])

    [Metrics.check_collisions] repeats the scan of [_find_conflicts] on the
    joint plan it is given and reports dictionaries instead of [Conflict]
    objects: [{'type': 'vertex', 'agents', 'position', 'time'}] and
    [{'type': 'edge', 'agents', 'positions', 'time'}]. *)
Inductive Collision :=
  | VertexCollision (agents : nat * nat) (position : Cell) (time : Z)
  | EdgeCollision (agents : nat * nat) (positions : Cell * Cell) (time : Z).

Section check_collisions.
Local Open Scope nat_scope.

Fixpoint vertex_collisions (t : nat) (items : list (nat * Cell)) : list Collision :=
  match items with
  | [] => []
  | (agent1, pos1) :: rest =>
      omap (λ '(agent2, pos2),
              if bool_decide (pos1 = pos2)
              then Some (VertexCollision (agent1, agent2) pos1 (Z.of_nat t))
              else None) rest
      ++ vertex_collisions t rest
  end.

Fixpoint edge_collisions (extended_paths : Solutions) (t : nat)
    (items : list (nat * Cell)) : list Collision :=
  match items with
  | [] => []
  | (agent1, pos1) :: rest =>
      let prev_pos1 := prev_pos extended_paths agent1 t pos1 in
      omap (λ '(agent2, pos2),
              let prev_pos2 := prev_pos extended_paths agent2 t pos2 in
              if bool_decide (prev_pos1 = pos2 ∧ prev_pos2 = pos1)
              then Some (EdgeCollision (agent1, agent2) (prev_pos1, pos1) (Z.of_nat t))
              else None) rest
      ++ edge_collisions extended_paths t rest
  end.

Definition collisions_at (extended_paths : Solutions) (t : nat) : list Collision :=
  let positions := positions_at t extended_paths in
  vertex_collisions t positions
  ++ (if bool_decide (0 < t) then edge_collisions extended_paths t positions else []).

Definition check_collisions (paths : Solutions) : Result (list Collision) :=
  match paths with
  | [] => Ok []
  | _ =>
      max_length ← max_length_of paths;
      extended_paths ← extend_paths max_length paths [];
      Ok (mjoin (collisions_at extended_paths <$> seq 0 max_length))
  end.
End check_collisions.

(** [CBS._calculate_solution_cost]. *)
Definition _calculate_solution_cost (solutions : Solutions) : Z :=
  foldl (λ total_cost '(_, path), total_cost + (Z.of_nat (length path) - 1))%Z
    0%Z solutions.

(** ** The high-level search ([algorithms/cbs.py]) *)

Record CBSNode := mkCBSNode {
  constraints : ConstraintsSet;
  solutions : Solutions;
  cost : Z;
  conflicts : list Conflict
}.

(** [CBSNode.__lt__]. *)
Definition CBSNode_lt (n1 n2 : CBSNode) : bool := bool_decide (cost n1 < cost n2)%Z.

(** A computation of the solver: it reads and writes the [Agent] objects of
    [self.agents] and ends with a value or an exception; what was written
    before an exception stays written. *)
Definition M (A : Type) : Type := list Agent → Result A * list Agent.

Global Instance M_ret : MRet M := λ A a agents, (Ok a, agents).
Global Instance M_bind : MBind M := λ A B f m agents,
  match m agents with
  | (Ok a, agents') => f a agents'
  | (Raise e, agents') => (Raise e, agents')
  end.

Definition lift {A} (r : Result A) : M A := λ agents, (r, agents).

(** What [CBS.search] returns, together with the [return] statement that
    produced it: [Solved] for the two [return]s guarded by
    [if not ....conflicts], [BestNode] for [return best_node.solutions] after
    the loop and [NoNode] for the final [return {}]. The Python value is
    [returned]. *)
Inductive SearchResult :=
  | Solved (solutions : Solutions)
  | BestNode (solutions : Solutions)
  | NoNode.

Definition returned (r : SearchResult) : Solutions :=
  match r with
  | Solved solutions | BestNode solutions => solutions
  | NoNode => []
  end.

Section cbs.
Context (env : GridEnvironment) (config : Config).

(** [SpaceTimeAStar(self.env, agent_id, constraints, self.config)
      .search(start, goal, self.config.MAX_TIME_STEPS)]. *)
Definition low_level (agent_id : nat) (constraints : ConstraintsSet)
    (start goal : Cell) : list Cell :=
  search env agent_id constraints start goal (MAX_TIME_STEPS config).

(** [agent.path = path; agent.cost = len(path) - 1]. *)
Definition set_path (agent : Agent) (path : list Cell) : Agent :=
  mkAgent (a_id agent) (a_start agent) (a_goal agent) path
    (Z.of_nat (length path) - 1).

(** The loop of [_find_initial_solutions] over [self.agents]; it returns
    the dictionary and the agents as it leaves them. *)
Fixpoint initial_loop (constraints : ConstraintsSet) (agents : list Agent)
    (solutions : Solutions) : Solutions * list Agent :=
  match agents with
  | [] => (solutions, [])
  | agent :: agents' =>
      let path := low_level (a_id agent) constraints (a_start agent) (a_goal agent) in
      match path with
      | [] =>
          let '(solutions', rest) := initial_loop constraints agents' solutions in
          (solutions', agent :: rest)
      | _ :: _ =>
          let '(solutions', rest) :=
            initial_loop constraints agents' (dict_set solutions (a_id agent) path) in
          (solutions', set_path agent path :: rest)
      end
  end.

Definition _find_initial_solutions (constraints : ConstraintsSet) : M Solutions :=
  λ agents,
    let '(solutions, agents') := initial_loop constraints agents [] in
    (Ok solutions, agents').

(** [_replan_agent(agent_id, node)], returning [node.solutions];
    [self.agents[agent_id]] raises when the identifier is no position of the
    list. *)
Definition _replan_agent (agent_id : nat) (constraints : ConstraintsSet)
    (solutions : Solutions) : M Solutions :=
  λ agents,
    match agents !! agent_id with
    | None => (Raise IndexError, agents)
    | Some agent =>
        let new_path := low_level agent_id constraints (a_start agent) (a_goal agent) in
        match new_path with
        | [] => (Ok solutions, agents)
        | _ :: _ =>
            (Ok (dict_set solutions agent_id new_path),
             <[agent_id := set_path agent new_path]> agents)
        end
    end.

(** The constraint set of the child for [agent_id]: a copy of the parent's
    set with the constraint chosen by the [if]/[elif] on
    [conflict.conflict_type] added. *)
Definition new_constraints (current_node : CBSNode) (conflict : Conflict)
    (agent_id : nat) : ConstraintsSet :=
  match conflict_type conflict with
  | vertex =>
      add_vertex_constraint (constraints current_node)
        (VertexConstraint agent_id (position conflict) (time conflict))
  | edge =>
      add_vertex_constraint (constraints current_node)
        (VertexConstraint agent_id (position conflict) (time conflict))
  end.

(** The body of [for agent_id in [conflict.agent1, conflict.agent2]]: either
    the search returns from inside it, or the child has been pushed. *)
Definition expand (current_node : CBSNode) (conflict : Conflict)
    (agent_id : nat) (open_list : list CBSNode)
    : M (SearchResult + list CBSNode) :=
  let new_constraints := new_constraints current_node conflict agent_id in
  new_solutions ← _replan_agent agent_id new_constraints (solutions current_node);
  let new_cost := _calculate_solution_cost new_solutions in
  new_conflicts ← lift (_find_conflicts new_solutions);
  match new_conflicts with
  | [] => mret (inl (Solved new_solutions))
  | _ :: _ =>
      let new_node := mkCBSNode new_constraints new_solutions new_cost new_conflicts in
      mret (inr (heapq.heappush CBSNode_lt open_list new_node))
  end.

(** The statements after the loop. *)
Definition after_loop (open_list : list CBSNode) : SearchResult :=
  match heapq.heappop CBSNode_lt open_list with
  | Some (best_node, _) => BestNode (solutions best_node)
  | None => NoNode
  end.

(** [while open_list and iteration < self.config.CBS_MAX_ITERATIONS], with
    [n] the number of iterations still allowed. *)
Fixpoint search_loop (n : nat) (open_list : list CBSNode) : M SearchResult :=
  match n with
  | O => mret (after_loop open_list)
  | S n' =>
      match heapq.heappop CBSNode_lt open_list with
      | None => mret (after_loop open_list)
      | Some (current_node, open_list) =>
          match conflicts current_node with
          | [] => mret (Solved (solutions current_node))
          | conflict :: _ =>
              r1 ← expand current_node conflict (agent1 conflict) open_list;
              match r1 with
              | inl result => mret result
              | inr open_list =>
                  r2 ← expand current_node conflict (agent2 conflict) open_list;
                  match r2 with
                  | inl result => mret result
                  | inr open_list => search_loop n' open_list
                  end
              end
          end
      end
  end.

(** [CBS.search]. *)
Definition CBS_search : M SearchResult :=
  root_solutions ← _find_initial_solutions ConstraintsSet_init;
  let root_cost := _calculate_solution_cost root_solutions in
  root_conflicts ← lift (_find_conflicts root_solutions);
  let root := mkCBSNode ConstraintsSet_init root_solutions root_cost root_conflicts in
  search_loop (Z.to_nat (CBS_MAX_ITERATIONS config))
    (heapq.heappush CBSNode_lt [] root).
End cbs.

(** ** Makespan ([utils/metrics.py], [environment/agent_manager.py]) *)

(** Python's [max] over a sequence of integers. *)
Definition max_Z (l : list Z) : Result Z :=
  match l with
  | [] => Raise ValueError
  | x :: l' => Ok (foldl Z.max x l')
  end.

(** [Metrics.calculate_makespan]. *)
Definition calculate_makespan (paths : Solutions) : Result Z :=
  match paths with
  | [] => Ok 0%Z
  | _ => max_Z ((λ '(_, path), Z.of_nat (length path) - 1)%Z <$> paths)
  end.

(** [AgentManager.get_makespan], on [self.agents]. *)
Definition get_makespan (agents : list Agent) : Result Z :=
  match agents with
  | [] => Ok 0%Z
  | _ =>
      max_Z ((λ agent, Z.of_nat (length (a_path agent)))
             <$> filter (λ agent, a_path agent ≠ []) agents)
  end.

(** The agents as the front end leaves them once it has stored the joint
    plan in them ([agent.path = solutions[agent.id]]). *)
Definition agents_of (paths : Solutions) : list Agent :=
  (λ '(agent_id, path), mkAgent agent_id (default (0, 0)%Z (head path))
                          (default (0, 0)%Z (last path)) path
                          (Z.of_nat (length path) - 1)%Z) <$> paths.

(** ** Scenarios used below *)
Section scenarios.
Local Open Scope Z_scope.

Definition small_config : Config :=
  {| MAX_TIME_STEPS := 10; CBS_MAX_ITERATIONS := 20 |}.

(** Two agents facing each other on a 1 x 2 grid. *)
Definition swap_grid : GridEnvironment := GridEnvironment_init [[0; 0]].
Definition swap_agents : list Agent :=
  [Agent_init 0 (0, 0) (0, 1); Agent_init 1 (0, 1) (0, 0)].
Definition swap_solutions : Solutions :=
  [(0%nat, [(0, 0); (0, 1)]); (1%nat, [(0, 1); (0, 0)])].
Definition swap_conflict : Conflict := mkConflict 0 1 (0, 1) 1 edge.
Definition swap_root : CBSNode :=
  mkCBSNode ConstraintsSet_init swap_solutions 2 [swap_conflict].

(** A 1 x 4 corridor cut by a wall at [(0, 2)]: agent 0 can reach its goal,
    agent 1 cannot. *)
Definition wall_grid : GridEnvironment := GridEnvironment_init [[0; 0; 1; 0]].
Definition wall_agents : list Agent :=
  [Agent_init 0 (0, 0) (0, 1); Agent_init 1 (0, 3) (0, 0)].

(** The agent on the far side of the wall alone. *)
Definition stuck_agents : list Agent := [Agent_init 0 (0, 3) (0, 0)].

(** Two agents whose shortest paths cross in the middle of a free 3 x 3
    grid at time 1. *)
Definition pinch_grid : GridEnvironment :=
  GridEnvironment_init [[0; 0; 0]; [0; 0; 0]; [0; 0; 0]].
Definition pinch_agents : list Agent :=
  [Agent_init 0 (0, 1) (2, 1); Agent_init 1 (1, 0) (1, 2)].
Definition pinch_plan_0 : list Cell := [(0, 1); (0, 1); (1, 1); (2, 1)].
Definition pinch_plan_1 : list Cell := [(1, 0); (1, 1); (1, 2)].

(** Constraint sets for agent 0 going from [(0, 0)] to [(0, 1)] on the
    1 x 2 grid: the goal forbidden at time 3; the move forbidden as an edge
    constraint carrying the time of arrival, 1; the same with the time of
    departure, 0. *)
Definition goal_forbidden_later : ConstraintsSet :=
  add_vertex_constraint ConstraintsSet_init (VertexConstraint 0 (0, 1) 3).
Definition edge_at_arrival : ConstraintsSet :=
  add_edge_constraint ConstraintsSet_init (EdgeConstraint 0 (0, 0) (0, 1) 1).
Definition edge_at_departure : ConstraintsSet :=
  add_edge_constraint ConstraintsSet_init (EdgeConstraint 0 (0, 0) (0, 1) 0).

(** Two agents with the same goal in the upper row of a free 2 x 3 grid,
    and a third agent that walks along the lower row: the first two meet on
    the goal at time 1 and stay there, so the plans of the root hold three
    conflicts. *)
Definition meet_grid : GridEnvironment :=
  GridEnvironment_init [[0; 0; 0]; [0; 0; 0]].
Definition meet_agents : list Agent :=
  [Agent_init 0 (0, 0) (0, 1); Agent_init 1 (0, 2) (0, 1); Agent_init 2 (1, 0) (1, 2)].
Definition meet_solutions : Solutions :=
  [(0%nat, [(0, 0); (0, 1)]); (1%nat, [(0, 2); (0, 1)]);
   (2%nat, [(1, 0); (1, 1); (1, 2)])].
Definition meet_conflicts : list Conflict :=
  [mkConflict 0 1 (0, 1) 1 vertex; mkConflict 0 1 (0, 1) 2 vertex;
   mkConflict 0 1 (0, 1) 2 edge].
Definition meet_root : CBSNode :=
  mkCBSNode ConstraintsSet_init meet_solutions 4 meet_conflicts.
Definition meet_agents_planned : list Agent :=
  [mkAgent 0 (0, 0) (0, 1) [(0, 0); (0, 1)] 1;
   mkAgent 1 (0, 2) (0, 1) [(0, 2); (0, 1)] 1;
   mkAgent 2 (1, 0) (1, 2) [(1, 0); (1, 1); (1, 2)] 2].
End scenarios.

(** ** Predicates used in the statements *)
Section predicates.
Local Open Scope Z_scope.
Context (env : GridEnvironment) (config : Config).

(** What a call may do to one [Agent] object: [id], [start] and [goal] stay;
    [path] and [cost] either stay, or hold a plan the low-level search found
    between the agent's start and goal, and its number of moves. *)
Definition agent_frame (agent agent' : Agent) : Prop :=
  a_id agent' = a_id agent
  ∧ a_start agent' = a_start agent
  ∧ a_goal agent' = a_goal agent
  ∧ ((a_path agent' = a_path agent ∧ a_cost agent' = a_cost agent)
     ∨ (a_path agent' ≠ []
        ∧ a_cost agent' = Z.of_nat (length (a_path agent')) - 1
        ∧ ∃ k constraints,
            a_path agent'
            = low_level env config k constraints (a_start agent) (a_goal agent))).

(** A computation that treats every agent as [agent_frame] allows, whether
    it ends with a value or an exception. *)
Definition frames {A} (m : M A) : Prop :=
  ∀ agents, Forall2 agent_frame agents (m agents).2.

(** The agent is feasible at the root: the low-level search under the empty
    constraint set finds a plan for it. *)
Definition root_feasible (agent : Agent) : Prop :=
  low_level env config (a_id agent) ConstraintsSet_init (a_start agent) (a_goal agent)
  ≠ [].
End predicates.

(** ** Conflicts of a joint plan *)
Section conflicts_spec.

(** Where the agent following [path] is at time [t]: on its path, and at rest
    on the last cell of the path from then on. *)
Definition pos (path : list Cell) (t : nat) : Cell :=
  default (default (0, 0)%Z (last path)) (path !! t).

(** The number of timesteps of the padded joint plan, one more than its
    makespan. *)
Definition horizon (solutions : Solutions) : nat :=
  max_list (length ∘ snd <$> solutions).

(** Agents [a] and [b], in the order of the joint plan, are on the same cell
    at time [t]. *)
Definition vertex_conflict_at (solutions : Solutions) (t : nat) (a b : nat)
    (cell : Cell) : Prop :=
  ∃ pa pb, [(a, pa); (b, pb)] `sublist_of` solutions
           ∧ t < horizon solutions ∧ pos pa t = cell ∧ pos pb t = cell.

(** Agents [a] and [b], in the order of the joint plan, exchange their cells
    between [t - 1] and [t]; [cell] is where [a] arrives. *)
Definition swap_at (solutions : Solutions) (t : nat) (a b : nat)
    (cell : Cell) : Prop :=
  ∃ pa pb, [(a, pa); (b, pb)] `sublist_of` solutions
           ∧ 0 < t < horizon solutions
           ∧ pos pa (t - 1) = pos pb t ∧ pos pb (t - 1) = pos pa t
           ∧ pos pa t = cell.

(** The conflicts of a joint plan as the scan records them: a vertex conflict
    with its time, a swap with the time of arrival. *)
Definition recorded (solutions : Solutions) (c : Conflict) : Prop :=
  ∃ t, time c = Z.of_nat t
       ∧ match conflict_type c with
         | vertex => vertex_conflict_at solutions t (agent1 c) (agent2 c) (position c)
         | edge => swap_at solutions t (agent1 c) (agent2 c) (position c)
         end.

Definition type_order (ty : ConflictType) : Z :=
  match ty with vertex => 0 | edge => 1 end.

Definition conflict_key (c : Conflict) : Z * Z * Z * Z :=
  (time c, type_order (conflict_type c), Z.of_nat (agent1 c), Z.of_nat (agent2 c)).

(** The lexicographic order on keys [(t, type_order, a, b)]. *)
Definition key_lt (k1 k2 : Z * Z * Z * Z) : Prop :=
  let '(t1, o1, a1, b1) := k1 in
  let '(t2, o2, a2, b2) := k2 in
  (t1 < t2 ∨ (t1 = t2 ∧ (o1 < o2 ∨ (o1 = o2 ∧ (a1 < a2 ∨ (a1 = a2 ∧ b1 < b2))))))%Z.

Definition key_le (k1 k2 : Z * Z * Z * Z) : Prop := k1 = k2 ∨ key_lt k1 k2.

Definition conflict_lt (c1 c2 : Conflict) : Prop :=
  key_lt (conflict_key c1) (conflict_key c2).

(** A path padded to [max_length] cells with its last cell. *)
Definition pad (max_length : nat) (path : list Cell) : list Cell :=
  path ++ replicate (max_length - length path) (default (0, 0)%Z (last path)).

(** The shape of the two nested loops over [positions.items()]: every entry
    against each later one. *)
Fixpoint pair_scan {X C : Type} (f : X → X → option C) (items : list X) : list C :=
  match items with
  | [] => []
  | x :: rest => omap (f x) rest ++ pair_scan f rest
  end.

(** The test of the vertex check on two entries of the joint plan. *)
Definition vertex_test (t : nat) (x y : nat * list Cell) : option Conflict :=
  if bool_decide (pos x.2 t = pos y.2 t)
  then Some (mkConflict x.1 y.1 (pos x.2 t) (Z.of_nat t) vertex) else None.

(** The test of the edge check on two entries of the joint plan. *)
Definition edge_test (t : nat) (x y : nat * list Cell) : option Conflict :=
  if bool_decide (pos x.2 (t - 1) = pos y.2 t ∧ pos y.2 (t - 1) = pos x.2 t)
  then Some (mkConflict x.1 y.1 (pos x.2 t) (Z.of_nat t) edge) else None.
(** The conflicts found at time [t], on the joint plan itself. *)
Definition scan_at (solutions : Solutions) (t : nat) : list Conflict :=
pair_scan (vertex_test t) solutions
++ (if bool_decide (0 < t) then pair_scan (edge_test t) solutions else []).

End conflicts_spec.

(** ** Invariants of the high-level search *)
Section cbs_invariants.

(** A joint plan over the agents [keys], in that order, every plan
    non-empty. *)
Definition plan_ok (keys : list nat) (solutions : Solutions) : Prop :=
  solutions.*1 = keys ∧ Forall (λ kp, kp.2 ≠ []) solutions.

(** A node of the open list: its conflicts are those of its joint plan. *)
Definition node_ok (keys : list nat) (node : CBSNode) : Prop :=
  plan_ok keys (solutions node)
  ∧ _find_conflicts (solutions node) = Ok (conflicts node).

Definition result_ok (keys : list nat) (r : SearchResult) : Prop :=
  match r with
  | Solved solutions => plan_ok keys solutions ∧ _find_conflicts solutions = Ok []
  | BestNode solutions => plan_ok keys solutions
  | NoNode => False
  end.

(** Every value the computation can end with satisfies [Q]. *)
Definition ensures {A} (m : M A) (Q : A → Prop) : Prop :=
  ∀ agents a agents', m agents = (Ok a, agents') → Q a.
End cbs_invariants.

(** ** Invariants of the low-level search *)
Section astar_invariants.
Local Open Scope Z_scope.
Context (env : GridEnvironment) (agent_id : nat) (constraints : ConstraintsSet).
Context (start goal : Cell) (max_time : Z).

Definition state_of (node : SippNode) : State := (n_x node, n_y node, n_t node).

Definition start_node : SippNode :=
  SippNode_init start.1 start.2 0 0 (get_manhattan_distance start goal) None.

(** The node constructed for the neighbour [nb] of the node [cur_id]. *)
Definition new_node (cur_id : nat) (current_node : SippNode) (nb : State) : SippNode :=
  let '(nx, ny, nt) := nb in
  SippNode_init nx ny nt (n_g current_node + 1)
    (get_manhattan_distance (nx, ny) goal) (Some cur_id).

(** The nodes constructed between two states of the search. *)
Definition created (s s' : SearchState) : list SippNode :=
  drop (length (nodes s)) (nodes s').

(** What holds of every node but the first: it was constructed for a
    permitted step from its parent. *)
Definition node_inv (nodes : list SippNode) (i : nat) (node : SippNode) : Prop :=
  n_g node = n_t node
  ∧ 1 ≤ n_t node ≤ max_time
  ∧ (0 ≤ n_x node < height env ∧ 0 ≤ n_y node < width env)
  ∧ is_constrained constraints agent_id (n_x node, n_y node) (n_t node) = false
  ∧ ∃ p parent, n_parent node = Some p ∧ (p < i)%nat ∧ nodes !! p = Some parent
                ∧ n_t node = n_t parent + 1.

Record astar_inv (s : SearchState) : Prop := {
  inv_start : nodes s !! 0%nat = Some start_node;
  inv_node : ∀ i node, nodes s !! i = Some node → (0 < i)%nat → node_inv (nodes s) i node;
  inv_dict : ∀ k i, node_dict s !! k = Some i →
               ∃ node, nodes s !! i = Some node ∧ state_of node = k;
  inv_reopened : reopened s = 0%nat
}.

(** The states [(x, y, t)] that can ever enter [node_dict]. *)
Definition reachable_keys : gset State :=
  {[ (start.1, start.2, 0) ]}
  ∪ list_to_set (cprod (cprod (seqZ 0 (height env)) (seqZ 0 (width env)))
                   (seqZ 1 max_time)).

(** The potential of a state never decreases from [s] to [s']: twice the
    size of [node_dict] minus the length of the open list. *)
Definition potential_le (s s' : SearchState) : Prop :=
  (2 * size (node_dict s) + length (open_list s')
   ≤ 2 * size (node_dict s') + length (open_list s))%nat.

(** What [step] promises of a returned path: it is empty, or the chain of
    parents of a node on the goal cell. *)
Definition path_of_goal_node (s : SearchState) (path : list Cell) : Prop :=
  path = []
  ∨ ∃ cur_id current_node,
      nodes s !! cur_id = Some current_node
      ∧ (n_x current_node, n_y current_node) = goal
      ∧ path = _reconstruct_path (nodes s) cur_id.

(** A bound on the size of [node_dict]. *)
Definition dict_bound : nat :=
  (Z.to_nat (height env) * Z.to_nat (width env) * Z.to_nat max_time + 1)%nat.

Definition final_state (o : Outcome) : SearchState :=
  match o with Running s | Returned _ s => s end.
End astar_invariants.

(** ** The rest of the grid, the agent manager and the metrics *)
Section more_code.
Local Open Scope Z_scope.

(** [GridEnvironment.check_collision]. *)
Definition check_collision (pos1 pos2 : Cell) : bool := bool_decide (pos1 = pos2).

(** [GridEnvironment.check_edge_collision]. *)
Definition check_edge_collision (pos1 next_pos1 pos2 next_pos2 : Cell) : bool :=
  bool_decide (pos1 = next_pos2) && bool_decide (pos2 = next_pos1).

(** [GridEnvironment.is_valid_state]. *)
Definition is_valid_state (env : GridEnvironment) (state : Cell) : bool :=
  let '(x, y) := state in
  bool_decide (0 ≤ x < height env ∧ 0 ≤ y < width env)
  && bool_decide (grid_at env x y = Some 0).

(** [AgentManager._get_free_cells]; the manager keeps [grid], [height] and
    [width] as the environment does. *)
Definition _get_free_cells (env : GridEnvironment) : list Cell :=
  i ← seqZ 0 (height env);
  j ← seqZ 0 (width env);
  if bool_decide (grid_at env i j = Some 0) then [(i, j)] else [].

(** [AgentManager.get_agent_paths], on [self.agents]. *)
Definition get_agent_paths (agents : list Agent) : Solutions :=
  foldl (λ paths agent, dict_set paths (a_id agent) (a_path agent)) [] agents.

(** [AgentManager.get_sum_of_costs], on [self.agents]. *)
Definition get_sum_of_costs (agents : list Agent) : Z :=
  foldl Z.add 0 (a_cost <$> filter (λ agent, a_path agent ≠ []) agents).

(** [Metrics.calculate_sum_of_costs]. *)
Definition calculate_sum_of_costs (paths : Solutions) : Z :=
  foldl Z.add 0 ((λ '(_, path), Z.of_nat (length path) - 1) <$> paths).
End more_code.

(** ** Feasible paths *)
Section feasible.
Local Open Scope Z_scope.
Context (env : GridEnvironment) (agent_id : nat) (constraints : ConstraintsSet).

(** A step the low-level search may take: from cell [c] at time [t] to cell
    [c'] at time [t + 1]. *)
Definition legal_step (t : Z) (c c' : Cell) : Prop :=
  (c'.1 - c.1, c'.2 - c.2) ∈ MOVES
  ∧ is_valid_state env c' = true
  ∧ is_constrained constraints agent_id c' (t + 1) = false
  ∧ is_edge_constrained constraints agent_id c c' t = false.

(** A path of legal steps from [start] at time 0 to [goal], of at most
    [max_time] steps if it has a step at all. *)
Definition feasible_path (start goal : Cell) (max_time : Z) (path : list Cell) : Prop :=
  head path = Some start ∧ last path = Some goal
  ∧ ((1 < length path)%nat → Z.of_nat (length path) - 1 ≤ max_time)
  ∧ ∀ (i : nat) c c', path !! i = Some c → path !! S i = Some c' →
      legal_step (Z.of_nat i) c c'.

(** Every node of the store was reached from its parent by a legal step. *)
Definition step_inv (s : SearchState) : Prop :=
  ∀ i node p parent,
    nodes s !! i = Some node → n_parent node = Some p → nodes s !! p = Some parent →
    legal_step (n_t parent) (n_x parent, n_y parent) (n_x node, n_y node).

(** A chain of cells from a node at time [t] back towards the start, each
    reached from the next by a legal step. *)
Fixpoint chain_legal (t : Z) (chain : list Cell) : Prop :=
  match chain with
  | c' :: ((c :: _) as chain') => legal_step (t - 1) c c' ∧ chain_legal (t - 1) chain'
  | _ => True
  end.
End feasible.

(** ** The frontier of the low-level search *)
Section frontier.
Local Open Scope Z_scope.
Context (env : GridEnvironment) (agent_id : nat) (constraints : ConstraintsSet).
Context (start goal : Cell) (max_time : Z).

Definition cell_of (key : State) : Cell := (key.1.1, key.1.2).
Definition time_of (key : State) : Z := key.2.

(** The search has met the state: it is in [closed_set] or a key of
    [node_dict]. *)
Definition known (s : SearchState) (key : State) : Prop :=
  key ∈ closed_set s ∨ is_Some (node_dict s !! key).

(** [node_dict] and [open_list]: the start has a node; the node of a key is
    in the open list unless it has been popped, and then the key is closed,
    or was dropped for its time, off the goal; the open list holds nodes of
    [node_dict] only. *)
Definition open_inv (s : SearchState) : Prop :=
  is_Some (node_dict s !! (start.1, start.2, 0))
  ∧ (∀ key id, node_dict s !! key = Some id →
       id ∈ open_list s ∨ key ∈ closed_set s
       ∨ (cell_of key ≠ goal ∧ max_time ≤ time_of key))
  ∧ (∀ id, id ∈ open_list s → ∃ key, node_dict s !! key = Some id).

(** [closed_set]: a closed state is off the goal, and every legal step from
    it leads to a state the search has met. *)
Definition closed_inv (s : SearchState) : Prop :=
  ∀ key, key ∈ closed_set s →
    cell_of key ≠ goal
    ∧ ∀ c', legal_step env agent_id constraints (time_of key) (cell_of key) c' →
            known s (c', time_of key + 1).
End frontier.

(** ** Heap order *)
Section heap_order.
Context {A : Type} (lt : A → A → bool).

(** The invariant [heapq] documents: [heap[(k - 1) // 2] <= heap[k]] for
    every position [k] but the root, where [a <= b] is [not b < a]. *)
Definition heap_ordered (heap : list A) : Prop :=
  ∀ i c p, 0 < i → heap !! i = Some c → heap !! Nat.div2 (i - 1) = Some p →
    lt c p = false.

(** The same with a hole at [pos] that [newitem] is to fill, as the loop of
    [_siftdown] sees the heap: the entries below the hole are not less than
    [newitem], nor than the entry above the hole. *)
Definition ordered_around (heap : list A) (pos : nat) (newitem : A) : Prop :=
  (∀ i c p, 0 < i → i ≠ pos → heap !! i = Some c →
     heap !! Nat.div2 (i - 1) = Some p → lt c p = false)
  ∧ (∀ i c, 0 < i → Nat.div2 (i - 1) = pos → heap !! i = Some c →
       lt c newitem = false)
  ∧ (∀ i c gp, 0 < i → Nat.div2 (i - 1) = pos → 0 < pos → heap !! i = Some c →
       heap !! Nat.div2 (pos - 1) = Some gp → lt c gp = false).

(** The heap with a hole at [pos], as the loop of [_siftup] sees it: the
    entry at the hole is ignored, and the entries below the hole are not
    less than the entry above it. *)
Definition ordered_but (heap : list A) (pos : nat) : Prop :=
  (∀ i c p, 0 < i → i ≠ pos → Nat.div2 (i - 1) ≠ pos → heap !! i = Some c →
     heap !! Nat.div2 (i - 1) = Some p → lt c p = false)
  ∧ (∀ i c gp, 0 < i → Nat.div2 (i - 1) = pos → 0 < pos → heap !! i = Some c →
       heap !! Nat.div2 (pos - 1) = Some gp → lt c gp = false).
End heap_order.

(** ** The open list of the low-level search as a heap *)
Section open_heap.
Local Open Scope Z_scope.
Context (goal : Cell).

(** The open list is in heap order by [f], it holds nodes of the store, and
    every node has the Manhattan distance to the goal as [h] and [g + h] as
    [f]. *)
Definition heap_inv (s : SearchState) : Prop :=
  heap_ordered (node_lt (nodes s)) (open_list s)
  ∧ Forall (λ id, (id < length (nodes s))%nat) (open_list s)
  ∧ Forall (λ node, n_h node = get_manhattan_distance (n_x node, n_y node) goal
                    ∧ n_f node = n_g node + n_h node) (nodes s).
End open_heap.

(** ** Sound joint plans *)
Section sound_plans.
Local Open Scope Z_scope.
Context (env : GridEnvironment) (config : Config).

(** Every agent's identifier is its position in the list, as
    [self.agents[agent_id]] takes it to be. *)
Definition ids_are_positions (agents : list Agent) : Prop :=
  ∀ i agent, agents !! i = Some agent → a_id agent = i.

(** The agents still have the starts and goals of [agents0]. *)
Definition endpoints_kept (agents0 agents : list Agent) : Prop :=
  Forall2 (λ agent0 agent,
             a_start agent = a_start agent0 ∧ a_goal agent = a_goal agent0)
    agents0 agents.

(** The plan of agent [k] leads from the start to the goal of the agent at
    position [k], by legal steps in the grid and within [MAX_TIME_STEPS]. *)
Definition entry_sound (agents0 : list Agent) (kp : nat * list Cell) : Prop :=
  ∃ agent, agents0 !! kp.1 = Some agent
           ∧ feasible_path env kp.1 ConstraintsSet_init (a_start agent) (a_goal agent)
               (MAX_TIME_STEPS config) kp.2.

Definition plan_sound (agents0 : list Agent) (solutions : Solutions) : Prop :=
  Forall (entry_sound agents0) solutions.

(** Started with agents that have the endpoints of [agents0], the
    computation raises no exception, ends with a value that satisfies [Q]
    and leaves the endpoints as they are. *)
Definition total {A} (agents0 : list Agent) (m : M A) (Q : A → Prop) : Prop :=
  ∀ agents, endpoints_kept agents0 agents →
    ∃ a agents', m agents = (Ok a, agents') ∧ Q a ∧ endpoints_kept agents0 agents'.

(** A node of the open list whose joint plan is sound. *)
Definition node_sound (agents0 : list Agent) (keys : list nat) (node : CBSNode) : Prop :=
  node_ok keys node ∧ plan_sound agents0 (solutions node).

Definition result_sound (agents0 : list Agent) (keys : list nat) (r : SearchResult) : Prop :=
  result_ok keys r ∧ plan_sound agents0 (returned r).
End sound_plans.

(** ** The head of the high-level loop *)
Section loop_head.
Local Open Scope Z_scope.
Context (env : GridEnvironment) (config : Config).

(** The iteration from [for agent_id in [conflict.agent1, conflict.agent2]]
    on, for the conflict [conflict] of the node [current_node]: the child
    of the first agent, the child of the second, and then the rest of the
    search, [continue], on the open list with both children. *)
Definition split_on (current_node : CBSNode) (conflict : Conflict)
    (open_list : list CBSNode) (continue : list CBSNode → M SearchResult)
    : M SearchResult :=
  r1 ← expand env config current_node conflict (agent1 conflict) open_list;
  match r1 with
  | inl result => mret result
  | inr open_list =>
      r2 ← expand env config current_node conflict (agent2 conflict) open_list;
      match r2 with
      | inl result => mret result
      | inr open_list => continue open_list
      end
  end.

(** [at_loop_head agents k open_list agents_k]: a search started on
    [agents] that has gone through [k] iterations of its [while] loop
    without returning or raising is at the head of the loop with the open
    list [open_list] and the agents [agents_k]. The budget is not looked
    at. *)
Inductive at_loop_head (agents : list Agent)
    : nat → list CBSNode → list Agent → Prop :=
  | at_entry root_solutions root_conflicts agents_0 :
      _find_initial_solutions env config ConstraintsSet_init agents
        = (Ok root_solutions, agents_0) →
      _find_conflicts root_solutions = Ok root_conflicts →
      at_loop_head agents 0
        (heapq.heappush CBSNode_lt []
           (mkCBSNode ConstraintsSet_init root_solutions
              (_calculate_solution_cost root_solutions) root_conflicts))
        agents_0
  | at_next k open_list agents_k current_node rest conflict others
        open_1 agents_1 open_2 agents_2 :
      at_loop_head agents k open_list agents_k →
      heapq.heappop CBSNode_lt open_list = Some (current_node, rest) →
      conflicts current_node = conflict :: others →
      expand env config current_node conflict (agent1 conflict) rest agents_k
        = (Ok (inr open_1), agents_1) →
      expand env config current_node conflict (agent2 conflict) open_1 agents_1
        = (Ok (inr open_2), agents_2) →
      at_loop_head agents (S k) open_2 agents_2.
End loop_head.

(** ** What the search writes to the agents *)
Section writes.
Local Open Scope Z_scope.
Context (env : GridEnvironment) (config : Config).

(** The plans the low-level search finds under the empty constraint set,
    one entry for each agent it finds a plan for, in the order of the
    agents. *)
Definition root_plans (agents : list Agent) : Solutions :=
  omap (λ agent,
          match low_level env config (a_id agent) ConstraintsSet_init
                  (a_start agent) (a_goal agent) with
          | [] => None
          | (_ :: _) as path => Some (a_id agent, path)
          end) agents.

(** [id], [start] and [goal] are those of [agent]. *)
Definition same_agent (agent agent' : Agent) : Prop :=
  a_id agent' = a_id agent ∧ a_start agent' = a_start agent
  ∧ a_goal agent' = a_goal agent.

(** [path] and [cost] are those of [agent]. *)
Definition untouched (agent agent' : Agent) : Prop :=
  a_path agent' = a_path agent ∧ a_cost agent' = a_cost agent.

(** [path] is [path] and [cost] its number of moves. *)
Definition holds_plan (agent' : Agent) (path : list Cell) : Prop :=
  a_path agent' = path ∧ a_cost agent' = Z.of_nat (length path) - 1.

(** An agent after [_find_initial_solutions(constraints)]: when the
    low-level search finds a plan the agent holds it, otherwise the agent
    is as it was. *)
Definition agent_after_root (constraints : ConstraintsSet) (agent agent' : Agent) : Prop :=
  same_agent agent agent'
  ∧ match low_level env config (a_id agent) constraints (a_start agent) (a_goal agent) with
    | [] => untouched agent agent'
    | (_ :: _) as path => holds_plan agent' path
    end.

(** An agent after a whole search: an agent that is feasible at the root
    holds some plan of the low-level search between its start and its goal,
    and an agent that is not is as it was. *)
Definition agent_after_search (agent agent' : Agent) : Prop :=
  same_agent agent agent'
  ∧ (root_feasible env config agent →
     a_path agent' ≠ []
     ∧ ∃ k constraints,
         holds_plan agent'
           (low_level env config k constraints (a_start agent) (a_goal agent)))
  ∧ (¬ root_feasible env config agent → untouched agent agent').

(** An agent that holds its plan of the joint plan [solutions], or is as it
    was when the joint plan has none for it. *)
Definition agent_holds (solutions : Solutions) (agent agent' : Agent) : Prop :=
  same_agent agent agent'
  ∧ match dict_get solutions (a_id agent) with
    | Some path => holds_plan agent' path
    | None => untouched agent agent'
    end.
End writes.

(** * Properties *)

(** ** The heap routines only rearrange the entries *)
Section heapq_facts.
Import heapq.
Context {A : Type} (lt : A → A → bool).


Lemma siftdown_loop_length n heap newitem startpos pos :
  length (siftdown_loop lt n heap newitem startpos pos) = length heap.
Proof.
  revert heap pos. induction n as [|n IH]; intros heap pos; simpl.
  - by rewrite length_insert.
  - case_bool_decide; [|by rewrite length_insert].
    destruct (heap !! _); [|by rewrite length_insert].
    destruct (lt _ _); [|by rewrite length_insert].
    by rewrite IH, length_insert.
Qed.

Lemma siftdown_length heap startpos pos :
  length (_siftdown lt heap startpos pos) = length heap.
Proof.
  unfold _siftdown. destruct (heap !! pos); [|done].
  apply siftdown_loop_length.
Qed.

Lemma siftup_loop_length n heap pos :
  length (siftup_loop lt n heap pos).1 = length heap.
Proof.
  revert heap pos. induction n as [|n IH]; intros heap pos; simpl; [done|].
  case_bool_decide; [|done].
  destruct (heap !! _) eqn:E; [|done].
  by rewrite IH, length_insert.
Qed.

Lemma siftup_length heap pos : length (_siftup lt heap pos) = length heap.
Proof.
  unfold _siftup. destruct (heap !! pos); [|done].
  pose proof (siftup_loop_length (length heap) heap pos) as H.
  destruct (siftup_loop lt _ _ _) as [heap' pos']; simpl in H.
  by rewrite siftdown_length, length_insert.
Qed.

Lemma heappush_length heap item :
  length (heappush lt heap item) = S (length heap).
Proof.
  unfold heappush. rewrite siftdown_length, length_app. simpl. lia.
Qed.

Lemma heappop_None heap : heappop lt heap = None ↔ heap = [].
Proof.
  unfold heappop. split.
  - destruct (last heap) eqn:E.
    + by destruct (removelast heap).
    + intros _. by apply last_None.
  - by intros ->.
Qed.

Lemma last_removelast (l : list A) a :
  last l = Some a → l = removelast l ++ [a].
Proof.
  intros H. destruct l as [|b l]; [done|].
  rewrite (app_removelast_last a (l:=b :: l)) at 1 by done.
  f_equal. f_equal. rewrite last_lookup in H. simpl in H.
  clear -H. revert b H. induction l as [|c l IH]; intros b H; simpl in *.
  - by inversion H.
  - apply (IH c). by destruct l.
Qed.

Lemma heappop_length heap item heap' :
  heappop lt heap = Some (item, heap') → length heap = S (length heap').
Proof.
  unfold heappop. destruct (last heap) as [a|] eqn:E; [|done].
  apply last_removelast in E. rewrite E at 2. rewrite length_app. simpl.
  destruct (removelast heap) as [|b rest]; intros [= <- <-]; simpl; [done|].
  rewrite siftup_length. simpl. lia.
Qed.

Lemma heapify_length x : length (heapify lt x) = length x.
Proof.
  unfold heapify. generalize (reverse (seq 0 (length x / 2))).
  intros l. revert x. induction l as [|i l IH]; intros x; simpl; [done|].
  by rewrite IH, siftup_length.
Qed.

Section preserved.
Context (P : A → Prop).

Lemma siftdown_loop_Forall n heap newitem startpos pos :
  Forall P heap → P newitem →
  Forall P (siftdown_loop lt n heap newitem startpos pos).
Proof.
  revert heap pos. induction n as [|n IH]; intros heap pos HF Hn; simpl.
  - by apply Forall_insert.
  - case_bool_decide; [|by apply Forall_insert].
    destruct (heap !! _) as [parent|] eqn:E; [|by apply Forall_insert].
    destruct (lt _ _); [|by apply Forall_insert].
    apply IH; [|done]. apply Forall_insert; [done|].
    by eapply Forall_lookup_1.
Qed.

Lemma siftdown_Forall heap startpos pos :
  Forall P heap → Forall P (_siftdown lt heap startpos pos).
Proof.
  intros HF. unfold _siftdown. destruct (heap !! pos) eqn:E; [|done].
  apply siftdown_loop_Forall; [done|]. by eapply Forall_lookup_1.
Qed.

Lemma siftup_loop_Forall n heap pos :
  Forall P heap → Forall P (siftup_loop lt n heap pos).1.
Proof.
  revert heap pos. induction n as [|n IH]; intros heap pos HF; simpl; [done|].
  case_bool_decide; [|done].
  destruct (heap !! _) as [c|] eqn:E; [|done].
  apply IH. apply Forall_insert; [done|]. by eapply Forall_lookup_1.
Qed.

Lemma siftup_Forall heap pos :
  Forall P heap → Forall P (_siftup lt heap pos).
Proof.
  intros HF. unfold _siftup. destruct (heap !! pos) as [newitem|] eqn:E; [|done].
  pose proof (siftup_loop_Forall (length heap) heap pos HF) as H.
  destruct (siftup_loop lt _ _ _) as [heap' pos']; simpl in H.
  apply siftdown_Forall, Forall_insert; [done|].
  exact (Forall_lookup_1 _ _ _ _ HF E).
Qed.

Lemma heappush_Forall heap item :
  Forall P heap → P item → Forall P (heappush lt heap item).
Proof.
  intros HF Hi. unfold heappush. apply siftdown_Forall, Forall_app.
  split; [done|]. by constructor.
Qed.

Lemma heappop_Forall heap item heap' :
  Forall P heap → heappop lt heap = Some (item, heap') →
  P item ∧ Forall P heap'.
Proof.
  intros HF. unfold heappop. destruct (last heap) as [a|] eqn:E; [|done].
  apply last_removelast in E. rewrite E in HF.
  apply Forall_app in HF as [HF Ha]. apply Forall_inv in Ha.
  destruct (removelast heap) as [|b rest]; intros [= <- <-].
  - split; [done|constructor].
  - apply Forall_cons in HF as [Hb HF]. split; [done|].
    apply siftup_Forall. by constructor.
Qed.

Lemma heapify_Forall x : Forall P x → Forall P (heapify lt x).
Proof.
  unfold heapify. generalize (reverse (seq 0 (length x / 2))).
  intros l. revert x. induction l as [|i l IH]; intros x HF; simpl; [done|].
  by apply IH, siftup_Forall.
Qed.
End preserved.

(** The bounds of the two loops are never what stops them: with [pos]
    iterations [_siftdown] has reached [startpos] or the root, and with as
    many iterations as the heap has entries [_siftup] has reached a leaf. *)
Lemma siftdown_loop_fuel n m heap newitem startpos pos :
pos ≤ n → pos ≤ m →
siftdown_loop lt n heap newitem startpos pos
= siftdown_loop lt m heap newitem startpos pos.
Proof.
revert m heap pos. induction n as [|n IH]; intros [|m] heap pos Hn Hm; simpl; [done|..].
- by rewrite bool_decide_false by lia.
- by rewrite bool_decide_false by lia.
- case_bool_decide; [|done]. destruct (heap !! _); [|done].
  destruct (lt _ _); [|done].
  assert (Nat.div2 (pos - 1) ≤ pos - 1) by apply Nat.div2_decr, Nat.le_succ_diag_r.
  apply IH; lia.
Qed.

Lemma siftup_loop_fuel n m heap pos :
length heap ≤ n + pos → length heap ≤ m + pos →
siftup_loop lt n heap pos = siftup_loop lt m heap pos.
Proof.
revert m heap pos. induction n as [|n IH]; intros [|m] heap pos Hn Hm; simpl; [done|..].
- by rewrite bool_decide_false by lia.
- by rewrite bool_decide_false by lia.
- case_bool_decide; [|done].
  match goal with |- context [heap !! ?c] =>
    assert (pos < c) as Hc by (repeat case_match; lia); generalize dependent c
  end.
  intros c Hc. destruct (heap !! c); [|done].
  apply IH; rewrite length_insert; lia.
Qed.
End heapq_facts.

(** ** Makespan *)
Section makespan.
Local Open Scope Z_scope.

Lemma foldl_Zmax_add (l : list Z) (x d : Z) :
  foldl Z.max (x + d) ((λ z, z + d) <$> l) = foldl Z.max x l + d.
Proof.
  revert x. induction l as [|y l IH]; intros x; simpl; [done|].
  rewrite <- IH. f_equal. lia.
Qed.

(** On the same non-empty plans [get_makespan] is always one more than
    [calculate_makespan]: it counts cells where the other counts moves. *)
Lemma get_makespan_counts_cells (paths : Solutions) :
  paths ≠ [] → Forall (λ kp, kp.2 ≠ []) paths →
  get_makespan (agents_of paths) = (λ m, m + 1) <$> calculate_makespan paths.
Proof.
  intros Hne Hall.
  assert (Hf : ∀ l : Solutions, Forall (λ kp, kp.2 ≠ []) l →
            (λ agent, Z.of_nat (length (a_path agent)))
              <$> filter (λ agent, a_path agent ≠ []) (agents_of l)
            = (λ z, z + 1) <$> ((λ '(_, path), Z.of_nat (length path) - 1) <$> l)).
  { clear. induction 1 as [|[k p] l Hp _ IH]; [done|].
    unfold agents_of in *. cbn [fmap list_fmap].
    rewrite filter_cons_True by done. cbn [fmap list_fmap].
    rewrite IH. f_equal. simpl. lia. }
  unfold get_makespan, calculate_makespan.
  destruct (agents_of paths) eqn:E; [by destruct paths as [|[??] ?]|].
  rewrite <- E, Hf by done. clear E.
  destruct paths as [|[k p] paths]; [done|]. cbn.
  f_equal. apply foldl_Zmax_add.
Qed.

(** C8: for the one-step plan of a single agent [Metrics.calculate_makespan]
    returns 1, the number of moves, as the claim says, while
    [AgentManager.get_makespan] returns 2, the number of cells. *)
Theorem makespan_computations_disagree :
  let paths := [(0%nat, [(0, 0); (0, 1)])] in
  calculate_makespan paths = Ok 1 ∧ get_makespan (agents_of paths) = Ok 2.
Proof. split; reflexivity. Qed.
End makespan.

(** ** Splitting on an edge conflict *)
Section edge_split.
Local Open Scope Z_scope.

(** Whatever the type of the conflict, the child's constraint set is the
    parent's with one vertex constraint added; its edge constraints are the
    parent's. *)
Lemma new_constraints_vertex_only (current_node : CBSNode) (conflict : Conflict)
    (agent_id : nat) :
  new_constraints current_node conflict agent_id
  = {| vertex_constraints :=
         vertex_constraints (constraints current_node)
         ∪ {[ VertexConstraint agent_id (position conflict) (time conflict) ]};
       edge_constraints := edge_constraints (constraints current_node) |}.
Proof. unfold new_constraints. by destruct (conflict_type conflict). Qed.

(** C2: the root of the head-on scenario has the edge conflict of agents 0
    and 1 swapping [(0, 0)] and [(0, 1)]; both children receive a vertex
    constraint on [(0, 1)] at time 1 and no edge constraint. For agent 1 this
    forbids nothing on its plan, which the child's replanning returns
    unchanged. *)
Theorem edge_split_adds_vertex_constraints :
  _find_conflicts swap_solutions = Ok [swap_conflict]
  ∧ new_constraints swap_root swap_conflict 0
    = {| vertex_constraints := {[ VertexConstraint 0 (0, 1) 1 ]};
         edge_constraints := ∅ |}
  ∧ new_constraints swap_root swap_conflict 1
    = {| vertex_constraints := {[ VertexConstraint 1 (0, 1) 1 ]};
         edge_constraints := ∅ |}
  ∧ low_level swap_grid small_config 1
      (new_constraints swap_root swap_conflict 1) (0, 1) (0, 0)
    = [(0, 1); (0, 0)].
Proof. repeat split; vm_compute; reflexivity. Qed.
End edge_split.

(** ** What the solver does to its agents *)
Section agents_frame.
Local Open Scope Z_scope.
Context (env : GridEnvironment) (config : Config).

Local Abbreviation agent_frame := (agent_frame env config).
Local Abbreviation frames := (frames env config).

Lemma agent_frame_refl agent : agent_frame agent agent.
Proof. repeat split. by left. Qed.

Lemma agent_frame_trans a1 a2 a3 :
  agent_frame a1 a2 → agent_frame a2 a3 → agent_frame a1 a3.
Proof.
  intros (Hi & Hs & Hg & H12) (Hi' & Hs' & Hg' & H23).
  repeat split; [congruence..|].
  destruct H23 as [[Hp Hc]|(Hne & Hc & k & cs & Hp)].
  - destruct H12 as [[Hp' Hc']|(Hne' & Hc' & k & cs & Hp')].
    + left. split; congruence.
    + right. rewrite Hp, Hc. eauto 10.
  - right. repeat split; [done..|]. exists k, cs. congruence.
Qed.

Lemma agent_frame_set_path agent k constraints :
  low_level env config k constraints (a_start agent) (a_goal agent) ≠ [] →
  agent_frame agent
    (set_path agent (low_level env config k constraints (a_start agent) (a_goal agent))).
Proof. intros Hne. repeat split; [done..|]. right. simpl. eauto. Qed.

Lemma agents_frame_refl agents : Forall2 agent_frame agents agents.
Proof. apply Forall_Forall2_diag, Forall_forall. intros. apply agent_frame_refl. Qed.

Lemma agents_frame_trans l1 l2 l3 :
  Forall2 agent_frame l1 l2 → Forall2 agent_frame l2 l3 → Forall2 agent_frame l1 l3.
Proof.
  intros H12. revert l3. induction H12 as [|a1 a2 l1 l2 H _ IH]; intros l3 H23.
  - by inversion H23.
  - inversion H23; subst. constructor; [by eapply agent_frame_trans|by apply IH].
Qed.

Lemma frames_ret {A} (a : A) : frames (mret a).
Proof. intros agents. apply agents_frame_refl. Qed.

Lemma frames_lift {A} (r : Result A) : frames (lift r).
Proof. intros agents. apply agents_frame_refl. Qed.

Lemma frames_bind {A B} (m : M A) (f : A → M B) :
  frames m → (∀ a, frames (f a)) → frames (m ≫= f).
Proof.
  intros Hm Hf agents. unfold mbind, M_bind.
  specialize (Hm agents). destruct (m agents) as [[a|e] agents']; simpl in *; [|done].
  eapply agents_frame_trans; [done|apply Hf].
Qed.

Lemma initial_loop_frame constraints agents solutions :
  Forall2 agent_frame agents (initial_loop env config constraints agents solutions).2.
Proof.
  revert solutions. induction agents as [|agent agents IH]; intros solutions; simpl.
  - constructor.
  - destruct (low_level _ _ _ _ _ _) as [|c path] eqn:E.
    + specialize (IH solutions).
      destruct (initial_loop _ _ _ _ _) as [s' rest]. simpl in *.
      constructor; [apply agent_frame_refl|done].
    + specialize (IH (dict_set solutions (a_id agent) (c :: path))).
      destruct (initial_loop _ _ _ _ _) as [s' rest]. simpl in *.
      constructor; [|done]. rewrite <- E. apply agent_frame_set_path.
      by rewrite E.
Qed.

Lemma frames_find_initial_solutions constraints :
  frames (_find_initial_solutions env config constraints).
Proof.
  intros agents. unfold _find_initial_solutions.
  pose proof (initial_loop_frame constraints agents []) as H.
  by destruct (initial_loop _ _ _ _ _).
Qed.

Lemma frames_replan_agent agent_id constraints solutions :
  frames (_replan_agent env config agent_id constraints solutions).
Proof.
  intros agents. unfold _replan_agent.
  destruct (agents !! agent_id) as [agent|] eqn:Ha; [|apply agents_frame_refl].
  destruct (low_level _ _ _ _ _ _) as [|c path] eqn:E; [apply agents_frame_refl|].
  simpl. rewrite <- (list_insert_id agents agent_id agent) at 1 by done.
  apply Forall2_insert; [apply agents_frame_refl|].
  rewrite <- E. apply agent_frame_set_path. by rewrite E.
Qed.

Lemma frames_expand current_node conflict agent_id open_list :
  frames (expand env config current_node conflict agent_id open_list).
Proof.
  unfold expand. apply frames_bind; [apply frames_replan_agent|].
  intros sols. apply frames_bind; [apply frames_lift|].
  intros [|c cs]; apply frames_ret.
Qed.

Lemma frames_search_loop n open_list :
  frames (search_loop env config n open_list).
Proof.
  revert open_list. induction n as [|n IH]; intros open_list; simpl.
  - apply frames_ret.
  - destruct (heapq.heappop _ _) as [[current_node open_list']|]; [|apply frames_ret].
    destruct (conflicts current_node) as [|conflict _]; [apply frames_ret|].
    apply frames_bind; [apply frames_expand|].
    intros [result|open1]; [apply frames_ret|].
    apply frames_bind; [apply frames_expand|].
    intros [result|open2]; [apply frames_ret|apply IH].
Qed.

(** A search leaves the identifier, the start and the goal of every agent
    as they were, and the list of agents with them; the path and the cost
    of an agent are either left alone or overwritten with a plan found by
    the low-level search and its number of moves. This holds for every way
    the call can end, an exception included. *)
Lemma frames_CBS_search (agents : list Agent) :
  Forall2 agent_frame agents (CBS_search env config agents).2.
Proof.
  revert agents. change (frames (CBS_search env config)). unfold CBS_search.
  apply frames_bind; [apply frames_find_initial_solutions|].
  intros sols. apply frames_bind; [apply frames_lift|].
  intros cs. apply frames_search_loop.
Qed.

(** C10: when the low-level search finds no plan for any agent under the
    empty constraint set, the root's joint plan is empty and the conflict
    scan of the root raises [ValueError]: the call ends with that exception,
    the agents untouched. *)
Theorem search_raises_when_no_agent_is_feasible (agents : list Agent) :
  Forall (λ agent, ¬ root_feasible env config agent) agents →
  CBS_search env config agents = (Raise ValueError, agents).
Proof.
  intros Hall. unfold CBS_search, mbind, M_bind, _find_initial_solutions.
  assert (H : initial_loop env config ConstraintsSet_init agents [] = ([], agents)).
  { generalize (@nil (nat * list Cell)). intros sols.
    induction Hall as [|agent agents Ha _ IH]; simpl; [done|].
    unfold root_feasible in Ha. apply dec_stable in Ha. by rewrite Ha, IH. }
  by rewrite H.
Qed.
End agents_frame.

Section agents_frame_examples.
Local Open Scope Z_scope.

Lemma search_raises_when_no_agent_is_feasible_witness :
  CBS_search wall_grid small_config stuck_agents = (Raise ValueError, stuck_agents).
Proof.
  apply (search_raises_when_no_agent_is_feasible wall_grid small_config stuck_agents).
  repeat constructor. unfold root_feasible. vm_compute. intros H. by apply H.
Defined.

(** C7, as stated, fails: after planning the single agent of a 1 x 2 grid
    the agent's [path] and [cost] are no longer the ones it was given. *)
Lemma search_mutates_agents :
  let agents := [Agent_init 0 (0, 0) (0, 1)] in
  CBS_search swap_grid small_config agents
  = (Ok (Solved [(0%nat, [(0, 0); (0, 1)])]),
     [mkAgent 0 (0, 0) (0, 1) [(0, 0); (0, 1)] 1])
  ∧ (CBS_search swap_grid small_config agents).2 ≠ agents.
Proof. split; [vm_compute; reflexivity|vm_compute; discriminate]. Qed.
End agents_frame_examples.

(** ** Dictionaries *)
Section dict_facts.
Context {V : Type}.
Implicit Types (d : list (nat * V)) (k : nat) (v : V).

Lemma dict_set_fresh d k v : k ∉ d.*1 → dict_set d k v = d ++ [(k, v)].
Proof.
induction d as [|[k' v'] d IH]; simpl; [done|].
intros Hk. apply not_elem_of_cons in Hk as [Hne Hk].
rewrite decide_False by done. by rewrite IH.
Qed.

Lemma dict_set_keys_present d k v : k ∈ d.*1 → (dict_set d k v).*1 = d.*1.
Proof.
induction d as [|[k' v'] d IH]; simpl; [by intros ?%elem_of_nil|].
intros Hk. destruct (decide (k = k')) as [->|Hne]; [done|].
simpl. f_equal. apply IH. by apply elem_of_cons in Hk as [?|?].
Qed.

Lemma dict_set_keys d k v :
(dict_set d k v).*1 = if decide (k ∈ d.*1) then d.*1 else d.*1 ++ [k].
Proof.
destruct (decide (k ∈ d.*1)) as [Hin|Hin].
- by apply dict_set_keys_present.
- rewrite dict_set_fresh by done. by rewrite fmap_app.
Qed.

Lemma dict_set_values (P : V → Prop) d k v :
Forall (λ kv, P kv.2) d → P v → Forall (λ kv, P kv.2) (dict_set d k v).
Proof.
intros Hd Hv. induction Hd as [|[k' v'] d Hkv Hd IH]; simpl.
- by repeat constructor.
- destruct (decide (k = k')); constructor; done.
Qed.

Lemma dict_get_elem_of d k v : NoDup d.*1 → (k, v) ∈ d → dict_get d k = Some v.
Proof.
induction d as [|[k' v'] d IH]; simpl; [by intros _ ?%elem_of_nil|].
intros [Hk' Hnd]%NoDup_cons [[= -> ->]|Hin]%elem_of_cons.
- by rewrite decide_True.
- rewrite decide_False; [by apply IH|].
  intros ->. apply Hk'. by apply (list_elem_of_fmap_2 fst) in Hin.
Qed.

Lemma dict_get_Some d k v : dict_get d k = Some v → (k, v) ∈ d.
Proof.
induction d as [|[k' v'] d IH]; simpl; [done|].
destruct (decide (k = k')) as [->|Hne].
- intros [= ->]. left.
- intros H. right. by apply IH.
Qed.
End dict_facts.

(** Two entries of a list, in its order. *)
Lemma sublist_pair_cons {X} (x y z : X) (l : list X) :
[x; y] `sublist_of` z :: l ↔ [x; y] `sublist_of` l ∨ (x = z ∧ y ∈ l).
Proof.
rewrite sublist_cons_r. split.
- intros [H|(l' & [= -> <-] & H)]; [by left|]. right. split; [done|].
  by apply singleton_sublist_l.
- intros [H|[-> H]]; [by left|]. right. eexists. split; [done|].
  by apply singleton_sublist_l.
Qed.

Lemma sublist_pair_elem_of {X} (x y : X) (l : list X) :
[x; y] `sublist_of` l → x ∈ l ∧ y ∈ l.
Proof.
induction l as [|z l IH]; [by intros ?%sublist_nil_r|].
intros [H|[-> H]]%sublist_pair_cons.
- destruct (IH H). split; by right.
- split; [left|by right].
Qed.

Lemma elem_of_pair_sublist {X} (x y : X) (l : list X) :
NoDup l → x ∈ l → y ∈ l → x ≠ y →
[x; y] `sublist_of` l ∨ [y; x] `sublist_of` l.
Proof.
induction l as [|z l IH]; [by intros _ ?%elem_of_nil|].
intros [Hz Hnd]%NoDup_cons Hx Hy Hne. rewrite !sublist_pair_cons.
apply elem_of_cons in Hx as [->|Hx]; apply elem_of_cons in Hy as [->|Hy].
- done.
- left. by right.
- right. by right.
- destruct (IH Hnd Hx Hy Hne); [left|right]; by left.
Qed.

(** ** The scan of every entry against each later one *)
Section pair_scan_facts.
Context {X C : Type} (f : X → X → option C).

Lemma elem_of_pair_scan (items : list X) (c : C) :
c ∈ pair_scan f items ↔ ∃ x y, [x; y] `sublist_of` items ∧ f x y = Some c.
Proof.
induction items as [|z items IH]; simpl.
- split; [by intros ?%elem_of_nil|]. intros (x & y & H & _).
  by apply sublist_nil_r in H.
- rewrite elem_of_app, IH, list_elem_of_omap. split.
  + intros [(y & Hy & Hf)|(x & y & Hs & Hf)].
    * exists z, y. split; [|done]. apply sublist_pair_cons. by right.
    * exists x, y. split; [|done]. apply sublist_pair_cons. by left.
  + intros (x & y & [Hs|[-> Hy]]%sublist_pair_cons & Hf); [right|left]; eauto.
Qed.
End pair_scan_facts.

(** ** What the conflict scan computes *)
Section find_conflicts_facts.
Implicit Types (solutions items : Solutions) (path : list Cell) (t : nat).

Lemma extend_path_pad max_length path :
path ≠ [] → extend_path max_length path = Ok (pad max_length path).
Proof.
intros Hne. unfold extend_path, pad. case_bool_decide as Hlt.
- destruct (last path) as [c|] eqn:E; [done|]. by apply last_None in E.
- replace (max_length - length path) with 0 by lia. simpl. by rewrite app_nil_r.
Qed.

Lemma extend_paths_pad max_length items acc :
NoDup (acc.*1 ++ items.*1) → Forall (λ kp, kp.2 ≠ []) items →
extend_paths max_length items acc
= Ok (acc ++ ((λ kp, (kp.1, pad max_length kp.2)) <$> items)).
Proof.
intros Hnd Hne. revert acc Hnd.
induction Hne as [|[k p] items Hp _ IH]; intros acc Hnd; simpl.
- by rewrite app_nil_r.
- rewrite extend_path_pad by done. simpl.
  apply NoDup_app in Hnd as (Hacc & Hdisj & [Hk Hitems]%NoDup_cons).
  rewrite dict_set_fresh.
  + rewrite IH; [by rewrite <- app_assoc|].
    rewrite fmap_app. simpl. rewrite <- app_assoc. simpl.
    apply NoDup_app. split_and!; [done| |by constructor].
    intros k' Hk'. apply Hdisj. done.
  + intros Hin. apply (Hdisj _ Hin). left.
Qed.

Lemma lookup_pad max_length path t :
path ≠ [] → length path ≤ max_length → t < max_length →
pad max_length path !! t = Some (pos path t).
Proof.
intros Hne Hlen Ht. unfold pad, pos.
destruct (decide (t < length path)) as [Hlt|Hge].
- rewrite lookup_app_l by done.
  destruct (lookup_lt_is_Some_2 path t Hlt) as [c Hc]. by rewrite Hc.
- rewrite lookup_app_r by lia. rewrite lookup_replicate_2 by lia.
  by rewrite (proj2 (lookup_ge_None path t)) by lia.
Qed.

Lemma length_pad max_length path :
length path ≤ max_length → length (pad max_length path) = max_length.
Proof. intros H. unfold pad. rewrite length_app, length_replicate. lia. Qed.

Lemma length_le_horizon solutions k path :
(k, path) ∈ solutions → length path ≤ horizon solutions.
Proof.
intros Hin. apply max_list_elem_of_le, list_elem_of_fmap. by exists (k, path).
Qed.

(** The [positions] dictionary at time [t] lists the agents in the order of
    [solutions], each at its padded position. *)
Lemma positions_at_pad max_length items t acc :
NoDup (acc.*1 ++ items.*1) →
Forall (λ kp, kp.2 ≠ [] ∧ length kp.2 ≤ max_length) items → t < max_length →
foldl (λ positions '(agent_id, path),
         match path !! t with
         | Some c => dict_set positions agent_id c
         | None => positions
         end) acc ((λ kp, (kp.1, pad max_length kp.2)) <$> items)
= acc ++ ((λ kp, (kp.1, pos kp.2 t)) <$> items).
Proof.
intros Hnd Hall Ht. revert acc Hnd.
induction Hall as [|[k p] items [Hp Hlen] _ IH]; intros acc Hnd; simpl in *.
- by rewrite app_nil_r.
- rewrite lookup_pad by done.
  apply NoDup_app in Hnd as (Hacc & Hdisj & [Hk Hitems]%NoDup_cons).
  rewrite dict_set_fresh.
  + rewrite IH; [by rewrite <- app_assoc|].
    rewrite fmap_app. simpl. rewrite <- app_assoc. simpl.
    apply NoDup_app. split_and!; [done| |by constructor].
    intros k' Hk'. by apply Hdisj.
  + intros Hin. apply (Hdisj _ Hin). left.
Qed.

Lemma prev_pos_pad max_length solutions a path t c :
NoDup solutions.*1 → (a, path) ∈ solutions →
path ≠ [] → length path ≤ max_length → 0 < t ≤ max_length →
prev_pos ((λ kp, (kp.1, pad max_length kp.2)) <$> solutions) a t c
= pos path (t - 1).
Proof.
intros Hnd Hin Hne Hlen Ht. unfold prev_pos.
rewrite (dict_get_elem_of _ a (pad max_length path)).
- rewrite lookup_pad by (done || lia). done.
- by rewrite <- list_fmap_compose.
- apply list_elem_of_fmap. by exists (a, path).
Qed.

Lemma vertex_scan_pair_scan t items :
vertex_scan t ((λ kp, (kp.1, pos kp.2 t)) <$> items)
= pair_scan (vertex_test t) items.
Proof.
induction items as [|[k p] items IH]; simpl; [done|].
f_equal; [|exact IH]. clear IH.
induction items as [|[k' p'] items IH]; simpl; [done|].
unfold vertex_test in *. simpl in *.
case_bool_decide; [f_equal|]; exact IH.
Qed.

Lemma edge_scan_pair_scan max_length solutions t items :
NoDup solutions.*1 →
Forall (λ kp, kp.2 ≠ [] ∧ length kp.2 ≤ max_length) solutions →
0 < t ≤ max_length → items ⊆ solutions →
edge_scan ((λ kp, (kp.1, pad max_length kp.2)) <$> solutions) t
  ((λ kp, (kp.1, pos kp.2 t)) <$> items)
= pair_scan (edge_test t) items.
Proof.
intros Hnd Hall Ht. rewrite Forall_forall in Hall.
induction items as [|[k p] items IH]; intros Hsub; [done|].
cbn [fmap list_fmap edge_scan pair_scan].
f_equal; [|apply IH; set_solver].
assert (Hkp : (k, p) ∈ solutions) by set_solver.
rewrite (prev_pos_pad max_length solutions k p) by (done || by apply (Hall (k, p))).
assert (Hitems : items ⊆ solutions) by set_solver. clear IH Hsub.
apply list_omap_ext, Forall2_fmap_l, Forall_Forall2_diag, Forall_forall.
intros [k' p'] Hin. unfold compose. cbn beta iota delta [fst snd].
assert (Hkp' : (k', p') ∈ solutions) by set_solver.
rewrite (prev_pos_pad max_length solutions k' p')
  by (done || by apply (Hall (k', p'))).
done.
Qed.

(** On a dictionary of non-empty paths the scan raises no exception and
    returns, time after time, the vertex conflicts and then the swaps of
    every entry with each later one. *)
Lemma find_conflicts_scan solutions :
solutions ≠ [] → NoDup solutions.*1 → Forall (λ kp, kp.2 ≠ []) solutions →
_find_conflicts solutions
= Ok (mjoin (scan_at solutions <$> seq 0 (horizon solutions))).
Proof.
intros Hne Hnd Hall. unfold _find_conflicts, max_length_of.
destruct solutions as [|kp0 sols0] eqn:Es; [done|]. rewrite <- Es in *.
fold (horizon solutions). cbn [mbind Result_bind].
rewrite extend_paths_pad by done. cbn [mbind Result_bind app].
f_equal. f_equal. apply list_fmap_ext. intros i t [Hi Ht]%lookup_seq.
simpl in Hi. subst i.
assert (Hall' : Forall (λ kp, kp.2 ≠ [] ∧ length kp.2 ≤ horizon solutions) solutions).
{ rewrite Forall_forall in *. intros [k p] Hin. split; [by apply Hall|].
  by eapply length_le_horizon. }
unfold conflicts_at, scan_at, positions_at.
rewrite (positions_at_pad _ _ _ []) by done. simpl.
rewrite vertex_scan_pair_scan. f_equal. case_bool_decide; [|done].
apply edge_scan_pair_scan; [done..|lia|done].
Qed.
End find_conflicts_facts.

Section pair_scan_sorted.
Context {X C : Type} (f : X → X → option C) (R : relation C) (key : X → nat).
Context (Hsame : ∀ x y y' c c',
  f x y = Some c → f x y' = Some c' → key y < key y' → R c c').
Context (Hlater : ∀ x y x' y' c c',
  f x y = Some c → f x' y' = Some c' → key x < key x' → R c c').

Lemma omap_sorted (x : X) (items : list X) :
StronglySorted lt (key <$> items) → StronglySorted R (omap (f x) items).
Proof.
induction items as [|y items IH]; [constructor|].
rewrite fmap_cons. intros [Hy Hs]%StronglySorted_cons. specialize (IH Hs).
cbn [omap list_omap]. destruct (f x y) as [c|] eqn:E; [|done].
constructor; [done|]. apply Forall_forall. intros c' (y' & Hy' & E')%list_elem_of_omap.
eapply Hsame; [done..|]. rewrite Forall_forall in Hy. apply Hy.
by apply list_elem_of_fmap_2.
Qed.

Lemma pair_scan_sorted (items : list X) :
StronglySorted lt (key <$> items) → StronglySorted R (pair_scan f items).
Proof.
induction items as [|x items IH]; [constructor|].
rewrite fmap_cons. intros [Hx Hs]%StronglySorted_cons. cbn [pair_scan].
apply StronglySorted_app_2; [|by apply omap_sorted|by apply IH].
intros c c' (y & Hy & E)%list_elem_of_omap (x' & y' & Hsub & E')%elem_of_pair_scan.
eapply Hlater; [done..|]. rewrite Forall_forall in Hx. apply Hx.
apply list_elem_of_fmap_2. by apply sublist_pair_elem_of in Hsub as [? _].
Qed.
End pair_scan_sorted.

Section conflicts_order.
Implicit Types (solutions : Solutions) (c : Conflict) (t : nat).

Lemma vertex_test_Some t x y c :
vertex_test t x y = Some c ↔
  pos x.2 t = pos y.2 t ∧ c = mkConflict x.1 y.1 (pos x.2 t) (Z.of_nat t) vertex.
Proof. unfold vertex_test. case_bool_decide; naive_solver. Qed.

Lemma edge_test_Some t x y c :
edge_test t x y = Some c ↔
  (pos x.2 (t - 1) = pos y.2 t ∧ pos y.2 (t - 1) = pos x.2 t)
  ∧ c = mkConflict x.1 y.1 (pos x.2 t) (Z.of_nat t) edge.
Proof. unfold edge_test. case_bool_decide; naive_solver. Qed.

Lemma elem_of_scan_at solutions t c :
c ∈ scan_at solutions t ↔
  (∃ x y, [x; y] `sublist_of` solutions ∧ vertex_test t x y = Some c)
  ∨ (0 < t ∧ ∃ x y, [x; y] `sublist_of` solutions ∧ edge_test t x y = Some c).
Proof.
unfold scan_at. rewrite elem_of_app, elem_of_pair_scan.
case_bool_decide; [rewrite elem_of_pair_scan|rewrite elem_of_nil]; naive_solver.
Qed.

Lemma scan_at_time solutions t c : c ∈ scan_at solutions t → time c = Z.of_nat t.
Proof.
rewrite elem_of_scan_at.
intros [(x & y & _ & [_ ->]%vertex_test_Some)|(_ & x & y & _ & [_ ->]%edge_test_Some)];
  done.
Qed.

(** The scan records exactly the conflicts of the joint plan. *)
Lemma elem_of_scan solutions c :
c ∈ mjoin (scan_at solutions <$> seq 0 (horizon solutions)) ↔ recorded solutions c.
Proof.
rewrite list_elem_of_join. unfold recorded. split.
- intros (l & Hc & (t & -> & [_ Ht]%elem_of_seq)%list_elem_of_fmap).
  exists t. split; [by eapply scan_at_time|]. simpl in Ht.
  apply elem_of_scan_at in Hc
    as [([a pa] & [b pb] & Hsub & [Heq ->]%vertex_test_Some)
       |(Hpos & [a pa] & [b pb] & Hsub & [[H1 H2] ->]%edge_test_Some)]; simpl in *.
  + exists pa, pb. by split_and!.
  + exists pa, pb. split_and!; [done|lia|done..].
- intros (t & Htime & Hc). destruct c as [a b cell tc ty]. simpl in *. subst tc.
  destruct ty.
  + destruct Hc as (pa & pb & Hsub & Ht & Ha & Hb).
    exists (scan_at solutions t). split.
    * apply elem_of_scan_at. left. exists (a, pa), (b, pb). split; [done|].
      apply vertex_test_Some. simpl. subst cell. done.
    * apply list_elem_of_fmap. exists t. split; [done|]. apply elem_of_seq. lia.
  + destruct Hc as (pa & pb & Hsub & Ht & H1 & H2 & Ha).
    exists (scan_at solutions t). split.
    * apply elem_of_scan_at. right. split; [lia|]. exists (a, pa), (b, pb).
      split; [done|]. apply edge_test_Some. simpl. subst cell. done.
    * apply list_elem_of_fmap. exists t. split; [done|]. apply elem_of_seq. lia.
Qed.

Lemma scan_at_sorted solutions t :
StronglySorted lt solutions.*1 → StronglySorted conflict_lt (scan_at solutions t).
Proof.
intros Hs. unfold scan_at. apply StronglySorted_app_2.
- intros c c' (x & y & _ & [_ ->]%vertex_test_Some)%elem_of_pair_scan Hc'.
  case_bool_decide; [|by apply elem_of_nil in Hc'].
  apply elem_of_pair_scan in Hc' as (x' & y' & _ & [_ ->]%edge_test_Some).
  unfold conflict_lt, conflict_key, key_lt. simpl. lia.
- apply (pair_scan_sorted _ _ fst); [| |done].
  + intros x y y' c c' [_ ->]%vertex_test_Some [_ ->]%vertex_test_Some Hlt.
    unfold conflict_lt, conflict_key, key_lt. simpl. lia.
  + intros x y x' y' c c' [_ ->]%vertex_test_Some [_ ->]%vertex_test_Some Hlt.
    unfold conflict_lt, conflict_key, key_lt. simpl. lia.
- case_bool_decide; [|constructor].
  apply (pair_scan_sorted _ _ fst); [| |done].
  + intros x y y' c c' [_ ->]%edge_test_Some [_ ->]%edge_test_Some Hlt.
    unfold conflict_lt, conflict_key, key_lt. simpl. lia.
  + intros x y x' y' c c' [_ ->]%edge_test_Some [_ ->]%edge_test_Some Hlt.
    unfold conflict_lt, conflict_key, key_lt. simpl. lia.
Qed.

Lemma scan_sorted solutions (t n : nat) :
StronglySorted lt solutions.*1 →
StronglySorted conflict_lt (mjoin (scan_at solutions <$> seq t n)).
Proof.
intros Hs. revert t. induction n as [|n IH]; intros t; simpl; [constructor|].
apply StronglySorted_app_2; [|by apply scan_at_sorted|apply IH].
intros c c' Hc%scan_at_time
  (l & Hc' & (t' & -> & [Ht' _]%elem_of_seq)%list_elem_of_fmap)%list_elem_of_join.
apply scan_at_time in Hc'.
unfold conflict_lt, conflict_key, key_lt. destruct c, c'. simpl in *. lia.
Qed.

Lemma key_lt_le_trans_eq k1 k2 : key_lt k1 k2 → key_le k1 k2.
Proof. by right. Qed.
End conflicts_order.

(** ** Invariants of the high-level search *)
Section cbs_facts.
Context (env : GridEnvironment) (config : Config).
Implicit Types (solutions : Solutions) (keys : list nat).

Lemma ensures_ret {A} (a : A) (Q : A → Prop) : Q a → ensures (mret a) Q.
Proof. intros Ha agents a' agents' [= <- _]. done. Qed.

Lemma ensures_lift {A} (r : Result A) (Q : A → Prop) :
(∀ a, r = Ok a → Q a) → ensures (lift r) Q.
Proof. intros Hr agents a agents' [= -> _]. by apply Hr. Qed.

Lemma ensures_bind {A B} (m : M A) (f : A → M B) (P : A → Prop) (Q : B → Prop) :
ensures m P → (∀ a, P a → ensures (f a) Q) → ensures (m ≫= f) Q.
Proof.
intros Hm Hf agents b agents'. unfold mbind, M_bind.
destruct (m agents) as [[a|e] agents1] eqn:E; [|done].
intros Hb. eapply Hf; [|done]. by eapply Hm.
Qed.

Lemma dict_set_NoDup {V} (d : list (nat * V)) k v :
NoDup d.*1 → NoDup (dict_set d k v).*1.
Proof.
intros Hnd. rewrite dict_set_keys. case_decide; [done|].
apply NoDup_app. split_and!; [done| |apply NoDup_singleton].
intros k' Hk' Hk%list_elem_of_singleton. by subst.
Qed.

Lemma initial_loop_plan constraints agents solutions :
NoDup solutions.*1 → Forall (λ kp, kp.2 ≠ []) solutions →
let root := (initial_loop env config constraints agents solutions).1 in
NoDup root.*1 ∧ Forall (λ kp, kp.2 ≠ []) root
∧ ∀ k, k ∈ root.*1 ↔
    k ∈ solutions.*1
    ∨ ∃ agent, agent ∈ agents ∧ a_id agent = k
               ∧ low_level env config (a_id agent) constraints
                   (a_start agent) (a_goal agent) ≠ [].
Proof.
revert solutions. induction agents as [|agent agents IH]; intros solutions Hnd Hne; simpl.
- split_and!; [done..|]. intros k. split; [by left|].
  intros [?|(agent & Hin & _)]; [done|by apply elem_of_nil in Hin].
- destruct (low_level _ _ _ _ _ _) as [|c path] eqn:E.
  + specialize (IH solutions Hnd Hne).
    destruct (initial_loop _ _ _ _ _) as [root rest]. simpl in *.
    destruct IH as (? & ? & IH). split_and!; [done..|]. intros k. rewrite IH.
    split; (intros [?|(agent' & Hin & Hk & Hf)]; [by left|right]).
    * exists agent'. split; [by right|done].
    * apply elem_of_cons in Hin as [->|Hin]; [by rewrite E in Hf|eauto].
  + specialize (IH (dict_set solutions (a_id agent) (c :: path))).
    destruct (initial_loop _ _ _ _ _) as [root rest]. simpl in *.
    destruct IH as (? & ? & IH);
      [by apply dict_set_NoDup|by apply (dict_set_values (λ p, p ≠ []))|].
    split_and!; [done..|]. intros k. rewrite IH, dict_set_keys.
    split.
    * intros [Hk|(agent' & Hin & Hk & Hf)].
      -- case_decide; [by left|].
         apply elem_of_app in Hk as [?|Hk%list_elem_of_singleton]; [by left|].
         right. exists agent. split_and!; [left|done|by rewrite E].
      -- right. exists agent'. split; [by right|done].
    * intros [Hk|(agent' & Hin & Hk & Hf)].
      -- left. case_decide; [done|]. apply elem_of_app. by left.
      -- apply elem_of_cons in Hin as [->|Hin]; [|right; eauto].
         left. subst k. case_decide; [done|]. apply elem_of_app. right. left.
Qed.

Lemma replan_agent_plan keys agent_id constraints solutions :
plan_ok keys solutions → agent_id ∈ keys →
ensures (_replan_agent env config agent_id constraints solutions) (plan_ok keys).
Proof.
intros [Hk Hne] Hin agents sols agents'. unfold _replan_agent.
destruct (agents !! agent_id) as [agent|]; [|done].
destruct (low_level _ _ _ _ _ _) as [|c path]; intros [= <- _]; [done|].
split; [|by apply (dict_set_values (λ p, p ≠ []))].
rewrite dict_set_keys_present; by rewrite Hk.
Qed.

Lemma find_conflicts_Ok_nonempty solutions l :
_find_conflicts solutions = Ok l → solutions ≠ [].
Proof. by intros H ->. Qed.

(** The conflicts of a node are recorded conflicts of its joint plan. *)
Lemma node_conflict_recorded keys node c :
NoDup keys → node_ok keys node → c ∈ conflicts node → recorded (solutions node) c.
Proof.
intros Hnd [[Hk Hne] Hc] Hin. apply elem_of_scan.
pose proof (find_conflicts_Ok_nonempty _ _ Hc) as Hnil.
rewrite find_conflicts_scan in Hc by (done || by rewrite Hk).
by injection Hc as ->.
Qed.

Lemma recorded_agents solutions c :
recorded solutions c → agent1 c ∈ solutions.*1 ∧ agent2 c ∈ solutions.*1.
Proof.
intros (t & _ & Hc).
assert (∃ pa pb, [(agent1 c, pa); (agent2 c, pb)] `sublist_of` solutions)
  as (pa & pb & [Ha Hb]%sublist_pair_elem_of).
{ destruct (conflict_type c); destruct Hc as (pa & pb & Hsub & _); eauto. }
split; [apply (list_elem_of_fmap_2 fst) in Ha|apply (list_elem_of_fmap_2 fst) in Hb];
  done.
Qed.

Lemma expand_ok keys current_node conflict agent_id open_list :
NoDup keys → node_ok keys current_node → agent_id ∈ keys →
Forall (node_ok keys) open_list →
ensures (expand env config current_node conflict agent_id open_list)
  (λ r, match r with
        | inl result => result_ok keys result
        | inr open_list' => Forall (node_ok keys) open_list' ∧ open_list' ≠ []
        end).
Proof.
intros Hnd [Hplan Hc] Hin Hopen. unfold expand.
eapply ensures_bind; [by apply replan_agent_plan|].
intros sols Hsols.
apply (ensures_bind _ _ (λ cs, _find_conflicts sols = Ok cs)); [by apply ensures_lift|].
simpl. intros [|c cs] Hcs; apply ensures_ret; [done|]. split.
- by apply heappush_Forall.
- intros Hnil. pose proof (heappush_length CBSNode_lt open_list
    (mkCBSNode (new_constraints current_node conflict agent_id) sols
       (_calculate_solution_cost sols) (c :: cs))) as Hlen.
  by rewrite Hnil in Hlen.
Qed.

Lemma after_loop_ok keys open_list :
Forall (node_ok keys) open_list → open_list ≠ [] →
result_ok keys (after_loop open_list).
Proof.
intros Hopen Hne. unfold after_loop.
destruct (heapq.heappop CBSNode_lt open_list) as [[best rest]|] eqn:E.
- apply (heappop_Forall _ _ _ _ _ Hopen) in E as [[Hb _] _]. done.
- by apply heappop_None in E.
Qed.

Lemma search_loop_ok keys n open_list :
NoDup keys → Forall (node_ok keys) open_list → open_list ≠ [] →
ensures (search_loop env config n open_list) (result_ok keys).
Proof.
intros Hnd. revert open_list. induction n as [|n IH]; intros open_list Hopen Hne; simpl.
- by apply ensures_ret, after_loop_ok.
- destruct (heapq.heappop CBSNode_lt open_list) as [[current rest]|] eqn:E;
    [|by apply ensures_ret, after_loop_ok].
  apply (heappop_Forall _ _ _ _ _ Hopen) in E as [Hcur Hrest].
  destruct (conflicts current) as [|conflict others] eqn:Ec.
  { apply ensures_ret. destruct Hcur as [? Hc]. simpl. by rewrite <- Ec. }
  assert (agent1 conflict ∈ keys ∧ agent2 conflict ∈ keys) as [H1 H2].
  { destruct (recorded_agents (solutions current) conflict) as [H1 H2].
    - eapply node_conflict_recorded; [done..|]. rewrite Ec. left.
    - destruct Hcur as [[<- _] _]. done. }
  eapply ensures_bind; [by apply expand_ok|].
  intros [result|open1]; [by apply ensures_ret|]. intros [Hopen1 _].
  eapply ensures_bind; [by apply expand_ok|].
  intros [result|open2]; [by apply ensures_ret|]. intros [Hopen2 Hne2].
  by apply IH.
Qed.

(** Whatever joint plan the search returns is a plan for exactly the agents of
    the root's plan, and the final [return {}] is never reached. *)
Lemma CBS_search_ok agents r agents' :
CBS_search env config agents = (Ok r, agents') →
let root := (initial_loop env config ConstraintsSet_init agents []).1 in
NoDup root.*1 ∧ result_ok root.*1 r.
Proof.
intros Hr root.
destruct (initial_loop_plan ConstraintsSet_init agents []) as (Hnd & Hne & _);
  [constructor..|]. fold root in Hnd, Hne. split; [done|].
revert Hr. unfold CBS_search, _find_initial_solutions.
unfold mbind at 1, M_bind at 1. fold root.
destruct (initial_loop _ _ _ _ _) as [root' agents1] eqn:E. simpl in root.
subst root. intros Hr.
eapply (ensures_bind _ _ (λ cs, _find_conflicts root' = Ok cs)); [| |exact Hr].
- by apply ensures_lift.
- intros cs Hcs. apply search_loop_ok; [done| |].
  + apply heappush_Forall; [constructor|]. done.
  + intros Hnil. pose proof (heappush_length CBSNode_lt []
      (mkCBSNode ConstraintsSet_init root' (_calculate_solution_cost root') cs)) as Hlen.
    by rewrite Hnil in Hlen.
Qed.
End cbs_facts.

(** ** The joint plan of a successful search *)
Section validity.
Implicit Types (solutions : Solutions) (path : list Cell) (t : nat).

Lemma pos_at_rest path t :
path ≠ [] → length path - 1 ≤ t → pos path t = default (0, 0)%Z (last path).
Proof.
intros Hne Ht. unfold pos.
destruct (decide (t < length path)) as [Hlt|Hge].
- replace t with (pred (length path)) by lia. rewrite <- last_lookup.
  by destruct (last path).
- by rewrite (proj2 (lookup_ge_None path t)) by lia.
Qed.

Lemma pos_clamp path n t :
path ≠ [] → length path ≤ n → pos path t = pos path (t `min` (n - 1)).
Proof.
intros Hne Hlen. destruct (decide (t ≤ n - 1)) as [Hle|Hgt].
- by rewrite Nat.min_l.
- rewrite Nat.min_r by lia. rewrite !pos_at_rest by (done || lia). done.
Qed.

(** Without a recorded conflict, two agents of the joint plan never share a
    cell and never exchange cells, at any time. *)
Lemma ordered_pair_conflict_free solutions a pa b pb t :
Forall (λ kp, kp.2 ≠ []) solutions → (∀ c, ¬ recorded solutions c) →
[(a, pa); (b, pb)] `sublist_of` solutions →
pos pa t ≠ pos pb t ∧ ¬ (pos pa t = pos pb (S t) ∧ pos pb t = pos pa (S t)).
Proof.
intros Hne Hfree Hsub. rewrite Forall_forall in Hne.
destruct (sublist_pair_elem_of _ _ _ Hsub) as [Ha Hb].
pose proof (Hne _ Ha) as Hpa. pose proof (Hne _ Hb) as Hpb. simpl in *.
pose proof (length_le_horizon _ _ _ Ha) as Hla.
pose proof (length_le_horizon _ _ _ Hb) as Hlb.
assert (0 < horizon solutions) as Hpos by (destruct pa; simpl in *; [done|lia]).
assert (Hvertex : ∀ t', pos pa t' ≠ pos pb t').
{ intros t' Heq.
  rewrite (pos_clamp pa (horizon solutions)), (pos_clamp pb (horizon solutions))
    in Heq by done.
  apply (Hfree (mkConflict a b (pos pa (t' `min` (horizon solutions - 1)))
                  (Z.of_nat (t' `min` (horizon solutions - 1))) vertex)).
  eexists. split; [done|]. exists pa, pb. simpl. split_and!; [done|lia|done..]. }
split; [apply Hvertex|]. intros [H1 H2].
destruct (decide (S t < horizon solutions)) as [Hlt|Hge].
- apply (Hfree (mkConflict a b (pos pa (S t)) (Z.of_nat (S t)) edge)).
  eexists. split; [done|]. exists pa, pb. simpl.
  replace (t - 0) with t by lia. split_and!; [done|lia|lia|done..].
- apply (Hvertex t). rewrite H1.
  rewrite !(pos_at_rest pb) by (done || lia). done.
Qed.

Lemma plan_conflict_free solutions a pa b pb t :
NoDup solutions.*1 → Forall (λ kp, kp.2 ≠ []) solutions →
(∀ c, ¬ recorded solutions c) →
a ≠ b → dict_get solutions a = Some pa → dict_get solutions b = Some pb →
pos pa t ≠ pos pb t ∧ ¬ (pos pa t = pos pb (S t) ∧ pos pb t = pos pa (S t)).
Proof.
intros Hnd Hne Hfree Hab Ha%dict_get_Some Hb%dict_get_Some.
destruct (elem_of_pair_sublist (a, pa) (b, pb) solutions) as [Hsub|Hsub];
  [by eapply NoDup_fmap_1|done..|congruence| |].
- by eapply ordered_pair_conflict_free.
- destruct (ordered_pair_conflict_free solutions b pb a pa t) as [H1 H2]; [done..|].
  split; [congruence|]. intros [H3 H4]. apply H2. done.
Qed.

Context (env : GridEnvironment) (config : Config).

(** C1: when [CBS.search] returns through one of its two [return]s for a
    node without conflicts, any two distinct agents of the returned joint
    plan are, at every time [t] of the padded plan and ever after, on
    different cells, and do not exchange their cells between [t] and
    [t + 1]. *)
Theorem solved_plan_is_conflict_free (agents : list Agent) (solutions : Solutions)
    (agents' : list Agent) :
CBS_search env config agents = (Ok (Solved solutions), agents') →
∀ a b pa pb, a ≠ b →
  dict_get solutions a = Some pa → dict_get solutions b = Some pb →
  ∀ t, pos pa t ≠ pos pb t
       ∧ ¬ (pos pa t = pos pb (S t) ∧ pos pb t = pos pa (S t)).
Proof.
intros Hr a b pa pb Hab Ha Hb t.
apply CBS_search_ok in Hr as (Hnd & [Hk Hne] & Hc).
pose proof (find_conflicts_Ok_nonempty _ _ Hc) as Hnil.
rewrite <- Hk in Hnd. rewrite find_conflicts_scan in Hc by done.
injection Hc as Hc.
eapply plan_conflict_free; [done..| |done|done|done].
intros c Hrec%elem_of_scan. rewrite Hc in Hrec. by apply elem_of_nil in Hrec.
Qed.

(** C6, as the code has it: an agent without a plan at the root is left out
    and the search goes on. A search that ends without an exception returns a
    joint plan, never the empty dictionary of its last line, and the agents
    of that plan are exactly the agents that are feasible at the root. *)
Theorem search_plans_the_root_feasible_agents (agents : list Agent)
    (r : SearchResult) (agents' : list Agent) :
CBS_search env config agents = (Ok r, agents') →
r ≠ NoNode
∧ ∀ k, k ∈ (returned r).*1 ↔
    ∃ agent, agent ∈ agents ∧ a_id agent = k ∧ root_feasible env config agent.
Proof.
intros Hr. apply CBS_search_ok in Hr as (_ & Hr).
destruct (initial_loop_plan env config ConstraintsSet_init agents [])
  as (_ & _ & Hkeys); [constructor..|].
assert (Hroot : ∀ k, k ∈ ((initial_loop env config ConstraintsSet_init agents []).1).*1 ↔
  ∃ agent, agent ∈ agents ∧ a_id agent = k ∧ root_feasible env config agent).
{ intros k. rewrite Hkeys. split; [|by right].
  intros [Hin|?]; [by apply elem_of_nil in Hin|done]. }
destruct r as [sols|sols|]; simpl in *; [| |done].
- destruct Hr as [[-> _] _]. done.
- destruct Hr as [-> _]. done.
Qed.
End validity.

Section validity_examples.
Local Open Scope Z_scope.

Lemma solved_plan_is_conflict_free_witness :
pos pinch_plan_0 1 ≠ pos pinch_plan_1 1
∧ ¬ (pos pinch_plan_0 1 = pos pinch_plan_1 2
     ∧ pos pinch_plan_1 1 = pos pinch_plan_0 2).
Proof.
apply (solved_plan_is_conflict_free pinch_grid small_config pinch_agents
         [(0%nat, pinch_plan_0); (1%nat, pinch_plan_1)]
         [mkAgent 0 (0, 1) (2, 1) pinch_plan_0 3; mkAgent 1 (1, 0) (1, 2) pinch_plan_1 2]
         ltac:(vm_compute; reflexivity) 0%nat 1%nat pinch_plan_0 pinch_plan_1);
  [lia|reflexivity|reflexivity].
Defined.

Lemma search_plans_the_root_feasible_agents_witness :
Solved [(0%nat, [(0, 0); (0, 1)])] ≠ NoNode
∧ ∀ k, k ∈ [0%nat] ↔
    ∃ agent, agent ∈ wall_agents ∧ a_id agent = k
             ∧ root_feasible wall_grid small_config agent.
Proof.
apply (search_plans_the_root_feasible_agents wall_grid small_config wall_agents
         (Solved [(0%nat, [(0, 0); (0, 1)])])
         [mkAgent 0 (0, 0) (0, 1) [(0, 0); (0, 1)] 1; Agent_init 1 (0, 3) (0, 0)]).
vm_compute. reflexivity.
Defined.

(** C6, as stated, fails: agent 1 behind the wall has no plan at the root,
    and the search returns the plan of agent 0 alone. *)
Lemma search_omits_infeasible_agent :
low_level wall_grid small_config 1 ConstraintsSet_init (0, 3) (0, 0) = []
∧ (CBS_search wall_grid small_config wall_agents).1
  = Ok (Solved [(0%nat, [(0, 0); (0, 1)])]).
Proof. split; vm_compute; reflexivity. Qed.
End validity_examples.

(** ** The conflict the search splits on *)
Section first_conflict.
Implicit Types (solutions : Solutions) (c : Conflict).

(** For a joint plan that lists its agents by increasing identifier, the
    first entry of the scan is a recorded conflict and the least one in the
    order [(t, type_order, a, b)], vertex before edge, where a swap between
    [t - 1] and [t] counts as an edge conflict at time [t] with the cell the
    first agent arrives on, whether or not the agents move. *)
Lemma scan_head_is_least solutions c (rest : list Conflict) :
StronglySorted lt solutions.*1 → Forall (λ kp, kp.2 ≠ []) solutions →
_find_conflicts solutions = Ok (c :: rest) →
recorded solutions c
∧ ∀ c', recorded solutions c' → key_le (conflict_key c) (conflict_key c').
Proof.
intros Hs Hne Hc.
assert (Hnd : NoDup solutions.*1).
{ clear -Hs. induction Hs as [|k ks _ IH Hk]; constructor; [|done].
  rewrite Forall_forall in Hk. intros Hin%Hk. lia. }
pose proof (find_conflicts_Ok_nonempty _ _ Hc) as Hnil.
rewrite find_conflicts_scan in Hc by done. injection Hc as Hc.
pose proof (scan_sorted solutions 0 (horizon solutions) Hs) as Hsorted.
rewrite Hc in Hsorted. apply StronglySorted_cons in Hsorted as [Hleast _].
split.
- apply elem_of_scan. rewrite Hc. left.
- intros c' Hc'%elem_of_scan. rewrite Hc in Hc'.
  apply elem_of_cons in Hc' as [->|Hin]; [by left|]. right.
  rewrite Forall_forall in Hleast. by apply Hleast.
Qed.
End first_conflict.

Section first_conflict_examples.
Local Open Scope Z_scope.

(** C4, as stated, fails: the two agents of the head-on scenario exchange
    their cells between times 0 and 1, and the conflict the root is split on
    is that edge conflict recorded with time 1, not 0. *)
Lemma swap_is_recorded_at_arrival :
pos [(0, 0); (0, 1)] 0 = pos [(0, 1); (0, 0)] 1
∧ pos [(0, 1); (0, 0)] 0 = pos [(0, 0); (0, 1)] 1
∧ ∃ c, _find_conflicts swap_solutions = Ok [c]
       ∧ conflict_type c = edge ∧ time c = 1 ∧ time c ≠ 1 - 1.
Proof.
split; [reflexivity|]. split; [reflexivity|].
exists swap_conflict. split; [vm_compute; reflexivity|]. by repeat split.
Qed.
End first_conflict_examples.

(** ** Invariants of the low-level search *)
Section astar_facts.
Local Open Scope Z_scope.
Context (env : GridEnvironment) (agent_id : nat) (constraints : ConstraintsSet).
Context (start goal : Cell) (max_time : Z).

Local Abbreviation inv := (astar_inv env agent_id constraints start goal max_time).
Local Abbreviation node_inv' := (node_inv env agent_id constraints max_time).
Local Abbreviation visit' := (visit agent_id constraints goal).
Local Abbreviation permitted' := (permitted agent_id constraints).
Local Abbreviation step' := (step env agent_id constraints goal max_time).
Local Abbreviation run' := (run env agent_id constraints goal max_time).
Local Abbreviation init' := (init start goal).
Local Abbreviation new_node' := (new_node goal).

Lemma get_neighbors_elem_of (x y t nx ny nt : Z) :
(nx, ny, nt) ∈ get_neighbors env (x, y, t) →
nt = t + 1 ∧ 0 ≤ nx < height env ∧ 0 ≤ ny < width env
∧ grid_at env nx ny = Some 0 ∧ (nx - x, ny - y) ∈ MOVES.
Proof.
unfold get_neighbors. intros ([dx dy] & Hin & Hf)%list_elem_of_omap.
repeat case_bool_decide; [|done..]. injection Hf as <- <- <-.
split_and!; [done|lia..|done|]. by replace (x + dx - x) with dx by lia;
  replace (y + dy - y) with dy by lia.
Qed.

Lemma node_inv_app nodes l i node : node_inv' nodes i node → node_inv' (nodes ++ l) i node.
Proof.
intros (Hg & Ht & Hxy & Hc & p & parent & Hp & Hlt & Hlook & Htp).
unfold node_inv. split_and!; try (done || lia).
exists p, parent. split_and!; [done..| |done]. by apply lookup_app_l_Some.
Qed.

Lemma inv_node_time s i node :
inv s → nodes s !! i = Some node → n_g node = n_t node ∧ 0 ≤ n_t node.
Proof.
intros Hinv Hi. destruct i as [|i].
- rewrite (inv_start _ _ _ _ _ _ _ Hinv) in Hi. by injection Hi as <-.
- destruct (inv_node _ _ _ _ _ _ _ Hinv (S i) node Hi) as (? & ? & _); lia.
Qed.

(** Appending a freshly constructed node, and possibly entering it in
    [node_dict], keeps the invariant. *)
Lemma inv_alloc s s' node :
inv s →
nodes s' = nodes s ++ [node] →
node_inv' (nodes s) (length (nodes s)) node →
(∀ k i, node_dict s' !! k = Some i →
   node_dict s !! k = Some i ∨ (i = length (nodes s) ∧ k = state_of node)) →
reopened s' = reopened s →
inv s'.
Proof.
intros [Hstart Hnode Hdict Hre] Hnodes Hnew Hd Hr. split.
- rewrite Hnodes. by apply lookup_app_l_Some.
- intros i nd. rewrite Hnodes.
  intros [[Hlt Hi]|[-> ->]]%lookup_snoc_Some Hpos; apply node_inv_app; [by apply Hnode|done].
- intros k i [Hk|[-> ->]]%Hd; rewrite Hnodes.
  + destruct (Hdict k i Hk) as (nd & Hi & Hs). exists nd. split; [|done].
    by apply lookup_app_l_Some.
  + exists node. split; [|done]. apply lookup_snoc_Some. by right.
- congruence.
Qed.

Lemma new_node_inv s cur_id current_node nx ny nt :
inv s → nodes s !! cur_id = Some current_node → n_t current_node < max_time →
(nx, ny, nt) ∈ get_neighbors env (state_of current_node) →
permitted' current_node (nx, ny, nt) = true →
node_inv' (nodes s) (length (nodes s)) (new_node' cur_id current_node (nx, ny, nt)).
Proof.
intros Hinv Hcur Hlt (-> & Hx & Hy & _)%get_neighbors_elem_of Hperm.
destruct (inv_node_time s cur_id current_node Hinv Hcur) as [Hg Ht].
unfold node_inv. simpl. split_and!; try lia.
- unfold permitted in Hperm. apply andb_true_iff in Hperm as [H _].
  by apply negb_true_iff in H.
- exists cur_id, current_node. split_and!; [done| |done..].
  by apply lookup_lt_Some in Hcur.
Qed.

(** One iteration of the loop over the neighbours: the new node is appended
    to the store exactly when the step is permitted, the re-opening branch is
    not entered, and the invariant is kept. *)
Lemma visit_spec s cur_id current_node nb :
inv s → nodes s !! cur_id = Some current_node → n_t current_node < max_time →
nb ∈ get_neighbors env (state_of current_node) →
inv (visit' cur_id s nb)
∧ nodes (visit' cur_id s nb)
  = nodes s ++ (if permitted' current_node nb then [new_node' cur_id current_node nb] else [])
∧ potential_le s (visit' cur_id s nb).
Proof.
intros Hinv Hcur Hlt Hnb. unfold visit. rewrite Hcur.
destruct (permitted' current_node nb) eqn:Hperm;
  [|by rewrite app_nil_r; split_and!; [done..|unfold potential_le; lia]].
destruct nb as [[nx ny] nt].
pose proof (new_node_inv s cur_id current_node nx ny nt Hinv Hcur Hlt Hnb Hperm) as Hnew.
set (nd := SippNode_init nx ny nt (n_g current_node + 1)
             (get_manhattan_distance (nx, ny) goal) (Some cur_id)) in *.
case_bool_decide as Hclosed.
{ split_and!; [|done|unfold potential_le; simpl; lia].
  eapply (inv_alloc s _ nd); [done..| |done]. intros; by left. }
destruct (node_dict s !! (nx, ny, nt)) as [e_id|] eqn:Hd.
- destruct (inv_dict _ _ _ _ _ _ _ Hinv _ _ Hd) as (existing & He & Hk).
  rewrite (lookup_app_l_Some _ _ _ _ He).
  destruct (inv_node_time s e_id existing Hinv He) as [Hge _].
  destruct (inv_node_time s cur_id current_node Hinv Hcur) as [Hgc _].
  apply get_neighbors_elem_of in Hnb as (Hnt & _).
  injection Hk as _ _ Hte.
  rewrite bool_decide_false by (simpl; lia).
  split_and!; [|done|unfold potential_le; simpl; lia].
  eapply (inv_alloc s _ nd); [done..| |done]. intros; by left.
- split_and!; [|done|].
  + eapply (inv_alloc s _ nd); [done..| |done]. simpl. intros k i.
    rewrite lookup_insert. case_decide as Hk; [|by left].
    intros [= <-]. right. by subst k.
  + unfold potential_le. simpl. rewrite heappush_length.
    rewrite map_size_insert_None by done. lia.
Qed.

Lemma visit_all_spec s cur_id current_node (nbs : list State) :
inv s → nodes s !! cur_id = Some current_node → n_t current_node < max_time →
nbs ⊆ get_neighbors env (state_of current_node) →
inv (foldl (visit' cur_id) s nbs)
∧ nodes (foldl (visit' cur_id) s nbs)
  = nodes s ++ (new_node' cur_id current_node
                  <$> filter (λ nb, permitted' current_node nb) nbs)
∧ potential_le s (foldl (visit' cur_id) s nbs).
Proof.
intros Hinv Hcur Hlt. revert s Hinv Hcur.
induction nbs as [|nb nbs IH]; intros s Hinv Hcur Hsub; simpl.
- rewrite app_nil_r. split_and!; [done..|unfold potential_le; lia].
- destruct (visit_spec s cur_id current_node nb) as (Hinv1 & Hn1 & Hp1);
    [done..|set_solver|].
  destruct (IH (visit' cur_id s nb)) as (Hinv2 & Hn2 & Hp2);
    [done|rewrite Hn1; by apply lookup_app_l_Some|set_solver|].
  split_and!; [done| |unfold potential_le in *; lia].
  rewrite Hn2, Hn1, <- app_assoc. f_equal.
  rewrite filter_cons. destruct (permitted' current_node nb) eqn:Hperm.
  + by rewrite decide_True by done.
  + by rewrite decide_False by (by intros []).
Qed.

Lemma inv_set_open_closed s open_list' closed_set' :
inv s → inv (mkSearchState open_list' closed_set' (node_dict s) (nodes s) (reopened s)).
Proof. intros [? ? ? ?]. by split. Qed.

Lemma inv_init : inv init'.
Proof.
split; simpl.
- done.
- intros [|i] node Hi Hpos; [lia|done].
- intros k i [<- <-]%lookup_singleton_Some. by exists (start_node start goal).
- done.
Qed.

(** One iteration of the [while] loop keeps the invariant; if the loop goes
    on, the potential has grown, and if it returns, it returns nothing or the
    chain of a node on the goal. *)
Lemma step_spec s :
inv s →
match step' s with
| Running s' =>
    inv s'
    ∧ (2 * size (node_dict s) + length (open_list s') + 1
       ≤ 2 * size (node_dict s') + length (open_list s))%nat
| Returned path s' => inv s' ∧ path_of_goal_node goal s' path
end.
Proof.
intros Hinv. unfold step.
destruct (heapq.heappop _ _) as [[cur_id open']|] eqn:Hpop; [|by split; [|left]].
apply heappop_length in Hpop. cbn [nodes].
destruct (nodes s !! cur_id) as [current_node|] eqn:Hcur;
  [|by split; [apply inv_set_open_closed|left]].
case_bool_decide as Hgoal.
{ split; [by apply inv_set_open_closed|]. right. by exists cur_id, current_node. }
case_bool_decide as Htime.
{ split; [by apply inv_set_open_closed|]. simpl. lia. }
cbn [open_list closed_set node_dict nodes reopened].
match goal with |- context [foldl _ ?s1 _] => set (s1' := s1) end.
destruct (visit_all_spec s1' cur_id current_node
            (get_neighbors env (n_x current_node, n_y current_node, n_t current_node)))
  as (Hinv' & _ & Hpot); [by apply inv_set_open_closed|done|lia|done|].
split; [done|]. unfold potential_le in Hpot. subst s1'.
cbn [node_dict open_list] in Hpot. lia.
Qed.

Lemma run_spec n s :
inv s →
inv (final_state (run' n s))
∧ ∀ path s', run' n s = Returned path s' → path_of_goal_node goal s' path.
Proof.
revert s. induction n as [|n IH]; intros s Hinv; simpl; [done|].
pose proof (step_spec s Hinv) as Hstep.
destruct (step' s) as [s1|path s1].
- apply IH, Hstep.
- destruct Hstep as [? ?]. split; [done|]. by intros ? ? [= <- <-].
Qed.

(** The chain of parents of a node leads back to the start node, one node
    for each timestep, and [fuel] iterations are enough once [fuel] exceeds
    the position of the node in the store. *)
Lemma parent_chain_spec s fuel i node :
inv s → nodes s !! i = Some node → (i < fuel)%nat →
∃ rest, parent_chain fuel (nodes s) (Some i) = (n_x node, n_y node) :: rest
        ∧ last ((n_x node, n_y node) :: rest) = Some start
        ∧ Z.of_nat (length rest) = n_t node.
Proof.
intros Hinv. revert i node.
induction fuel as [|fuel IH]; intros i node Hi Hlt; [lia|].
cbn [parent_chain]. rewrite Hi. destruct i as [|i].
- rewrite (inv_start _ _ _ _ _ _ _ Hinv) in Hi. injection Hi as <-. simpl.
  exists []. split_and!; [by destruct fuel|by destruct start|done].
- destruct (inv_node _ _ _ _ _ _ _ Hinv (S i) node Hi)
    as (_ & _ & _ & _ & p & parent & Hp & Hpi & Hlook & Ht); [lia|].
  rewrite Hp. destruct (IH p parent Hlook) as (rest & Hchain & Hlast & Hlen); [lia|].
  rewrite Hchain. eexists. split_and!; [done|done|].
  simpl length. lia.
Qed.

(** A returned path leads from the start to the goal, and the time at which
    it arrives, when it is not 0, is not forbidden on the goal. *)
Lemma path_of_goal_node_spec s path :
inv s → path_of_goal_node goal s path → path ≠ [] →
head path = Some start ∧ last path = Some goal
∧ ((1 < length path)%nat →
   is_constrained constraints agent_id goal (Z.of_nat (length path) - 1) = false).
Proof.
intros Hinv [->|(cur_id & current_node & Hcur & Hgoal & ->)] Hne; [done|].
unfold _reconstruct_path.
destruct (parent_chain_spec s (length (nodes s)) cur_id current_node)
  as (rest & -> & Hlast & Hlen); [done..|by eapply lookup_lt_Some|].
rewrite head_reverse, last_reverse, length_reverse.
split_and!; [done|simpl; by rewrite Hgoal|].
simpl length. intros Hlong. destruct cur_id as [|cur_id].
- rewrite (inv_start _ _ _ _ _ _ _ Hinv) in Hcur. injection Hcur as <-.
  simpl in Hlen. lia.
- destruct (inv_node _ _ _ _ _ _ _ Hinv (S cur_id) current_node Hcur)
    as (_ & _ & _ & Hc & _); [lia|].
  rewrite Hgoal in Hc. by replace (Z.of_nat (S (length rest)) - 1) with (n_t current_node) by lia.
Qed.

Lemma size_list_to_set_le (l : list State) :
(size (list_to_set l : gset State) ≤ length l)%nat.
Proof.
induction l as [|k l IH]; [done|].
cbn [list_to_set length]. rewrite size_union_alt, size_singleton.
pose proof (subseteq_size (list_to_set l ∖ {[k]}) (list_to_set l : gset State)) as H.
assert (list_to_set l ∖ {[k]} ⊆ (list_to_set l : gset State)) as Hsub by set_solver.
specialize (H Hsub). lia.
Qed.

(** [node_dict] only ever holds the start state and states inside the grid
    at times from 1 to [max_time]. *)
Lemma dict_size_bound s : inv s → (size (node_dict s) ≤ dict_bound env max_time)%nat.
Proof.
intros Hinv. rewrite <- (size_dom (D:=gset State)).
transitivity (size (reachable_keys env start max_time)).
- apply subseteq_size. intros k [i Hk]%elem_of_dom.
  destruct (inv_dict _ _ _ _ _ _ _ Hinv k i Hk) as (node & Hi & <-).
  unfold reachable_keys. destruct i as [|i].
  + rewrite (inv_start _ _ _ _ _ _ _ Hinv) in Hi. injection Hi as <-.
    apply elem_of_union. left. by apply elem_of_singleton.
  + destruct (inv_node _ _ _ _ _ _ _ Hinv (S i) node Hi)
      as (_ & Ht & [Hx Hy] & _); [lia|].
    apply elem_of_union. right. apply elem_of_list_to_set.
    unfold state_of. rewrite !list_elem_of_cprod. simpl.
    rewrite !elem_of_seqZ. lia.
- unfold reachable_keys, dict_bound. rewrite size_union_alt, size_singleton.
  match goal with |- context [size (?X ∖ ?Y)] =>
    pose proof (subseteq_size (X ∖ Y) X) as H;
    assert (X ∖ Y ⊆ X) as Hsub by set_solver
  end.
  specialize (H Hsub).
  match type of H with (_ ≤ size (list_to_set ?l))%nat =>
    pose proof (size_list_to_set_le l) as Hl;
    assert (length l
            = (Z.to_nat (height env) * Z.to_nat (width env) * Z.to_nat max_time)%nat)
      as Hlen by (by rewrite !list_cprod_list_prod, !length_prod, !length_seqZ)
  end.
  lia.
Qed.

(** The loop returns once the number of iterations exceeds what the
    potential leaves. *)
Lemma run_returns n s :
inv s →
(2 * dict_bound env max_time + length (open_list s) < n + 2 * size (node_dict s))%nat →
∃ path s', run' n s = Returned path s'.
Proof.
revert s. induction n as [|n IH]; intros s Hinv Hn.
- pose proof (dict_size_bound s Hinv). lia.
- simpl. pose proof (step_spec s Hinv) as Hstep.
  destruct (step' s) as [s1|path s1]; [|by eauto].
  destruct Hstep as [Hinv1 Hpot]. apply IH; [done|]. lia.
Qed.

(** The search always returns: [search_fuel] iterations of the loop are
    enough on every input. *)
Lemma search_returns :
∃ s, run' (search_fuel env max_time) init'
     = Returned (search env agent_id constraints start goal max_time) s.
Proof.
destruct (run_returns (search_fuel env max_time) init') as (path & s & Hrun).
- apply inv_init.
- unfold search_fuel, dict_bound, init. cbn [open_list node_dict].
  rewrite map_size_singleton, heappush_length. simpl length. lia.
- exists s. unfold search. by rewrite Hrun.
Qed.

(** C9: in every state the search passes through, and in the one it returns
    from, every node constructed so far has [g = t]; two nodes for the same
    state [(x, y, t)] therefore have the same [g], and the branch
    [if new_node.g < existing_node.g] has never been entered. *)
Theorem nodes_have_g_equal_t (n : nat) :
let s := final_state (run' n init') in
Forall (λ node, n_g node = n_t node) (nodes s)
∧ (∀ node node', node ∈ nodes s → node' ∈ nodes s →
     state_of node = state_of node' → n_g node = n_g node')
∧ reopened s = 0%nat.
Proof.
intros s. destruct (run_spec n init' inv_init) as [Hinv _]. fold s in Hinv.
assert (Hg : ∀ node, node ∈ nodes s → n_g node = n_t node).
{ intros node [i Hi]%list_elem_of_lookup. by eapply inv_node_time. }
split_and!.
- by apply Forall_forall.
- intros node node' Hn Hn' [= _ _ Ht]. rewrite !Hg by done. done.
- by destruct Hinv.
Qed.

(** C5, as the code has it. When the node popped in a state of the search is
    not on the goal, the loop goes on, and a node is constructed for the step
    to [(cell', t')] exactly when [t'] is the next time and within
    [max_time], [cell'] is a neighbour in the grid (the cell itself
    included), no vertex constraint forbids [cell'] at [t'], and no edge
    constraint forbids the move from the cell to [cell'] at the time of
    departure. *)
Theorem transition_is_expanded_iff (n : nat) (s : SearchState) (cur_id : nat)
    (open_list' : list nat) (current_node : SippNode) :
run' n init' = Running s →
heapq.heappop (node_lt (nodes s)) (open_list s) = Some (cur_id, open_list') →
nodes s !! cur_id = Some current_node →
(n_x current_node, n_y current_node) ≠ goal →
∃ s', step' s = Running s'
  ∧ ∀ (cell' : Cell) (t' : Z),
      (cell', t') ∈ state_of <$> created s s' ↔
        t' = n_t current_node + 1 ∧ t' ≤ max_time
        ∧ (cell', t') ∈ get_neighbors env (state_of current_node)
        ∧ VertexConstraint agent_id cell' t' ∉ vertex_constraints constraints
        ∧ EdgeConstraint agent_id (n_x current_node, n_y current_node) cell'
            (n_t current_node) ∉ edge_constraints constraints.
Proof.
intros Hrun Hpop Hcur Hgoal.
destruct (run_spec n init' inv_init) as [Hinv _]. rewrite Hrun in Hinv. simpl in Hinv.
unfold step. rewrite Hpop. cbn [nodes]. rewrite Hcur.
rewrite bool_decide_false by done. case_bool_decide as Htime.
- eexists. split; [done|]. intros cell' t'. unfold created. cbn [nodes].
  rewrite drop_all. split; [by intros ?%elem_of_nil|lia].
- cbn [open_list closed_set node_dict nodes reopened].
  match goal with |- context [foldl _ ?s1 _] => set (s1' := s1) end.
  destruct (visit_all_spec s1' cur_id current_node
              (get_neighbors env (n_x current_node, n_y current_node, n_t current_node)))
    as (_ & Hnodes & _); [by apply inv_set_open_closed|done|lia|done|].
  eexists. split; [done|]. intros cell' t'. unfold created. rewrite Hnodes.
  subst s1'. cbn [nodes]. rewrite drop_app_length, <- list_fmap_compose.
  rewrite list_elem_of_fmap. split.
  + intros ([[nx ny] nt] & Heq & [Hperm Hnb]%list_elem_of_filter).
    unfold compose, new_node, state_of in Heq. simpl in Heq.
    injection Heq as -> ->.
    pose proof (get_neighbors_elem_of _ _ _ _ _ _ Hnb) as (Hnt & _).
    unfold permitted, is_constrained, is_edge_constrained in Hperm.
    apply Is_true_true, andb_true_iff in Hperm as [Hv He].
    apply negb_true_iff, bool_decide_eq_false in Hv.
    apply negb_true_iff, bool_decide_eq_false in He.
    split_and!; [done|lia|done..].
  + intros (Ht' & _ & Hnb & Hv & He). destruct cell' as [nx ny].
    exists (nx, ny, t'). split; [done|]. apply list_elem_of_filter. split; [|done].
    unfold permitted, is_constrained, is_edge_constrained.
    apply Is_true_true, andb_true_iff.
    split; apply negb_true_iff, bool_decide_eq_false; done.
Qed.

(** C3, as the code has it. The node popped in a state of the search is
    accepted as the goal exactly when it is on the goal cell; the constraints
    are not looked at. The plan then returned leads from the start to the
    goal and arrives at the time [t] of that node, and a vertex constraint on
    the goal matters only at the time [t] itself. *)
Theorem goal_test_is_the_goal_cell (n : nat) (s : SearchState) (cur_id : nat)
    (open_list' : list nat) (current_node : SippNode) :
run' n init' = Running s →
heapq.heappop (node_lt (nodes s)) (open_list s) = Some (cur_id, open_list') →
nodes s !! cur_id = Some current_node →
((n_x current_node, n_y current_node) = goal ↔ ∃ path s', step' s = Returned path s')
∧ ∀ path s', step' s = Returned path s' →
    head path = Some start ∧ last path = Some goal
    ∧ Z.of_nat (length path) - 1 = n_t current_node
    ∧ (1 ≤ n_t current_node →
       VertexConstraint agent_id goal (n_t current_node)
       ∉ vertex_constraints constraints).
Proof.
intros Hrun Hpop Hcur.
destruct (run_spec n init' inv_init) as [Hinv _]. rewrite Hrun in Hinv. simpl in Hinv.
unfold step. rewrite Hpop. cbn [nodes]. rewrite Hcur.
case_bool_decide as Hgoal.
- split; [split; [by eauto|done]|]. intros path s' [= <- <-].
  unfold _reconstruct_path. cbn [nodes].
  destruct (parent_chain_spec s (length (nodes s)) cur_id current_node)
    as (rest & -> & Hlast & Hlen); [done..|by eapply lookup_lt_Some|].
  rewrite head_reverse, last_reverse, length_reverse.
  split_and!; [done|simpl; by rewrite Hgoal|simpl length; lia|].
  intros Ht. destruct cur_id as [|cur_id].
  + rewrite (inv_start _ _ _ _ _ _ _ Hinv) in Hcur. injection Hcur as <-.
    simpl in Ht. lia.
  + destruct (inv_node _ _ _ _ _ _ _ Hinv (S cur_id) current_node Hcur)
      as (_ & _ & _ & Hc & _); [lia|].
    rewrite Hgoal in Hc. by apply bool_decide_eq_false in Hc.
- split.
  + split; [done|]. intros (path & s' & Hret). by case_bool_decide.
  + intros path s' Hret. by case_bool_decide.
Qed.

(** What [search] returns, if not the empty list, is a path from the start to
    the goal. *)
Lemma search_ends_on_goal :
let path := search env agent_id constraints start goal max_time in
path ≠ [] →
head path = Some start ∧ last path = Some goal
∧ ((1 < length path)%nat →
   is_constrained constraints agent_id goal (Z.of_nat (length path) - 1) = false).
Proof.
intros path Hne. destruct search_returns as [s Hrun]. fold path in Hrun.
destruct (run_spec (search_fuel env max_time) init' inv_init) as [Hinv Hpath].
rewrite Hrun in Hinv. by eapply path_of_goal_node_spec; [|apply Hpath|].
Qed.
End astar_facts.

Section astar_examples.
Local Open Scope Z_scope.

Example search_corridor :
search (GridEnvironment_init [[0; 0; 0; 0; 0]]) 0 ConstraintsSet_init (0, 0) (0, 4) 10
= [(0, 0); (0, 1); (0, 2); (0, 3); (0, 4)].
Proof. vm_compute. reflexivity. Qed.

Lemma transition_is_expanded_iff_witness :
∃ s', step swap_grid 0 ConstraintsSet_init (0, 1) 10 (init (0, 0) (0, 1)) = Running s'
  ∧ ∀ (cell' : Cell) (t' : Z),
      (cell', t') ∈ state_of <$> created (init (0, 0) (0, 1)) s' ↔
        t' = n_t (start_node (0, 0) (0, 1)) + 1 ∧ t' ≤ 10
        ∧ (cell', t') ∈ get_neighbors swap_grid (state_of (start_node (0, 0) (0, 1)))
        ∧ VertexConstraint 0 cell' t' ∉ vertex_constraints ConstraintsSet_init
        ∧ EdgeConstraint 0
            (n_x (start_node (0, 0) (0, 1)), n_y (start_node (0, 0) (0, 1))) cell'
            (n_t (start_node (0, 0) (0, 1))) ∉ edge_constraints ConstraintsSet_init.
Proof.
apply (transition_is_expanded_iff swap_grid 0 ConstraintsSet_init (0, 0) (0, 1) 10
         0 (init (0, 0) (0, 1)) 0 [] (start_node (0, 0) (0, 1))).
- reflexivity.
- vm_compute. reflexivity.
- reflexivity.
- vm_compute. discriminate.
Defined.

(** C5, as stated, fails in both directions. With an edge constraint on the
    move [(0, 0) → (0, 1)] carrying the arrival time 1, the step taken at
    time 0 is permitted and the search takes it; with the same constraint
    carrying the departure time 0, the step is refused although no
    constraint mentions time 1, and the agent waits one step. *)
Lemma edge_constraint_is_tested_at_departure :
(EdgeConstraint 0 (0, 0) (0, 1) 1 ∈ edge_constraints edge_at_arrival
 ∧ permitted 0 edge_at_arrival (start_node (0, 0) (0, 1)) (0, 1, 1) = true
 ∧ search swap_grid 0 edge_at_arrival (0, 0) (0, 1) 10 = [(0, 0); (0, 1)])
∧ (EdgeConstraint 0 (0, 0) (0, 1) 1 ∉ edge_constraints edge_at_departure
   ∧ VertexConstraint 0 (0, 1) 1 ∉ vertex_constraints edge_at_departure
   ∧ permitted 0 edge_at_departure (start_node (0, 0) (0, 1)) (0, 1, 1) = false
   ∧ search swap_grid 0 edge_at_departure (0, 0) (0, 1) 10
     = [(0, 0); (0, 0); (0, 1)]).
Proof.
split; split_and!; try (vm_compute; reflexivity); compute_done.
Qed.

Lemma goal_test_is_the_goal_cell_witness :
((n_x (start_node (0, 0) (0, 0)), n_y (start_node (0, 0) (0, 0))) = (0, 0) ↔
   ∃ path s', step swap_grid 0 goal_forbidden_later (0, 0) 10 (init (0, 0) (0, 0))
              = Returned path s')
∧ ∀ path s',
    step swap_grid 0 goal_forbidden_later (0, 0) 10 (init (0, 0) (0, 0))
    = Returned path s' →
    head path = Some (0, 0) ∧ last path = Some (0, 0)
    ∧ Z.of_nat (length path) - 1 = n_t (start_node (0, 0) (0, 0))
    ∧ (1 ≤ n_t (start_node (0, 0) (0, 0)) →
       VertexConstraint 0 (0, 0) (n_t (start_node (0, 0) (0, 0)))
       ∉ vertex_constraints goal_forbidden_later).
Proof.
apply (goal_test_is_the_goal_cell swap_grid 0 goal_forbidden_later (0, 0) (0, 0) 10
         0 (init (0, 0) (0, 0)) 0 [] (start_node (0, 0) (0, 0))).
- reflexivity.
- vm_compute. reflexivity.
- reflexivity.
Defined.

(** C3, as stated, fails: the only vertex constraint on the goal [(0, 1)] of
    agent 0 is at time 3, so [T_forbid] is 3, and the plan returned arrives
    on the goal at time 1 and ends there. *)
Lemma plan_arrives_before_goal_constraint :
(∀ t, VertexConstraint 0 (0, 1) t ∈ vertex_constraints goal_forbidden_later ↔ t = 3)
∧ search swap_grid 0 goal_forbidden_later (0, 0) (0, 1) 10 = [(0, 0); (0, 1)]
∧ Z.of_nat (length (search swap_grid 0 goal_forbidden_later (0, 0) (0, 1) 10)) - 1 < 3.
Proof.
split_and!.
- intros t. unfold goal_forbidden_later, add_vertex_constraint, VertexConstraint.
  simpl. rewrite elem_of_union, elem_of_singleton. split.
  + intros [Hin|[= ->]]; [by apply elem_of_empty in Hin|done].
  + intros ->. by right.
- vm_compute. reflexivity.
- vm_compute. reflexivity.
Qed.
End astar_examples.

Section budget_examples.
Local Open Scope Z_scope.

(** The joint plan returned after the loop, when the iterations are used up,
    is the plan of the cheapest open node and keeps its conflicts: for the
    two agents facing each other on the 1 x 2 grid it is the root's plan,
    in which they exchange their cells. *)
Lemma best_node_plan_may_conflict :
(CBS_search swap_grid small_config swap_agents).1 = Ok (BestNode swap_solutions)
∧ _find_conflicts swap_solutions = Ok [swap_conflict].
Proof. split; vm_compute; reflexivity. Qed.
End budget_examples.

(** ** The collision check agrees with the conflict scan *)
Section check_collisions_facts.
Implicit Types (solutions : Solutions) (t : nat).

Lemma length_omap_same_guard {X C D} (f : X → option C) (g : X → option D)
    (l : list X) :
(∀ x, is_Some (f x) ↔ is_Some (g x)) → length (omap f l) = length (omap g l).
Proof.
intros Hfg. induction l as [|x l IH]; [done|]. cbn [omap list_omap].
destruct (f x) as [c|] eqn:Ef, (g x) as [d|] eqn:Eg; simpl; [by rewrite IH| | |done].
- assert (is_Some (g x)) as [d Hd] by (apply Hfg; eauto). congruence.
- assert (is_Some (f x)) as [c Hc] by (apply Hfg; eauto). congruence.
Qed.

Lemma vertex_collisions_length t (items : list (nat * Cell)) :
length (vertex_collisions t items) = length (vertex_scan t items).
Proof.
induction items as [|[a p] items IH]; [done|].
cbn [vertex_collisions vertex_scan]. rewrite !length_app, IH. f_equal.
apply length_omap_same_guard. intros [a' p']. by case_bool_decide.
Qed.

Lemma edge_collisions_length (extended_paths : Solutions) t
    (items : list (nat * Cell)) :
length (edge_collisions extended_paths t items)
= length (edge_scan extended_paths t items).
Proof.
induction items as [|[a p] items IH]; [done|].
cbn [edge_collisions edge_scan]. rewrite !length_app, IH. f_equal.
apply length_omap_same_guard. intros [a' p']. simpl. by case_bool_decide.
Qed.

Lemma collisions_at_length (extended_paths : Solutions) t :
length (collisions_at extended_paths t) = length (conflicts_at extended_paths t).
Proof.
unfold collisions_at, conflicts_at.
rewrite !length_app, vertex_collisions_length. f_equal.
case_bool_decide; [apply edge_collisions_length|done].
Qed.

(** On a joint plan with at least one agent the collision check raises what
    the conflict scan raises, and otherwise reports as many collisions as
    the scan finds conflicts. *)
Lemma check_collisions_length solutions :
solutions ≠ [] →
length <$> check_collisions solutions = length <$> _find_conflicts solutions.
Proof.
intros Hne. unfold check_collisions, _find_conflicts.
destruct solutions as [|kp sols] eqn:E; [done|]. rewrite <- E. clear E Hne.
destruct (max_length_of solutions) as [m|e]; [|done]. cbn [mbind Result_bind].
destruct (extend_paths m solutions []) as [ext|e]; [|done].
cbn [mbind Result_bind fmap Result_fmap]. f_equal.
generalize 0. induction m as [|m IH]; intros t0; [done|].
cbn [seq fmap list_fmap mjoin list_join]. rewrite !length_app, collisions_at_length.
f_equal. apply IH.
Qed.

(** The joint plan of a successful search passes the collision check of the
    front end. *)
Lemma solved_plan_passes_check_collisions (env : GridEnvironment) (config : Config)
    (agents : list Agent) solutions (agents' : list Agent) :
CBS_search env config agents = (Ok (Solved solutions), agents') →
check_collisions solutions = Ok [].
Proof.
intros (_ & _ & Hc)%CBS_search_ok.
pose proof (check_collisions_length solutions (find_conflicts_Ok_nonempty _ _ Hc)) as H.
rewrite Hc in H. destruct (check_collisions solutions) as [[|c l]|e]; done.
Qed.
End check_collisions_facts.

(** * Further properties of the code *)

(** ** Constraint sets *)
Section constraints_facts.
Local Open Scope Z_scope.
Implicit Types (cs : ConstraintsSet) (a : nat) (p : Cell) (t : Z).

(** X1: after [add_vertex_constraint], [is_constrained] answers yes for the
    constraint added and otherwise as before, and [is_edge_constrained]
    answers as before. *)
Theorem vertex_constraint_added_then_found cs a p t :
(∀ a' p' t',
   is_constrained (add_vertex_constraint cs (VertexConstraint a p t)) a' p' t' = true
   ↔ (a' = a ∧ p' = p ∧ t' = t) ∨ is_constrained cs a' p' t' = true)
∧ (∀ a' p1 p2 t',
     is_edge_constrained (add_vertex_constraint cs (VertexConstraint a p t)) a' p1 p2 t'
     = is_edge_constrained cs a' p1 p2 t').
Proof.
split; [|done]. intros a' p' t'. unfold is_constrained, add_vertex_constraint. simpl.
rewrite !bool_decide_eq_true, elem_of_union, elem_of_singleton.
unfold VertexConstraint. split.
- intros [?|[= -> -> ->]]; [by right|by left].
- intros [(-> & -> & ->)|?]; [by right|by left].
Qed.

(** X2: after [add_edge_constraint], [is_edge_constrained] answers yes for the
    move added, at its time and in its direction, and otherwise as before: the
    opposite move is forbidden only if it was before, or if the move is a
    wait. [is_constrained] answers as before. *)
Theorem edge_constraint_added_then_found cs a (from_pos to_pos : Cell) t :
(∀ a' p1 p2 t',
   is_edge_constrained
     (add_edge_constraint cs (EdgeConstraint a from_pos to_pos t)) a' p1 p2 t' = true
   ↔ (a' = a ∧ p1 = from_pos ∧ p2 = to_pos ∧ t' = t)
     ∨ is_edge_constrained cs a' p1 p2 t' = true)
∧ (is_edge_constrained
     (add_edge_constraint cs (EdgeConstraint a from_pos to_pos t)) a to_pos from_pos t
   = true
   ↔ from_pos = to_pos ∨ is_edge_constrained cs a to_pos from_pos t = true)
∧ (∀ a' p' t',
     is_constrained (add_edge_constraint cs (EdgeConstraint a from_pos to_pos t)) a' p' t'
     = is_constrained cs a' p' t').
Proof.
assert (H : ∀ a' p1 p2 t',
  is_edge_constrained
    (add_edge_constraint cs (EdgeConstraint a from_pos to_pos t)) a' p1 p2 t' = true
  ↔ (a' = a ∧ p1 = from_pos ∧ p2 = to_pos ∧ t' = t)
    ∨ is_edge_constrained cs a' p1 p2 t' = true).
{ intros a' p1 p2 t'. unfold is_edge_constrained, add_edge_constraint. simpl.
  rewrite !bool_decide_eq_true, elem_of_union, elem_of_singleton.
  unfold EdgeConstraint. split.
  - intros [?|[= -> -> -> ->]]; [by right|by left].
  - intros [(-> & -> & -> & ->)|?]; [by right|by left]. }
split_and!; [done| |done].
rewrite H. split.
- intros [(_ & -> & _)|?]; [by left|by right].
- intros [->|?]; [by left|by right].
Qed.

(** X3: a constraint set is a set: adding a constraint a second time changes
    nothing, and the order in which constraints are added does not matter. *)
Theorem constraints_form_a_set cs (v v' : nat * Cell * Z) (e e' : nat * (Cell * Cell) * Z) :
add_vertex_constraint (add_vertex_constraint cs v) v = add_vertex_constraint cs v
∧ add_edge_constraint (add_edge_constraint cs e) e = add_edge_constraint cs e
∧ add_vertex_constraint (add_vertex_constraint cs v) v'
  = add_vertex_constraint (add_vertex_constraint cs v') v
∧ add_edge_constraint (add_edge_constraint cs e) e'
  = add_edge_constraint (add_edge_constraint cs e') e
∧ add_edge_constraint (add_vertex_constraint cs v) e
  = add_vertex_constraint (add_edge_constraint cs e) v.
Proof.
unfold add_vertex_constraint, add_edge_constraint. simpl.
split_and!; f_equal; set_solver.
Qed.
End constraints_facts.

(** ** The grid *)
Section grid_facts.
Local Open Scope Z_scope.
Implicit Types (env : GridEnvironment).

Lemma length_omap_le {X Y} (f : X → option Y) (l : list X) :
(length (omap f l) ≤ length l)%nat.
Proof.
induction l as [|x l IH]; [done|]. cbn [omap list_omap].
destruct (f x); simpl; lia.
Qed.

Lemma elem_of_MOVES (dx dy : Z) :
(dx, dy) ∈ MOVES ↔
  (dx = 0 ∧ dy = 0) ∨ (dx = -1 ∧ dy = 0) ∨ (dx = 0 ∧ dy = 1)
  ∨ (dx = 1 ∧ dy = 0) ∨ (dx = 0 ∧ dy = -1).
Proof.
unfold MOVES. rewrite !elem_of_cons, elem_of_nil. split.
- intros [[= -> ->]|[[= -> ->]|[[= -> ->]|[[= -> ->]|[[= -> ->]|[]]]]]]; tauto.
- intros [[-> ->]|[[-> ->]|[[-> ->]|[[-> ->]|[-> ->]]]]]; tauto.
Qed.

(** X4: the neighbours of [(x, y, t)] are the states at time [t + 1] one of
    the five moves away whose cell [is_valid_state] accepts; there are at
    most five of them, and waiting in place is one of them exactly when the
    cell itself is valid. *)
Theorem neighbors_are_the_valid_moves env (x y t : Z) :
(∀ nx ny nt,
   (nx, ny, nt) ∈ get_neighbors env (x, y, t)
   ↔ nt = t + 1 ∧ (nx - x, ny - y) ∈ MOVES ∧ is_valid_state env (nx, ny) = true)
∧ ((x, y, t + 1) ∈ get_neighbors env (x, y, t) ↔ is_valid_state env (x, y) = true)
∧ (length (get_neighbors env (x, y, t)) ≤ 5)%nat.
Proof.
assert (H : ∀ nx ny nt,
   (nx, ny, nt) ∈ get_neighbors env (x, y, t)
   ↔ nt = t + 1 ∧ (nx - x, ny - y) ∈ MOVES ∧ is_valid_state env (nx, ny) = true).
{ intros nx ny nt. unfold is_valid_state. rewrite andb_true_iff, !bool_decide_eq_true.
  split.
  - intros (? & ? & ? & ? & ?)%get_neighbors_elem_of. done.
  - intros (-> & Hm & Hb & Hf). unfold get_neighbors. apply list_elem_of_omap.
    exists (nx - x, ny - y). split; [done|]. simpl.
    replace (x + (nx - x)) with nx by lia. replace (y + (ny - y)) with ny by lia.
    by rewrite !bool_decide_true by done. }
split_and!; [done| |].
- rewrite H. replace (x - x) with 0 by lia. replace (y - y) with 0 by lia.
  split; [by intros (_ & _ & ?)|]. intros ?. split_and!; [done| |done].
  apply elem_of_MOVES. tauto.
- unfold get_neighbors. etrans; [apply length_omap_le|done].
Qed.

(** X5: the Manhattan distance is a metric on cells. *)
Theorem manhattan_distance_is_a_metric (a b c : Cell) :
0 ≤ get_manhattan_distance a b
∧ (get_manhattan_distance a b = 0 ↔ a = b)
∧ get_manhattan_distance a b = get_manhattan_distance b a
∧ get_manhattan_distance a c ≤ get_manhattan_distance a b + get_manhattan_distance b c.
Proof.
destruct a as [a1 a2], b as [b1 b2], c as [c1 c2]. unfold get_manhattan_distance. simpl.
split_and!; [lia| |lia|lia].
split; [intros H; f_equal; lia|intros [= -> ->]; lia].
Qed.

(** X6: along a step to a neighbour the Manhattan distance to any cell changes
    by at most one: the heuristic of the search is consistent with its unit
    step cost. *)
Theorem manhattan_distance_is_consistent env (x y t nx ny nt : Z) (goal : Cell) :
(nx, ny, nt) ∈ get_neighbors env (x, y, t) →
Z.abs (get_manhattan_distance (nx, ny) goal - get_manhattan_distance (x, y) goal) ≤ 1.
Proof.
intros (_ & _ & _ & _ & Hm%elem_of_MOVES)%get_neighbors_elem_of.
destruct goal as [g1 g2]. unfold get_manhattan_distance. simpl. lia.
Qed.
End grid_facts.

Section grid_examples.
Local Open Scope Z_scope.

Lemma manhattan_distance_is_consistent_witness :
Z.abs (get_manhattan_distance (0, 1) (0, 0) - get_manhattan_distance (0, 0) (0, 0)) ≤ 1.
Proof.
apply (manhattan_distance_is_consistent swap_grid 0 0 0 0 1 1 (0, 0)).
vm_compute. by right; left.
Defined.
End grid_examples.

(** ** The agent manager and the metrics *)
Section manager_facts.
Local Open Scope Z_scope.
Implicit Types (env : GridEnvironment) (agents : list Agent) (paths : Solutions).

(** X7: [_get_free_cells] lists the valid states of the grid, each of them
    once. *)
Theorem free_cells_are_the_valid_states env :
(∀ c : Cell, c ∈ _get_free_cells env ↔ is_valid_state env c = true)
∧ NoDup (_get_free_cells env).
Proof.
split.
- intros [x y]. unfold _get_free_cells, is_valid_state.
  rewrite andb_true_iff, !bool_decide_eq_true, list_elem_of_bind. split.
  + intros (i & (j & Hc & Hj%elem_of_seqZ)%list_elem_of_bind & Hi%elem_of_seqZ).
    case_bool_decide; [|by apply elem_of_nil in Hc].
    apply list_elem_of_singleton in Hc as [= -> ->]. split; [lia|done].
  + intros [[Hx Hy] Hf]. exists x. split; [|apply elem_of_seqZ; lia].
    apply list_elem_of_bind. exists y. split; [|apply elem_of_seqZ; lia].
    rewrite bool_decide_true by done. left.
- unfold _get_free_cells. apply NoDup_bind; [| |apply NoDup_seqZ].
  + intros i1 i2 [x y] _ _ (j1 & H1 & _)%list_elem_of_bind (j2 & H2 & _)%list_elem_of_bind.
    repeat case_bool_decide; try by apply elem_of_nil in H1.
    * apply list_elem_of_singleton in H1, H2. congruence.
    * by apply elem_of_nil in H2.
  + intros i _. apply NoDup_bind; [| |apply NoDup_seqZ].
    * intros j1 j2 [x y] _ _ H1 H2.
      repeat case_bool_decide; try by apply elem_of_nil in H1.
      -- apply list_elem_of_singleton in H1, H2. congruence.
      -- by apply elem_of_nil in H2.
    * intros j _. case_bool_decide; [apply NoDup_singleton|constructor].
Qed.

(** X8: [get_makespan] answers 0 only for an empty list of agents; when there
    are agents and none of them has a path yet, the [max] over no lengths
    raises [ValueError]. *)
Theorem get_makespan_raises_without_paths agents :
agents ≠ [] → Forall (λ agent, a_path agent = []) agents →
get_makespan agents = Raise ValueError.
Proof.
intros Hne Hall. unfold get_makespan.
assert (Hf : filter (λ agent, a_path agent ≠ []) agents = []).
{ clear Hne. induction Hall as [|a l Ha _ IH]; [done|].
  by rewrite filter_cons_False by (by intros ?). }
rewrite Hf. by destruct agents.
Qed.

Lemma get_agent_paths_fresh agents (acc : Solutions) :
NoDup (acc.*1 ++ (a_id <$> agents)) →
foldl (λ paths agent, dict_set paths (a_id agent) (a_path agent)) acc agents
= acc ++ ((λ agent, (a_id agent, a_path agent)) <$> agents).
Proof.
revert acc. induction agents as [|agent agents IH]; intros acc Hnd; simpl.
- by rewrite app_nil_r.
- apply NoDup_app in Hnd as (Hacc & Hdisj & [Hk Hrest]%NoDup_cons).
  rewrite dict_set_fresh by (intros Hin; apply (Hdisj _ Hin); left).
  rewrite IH; [by rewrite <- app_assoc|].
  rewrite fmap_app. simpl. rewrite <- app_assoc. simpl.
  apply NoDup_app. split_and!; [done| |by constructor].
  intros k Hin. by apply Hdisj.
Qed.

(** X9: for agents with distinct identifiers [get_agent_paths] is the list of
    the agents' identifiers and paths, in the order of the agents; looking an
    agent up in it gives back its path. *)
Theorem agent_paths_of_distinct_agents agents :
NoDup (a_id <$> agents) →
get_agent_paths agents = (λ agent, (a_id agent, a_path agent)) <$> agents
∧ ∀ agent, agent ∈ agents →
    dict_get (get_agent_paths agents) (a_id agent) = Some (a_path agent).
Proof.
intros Hnd.
assert (get_agent_paths agents = (λ agent, (a_id agent, a_path agent)) <$> agents) as ->.
{ unfold get_agent_paths. by rewrite get_agent_paths_fresh. }
split; [done|]. intros agent Hin. apply dict_get_elem_of.
- by rewrite <- list_fmap_compose.
- apply list_elem_of_fmap. by exists agent.
Qed.

Lemma foldl_Zadd_shift (l : list Z) (x : Z) : foldl Z.add x l = x + foldl Z.add 0 l.
Proof.
revert x. induction l as [|y l IH]; intros x; simpl; [lia|].
rewrite (IH (x + y)), (IH (0 + y)). lia.
Qed.

(** X10: on agents holding a joint plan of non-empty paths, with their costs,
    the manager's sum of costs is the sum of costs of the metrics. *)
Theorem sum_of_costs_computations_agree paths :
Forall (λ kp, kp.2 ≠ []) paths →
get_sum_of_costs (agents_of paths) = calculate_sum_of_costs paths.
Proof.
intros Hall. unfold get_sum_of_costs, calculate_sum_of_costs. f_equal.
induction Hall as [|[k p] l Hp _ IH]; [done|].
unfold agents_of in *. cbn [fmap list_fmap].
rewrite filter_cons_True by done. cbn [fmap list_fmap]. by rewrite IH.
Qed.

Lemma foldl_Zmax_ge (l : list Z) (x : Z) : x ≤ foldl Z.max x l.
Proof.
revert x. induction l as [|y l IH]; intros x; simpl; [lia|].
specialize (IH (x `max` y)). lia.
Qed.

Lemma foldl_Zmax_le_sum (l : list Z) (x : Z) :
0 ≤ x → Forall (λ z, 0 ≤ z) l → foldl Z.max x l ≤ foldl Z.add x l.
Proof.
intros Hx Hl. revert x Hx. induction Hl as [|y l Hy _ IH]; intros x Hx; simpl; [lia|].
etrans; [apply (IH (x `max` y)); lia|].
rewrite (foldl_Zadd_shift l (x `max` y)), (foldl_Zadd_shift l (x + y)). lia.
Qed.

(** X11: on a joint plan of non-empty paths the makespan of the metrics is
    defined, is at least 0 and is at most the sum of costs. *)
Theorem makespan_is_at_most_sum_of_costs paths :
paths ≠ [] → Forall (λ kp, kp.2 ≠ []) paths →
∃ m, calculate_makespan paths = Ok m ∧ 0 ≤ m ≤ calculate_sum_of_costs paths.
Proof.
intros Hne Hall. unfold calculate_makespan, calculate_sum_of_costs.
destruct paths as [|[k p] paths]; [done|]. cbn [fmap list_fmap max_Z foldl].
apply Forall_cons in Hall as [Hp Hall]. simpl in Hp.
assert (0 ≤ Z.of_nat (length p) - 1) by (destruct p; simpl in *; [done|lia]).
assert (Forall (λ z, 0 ≤ z) ((λ '(_, path), Z.of_nat (length path) - 1) <$> paths)).
{ apply Forall_fmap. eapply Forall_impl; [done|]. intros [k' p'] Hp'. simpl in *.
  destruct p'; simpl in *; [done|lia]. }
eexists. split; [done|]. split.
- etrans; [|apply foldl_Zmax_ge]. done.
- replace (0 + (Z.of_nat (length p) - 1)) with (Z.of_nat (length p) - 1) by lia.
  by apply foldl_Zmax_le_sum.
Qed.
End manager_facts.

Section manager_examples.
Local Open Scope Z_scope.

Lemma get_makespan_raises_without_paths_witness :
get_makespan swap_agents = Raise ValueError.
Proof.
apply (get_makespan_raises_without_paths swap_agents); [discriminate|].
by repeat constructor.
Defined.

Lemma agent_paths_of_distinct_agents_witness :
get_agent_paths (agents_of swap_solutions)
= (λ agent, (a_id agent, a_path agent)) <$> agents_of swap_solutions
∧ ∀ agent, agent ∈ agents_of swap_solutions →
    dict_get (get_agent_paths (agents_of swap_solutions)) (a_id agent)
    = Some (a_path agent).
Proof.
apply (agent_paths_of_distinct_agents (agents_of swap_solutions)).
vm_compute. repeat constructor; set_solver.
Defined.

Lemma sum_of_costs_computations_agree_witness :
get_sum_of_costs (agents_of swap_solutions) = calculate_sum_of_costs swap_solutions.
Proof.
apply (sum_of_costs_computations_agree swap_solutions). by repeat constructor.
Defined.

Lemma makespan_is_at_most_sum_of_costs_witness :
∃ m, calculate_makespan swap_solutions = Ok m
     ∧ 0 ≤ m ≤ calculate_sum_of_costs swap_solutions.
Proof.
apply (makespan_is_at_most_sum_of_costs swap_solutions); [discriminate|].
by repeat constructor.
Defined.
End manager_examples.

(** ** The conflict scan and the collision check *)
Section scan_facts.
Implicit Types (solutions : Solutions) (c : Conflict).

Lemma sublist_pair_NoDup {X Y} (f : X → Y) (x y : X) (l : list X) :
[x; y] `sublist_of` l → NoDup (f <$> l) → f x ≠ f y.
Proof.
induction l as [|z l IH]; [by intros ?%sublist_nil_r|].
rewrite fmap_cons. intros [H|[-> H]]%sublist_pair_cons [Hz Hnd]%NoDup_cons.
- by apply IH.
- intros Heq. apply Hz. rewrite Heq. by apply list_elem_of_fmap_2.
Qed.

Lemma recorded_agents_differ solutions c :
NoDup solutions.*1 → recorded solutions c → agent1 c ≠ agent2 c.
Proof.
intros Hnd (t & _ & Hc).
assert (∃ pa pb, [(agent1 c, pa); (agent2 c, pb)] `sublist_of` solutions)
  as (pa & pb & Hsub).
{ destruct (conflict_type c); destruct Hc as (pa & pb & Hsub & _); eauto. }
apply (sublist_pair_NoDup fst _ _ _ Hsub Hnd).
Qed.

(** X12: on a joint plan with at least one agent and no empty path the
    conflict scan raises no exception, and what it returns are the
    recorded conflicts of the plan: a pair of agents on one cell at a time
    of the padded plan, or exchanging cells between two consecutive times,
    and nothing else. It never reports an agent against itself. *)
Theorem scan_reports_the_recorded_conflicts solutions :
solutions ≠ [] → NoDup solutions.*1 → Forall (λ kp, kp.2 ≠ []) solutions →
∃ l, _find_conflicts solutions = Ok l
     ∧ (∀ c, c ∈ l ↔ recorded solutions c)
     ∧ (∀ c, c ∈ l → agent1 c ≠ agent2 c).
Proof.
intros Hne Hnd Hall. eexists. split; [by apply find_conflicts_scan|].
split; [apply elem_of_scan|].
intros c Hc%elem_of_scan. by eapply recorded_agents_differ.
Qed.

Lemma extend_paths_raises (max_length : nat) (items acc : Solutions) (k : nat) :
0 < max_length → (k, []) ∈ items →
extend_paths max_length items acc = Raise IndexError.
Proof.
intros Hm. revert acc. induction items as [|[k0 p0] items IH]; intros acc Hin.
- by apply elem_of_nil in Hin.
- cbn [extend_paths]. destruct p0 as [|c0 p0].
  + unfold extend_path. simpl. by rewrite bool_decide_true by done.
  + rewrite extend_path_pad by done. cbn [mbind Result_bind].
    apply IH. by apply elem_of_cons in Hin as [?|?].
Qed.

(** X13: a joint plan that holds an empty path beside a non-empty one makes
    both the conflict scan and the collision check raise [IndexError], the
    padding reading the last cell of the empty path. *)
Theorem scans_raise_on_an_empty_path solutions (k k' : nat) (path : list Cell) :
(k, []) ∈ solutions → (k', path) ∈ solutions → path ≠ [] →
_find_conflicts solutions = Raise IndexError
∧ check_collisions solutions = Raise IndexError.
Proof.
intros Hk Hk' Hne.
assert (0 < max_list (length ∘ snd <$> solutions)) as Hm.
{ pose proof (length_le_horizon _ _ _ Hk') as Hle. unfold horizon in Hle.
  destruct path; simpl in *; [done|lia]. }
unfold _find_conflicts, check_collisions, max_length_of.
destruct solutions as [|kp sols] eqn:E; [by apply elem_of_nil in Hk|].
rewrite <- E in *. cbn [mbind Result_bind].
by rewrite (extend_paths_raises _ _ _ k Hm Hk).
Qed.

(** X14: the collision check of the metrics follows the conflict scan of the
    search: it reports nothing on the empty joint plan, on which the scan
    raises, and on any other joint plan it raises when the scan raises and
    otherwise reports as many collisions as the scan finds conflicts. *)
Theorem collision_check_follows_the_scan solutions :
length <$> check_collisions solutions
= match solutions with
  | [] => Ok 0
  | _ => length <$> _find_conflicts solutions
  end.
Proof.
destruct solutions as [|kp sols] eqn:E; [done|]. rewrite <- E.
apply check_collisions_length. by rewrite E.
Qed.

(** X15: on a joint plan with at least one agent and no empty path, the
    conflict scan returns the empty list exactly when no two distinct agents
    are ever on the same cell or exchange their cells, the plans being padded
    with their last cell for all time. *)
Theorem scan_is_empty_iff_plans_never_collide solutions :
solutions ≠ [] → NoDup solutions.*1 → Forall (λ kp, kp.2 ≠ []) solutions →
_find_conflicts solutions = Ok []
↔ ∀ a b pa pb t, a ≠ b →
    dict_get solutions a = Some pa → dict_get solutions b = Some pb →
    pos pa t ≠ pos pb t ∧ ¬ (pos pa t = pos pb (S t) ∧ pos pb t = pos pa (S t)).
Proof.
intros Hne Hnd Hall. rewrite find_conflicts_scan by done. split.
- intros [= Hl] a b pa pb t Hab Ha Hb. eapply plan_conflict_free; [done..| |done|done|done].
  intros c Hc%elem_of_scan. rewrite Hl in Hc. by apply elem_of_nil in Hc.
- intros Hfree. f_equal.
  destruct (mjoin _) as [|c l] eqn:El; [done|]. exfalso.
  assert (recorded solutions c) as Hrec by (apply elem_of_scan; rewrite El; left).
  pose proof (recorded_agents_differ _ _ Hnd Hrec) as Hab.
  destruct Hrec as (t & _ & Hc). destruct (conflict_type c).
  + destruct Hc as (pa & pb & Hsub & _ & H1 & H2).
    destruct (sublist_pair_elem_of _ _ _ Hsub) as [Ha Hb].
    apply (dict_get_elem_of _ _ _ Hnd) in Ha, Hb.
    destruct (Hfree _ _ _ _ t Hab Ha Hb) as [Hv _]. congruence.
  + destruct Hc as (pa & pb & Hsub & Ht & H1 & H2 & _).
    destruct (sublist_pair_elem_of _ _ _ Hsub) as [Ha Hb].
    apply (dict_get_elem_of _ _ _ Hnd) in Ha, Hb.
    destruct (Hfree _ _ _ _ (t - 1) Hab Ha Hb) as [_ He]. apply He.
    replace (S (t - 1)) with t by lia. done.
Qed.
End scan_facts.

Section scan_examples.
Local Open Scope Z_scope.

Lemma scan_reports_the_recorded_conflicts_witness :
∃ l, _find_conflicts swap_solutions = Ok l
     ∧ (∀ c, c ∈ l ↔ recorded swap_solutions c)
     ∧ (∀ c, c ∈ l → agent1 c ≠ agent2 c).
Proof.
apply (scan_reports_the_recorded_conflicts swap_solutions); [discriminate| |].
- vm_compute. repeat constructor; set_solver.
- by repeat constructor.
Defined.

Lemma scans_raise_on_an_empty_path_witness :
_find_conflicts [(0%nat, []); (1%nat, [(0, 0)])] = Raise IndexError
∧ check_collisions [(0%nat, []); (1%nat, [(0, 0)])] = Raise IndexError.
Proof.
apply (scans_raise_on_an_empty_path [(0%nat, []); (1%nat, [(0, 0)])] 0 1 [(0, 0)]).
- left.
- right. left.
- discriminate.
Defined.

Lemma scan_is_empty_iff_plans_never_collide_witness :
_find_conflicts [(0%nat, pinch_plan_0); (1%nat, pinch_plan_1)] = Ok []
↔ ∀ a b pa pb t, a ≠ b →
    dict_get [(0%nat, pinch_plan_0); (1%nat, pinch_plan_1)] a = Some pa →
    dict_get [(0%nat, pinch_plan_0); (1%nat, pinch_plan_1)] b = Some pb →
    pos pa t ≠ pos pb t ∧ ¬ (pos pa t = pos pb (S t) ∧ pos pb t = pos pa (S t)).
Proof.
apply (scan_is_empty_iff_plans_never_collide
         [(0%nat, pinch_plan_0); (1%nat, pinch_plan_1)]); [discriminate| |].
- vm_compute. repeat constructor; set_solver.
- by repeat constructor.
Defined.
End scan_examples.

(** ** What the low-level search returns *)
Section astar_more.
Local Open Scope Z_scope.
Context (env : GridEnvironment) (agent_id : nat) (constraints : ConstraintsSet).
Context (start goal : Cell) (max_time : Z).

Local Abbreviation inv := (astar_inv env agent_id constraints start goal max_time).
Local Abbreviation step_inv' := (step_inv env agent_id constraints).
Local Abbreviation legal_step' := (legal_step env agent_id constraints).
Local Abbreviation chain_legal' := (chain_legal env agent_id constraints).
Local Abbreviation step' := (step env agent_id constraints goal max_time).
Local Abbreviation run' := (run env agent_id constraints goal max_time).
Local Abbreviation init' := (init start goal).
Local Abbreviation search' := (search env agent_id constraints start goal max_time).

Lemma run_le n m s path s' :
(n ≤ m)%nat → run' n s = Returned path s' → run' m s = Returned path s'.
Proof.
revert m s. induction n as [|n IH]; intros m s Hle; [done|].
destruct m as [|m]; [lia|]. simpl. destruct (step' s); [|done].
apply IH. lia.
Qed.

(** X16: the loop of the search ends on every input, within [search_fuel]
    iterations; more iterations change nothing. *)
Theorem search_loop_terminates (n : nat) :
(search_fuel env max_time ≤ n)%nat →
∃ s, run' n init' = Returned search' s.
Proof.
intros Hn. destruct (search_returns env agent_id constraints start goal max_time)
  as [s Hs]. exists s. by eapply run_le.
Qed.

Lemma step_inv_init : step_inv' init'.
Proof. intros [|i] node p parent Hi Hp Hpar; [by injection Hi as <-|done]. Qed.

Lemma new_node_legal cur_id current_node (nb : State) :
nb ∈ get_neighbors env (state_of current_node) →
permitted agent_id constraints current_node nb = true →
legal_step' (n_t current_node) (n_x current_node, n_y current_node)
  (n_x (new_node goal cur_id current_node nb), n_y (new_node goal cur_id current_node nb)).
Proof.
destruct nb as [[nx ny] nt]. intros Hnb Hperm.
pose proof (get_neighbors_elem_of _ _ _ _ _ _ _ Hnb) as (-> & Hx & Hy & Hf & Hm).
unfold permitted in Hperm. apply andb_true_iff in Hperm as [Hv He].
apply negb_true_iff in Hv, He. unfold legal_step, is_valid_state. simpl.
split_and!; [done| |done|done].
rewrite andb_true_iff, !bool_decide_eq_true. done.
Qed.

Lemma step_inv_step s :
inv s → step_inv' s → step_inv' (final_state (step' s)).
Proof.
intros Hinv Hstep. unfold step.
destruct (heapq.heappop _ _) as [[cur_id open']|] eqn:Hpop; [|done].
cbn [nodes]. destruct (nodes s !! cur_id) as [current_node|] eqn:Hcur; [|done].
case_bool_decide as Hgoal; [done|]. case_bool_decide as Htime; [done|].
cbn [open_list closed_set node_dict nodes reopened final_state].
match goal with |- context [foldl _ ?s1 _] => set (s1' := s1) end.
destruct (visit_all_spec env agent_id constraints start goal max_time
            s1' cur_id current_node
            (get_neighbors env (n_x current_node, n_y current_node, n_t current_node)))
  as (Hinv' & Hnodes & _); [by apply inv_set_open_closed|done|lia|done|].
subst s1'. cbn [nodes] in Hnodes.
intros i node p parent. rewrite Hnodes.
assert (Hold : ∀ j nd, nodes s !! j = Some nd → ∀ q, n_parent nd = Some q →
                 (q < length (nodes s))%nat).
{ intros j nd Hj q Hq. destruct j as [|j].
  - rewrite (inv_start _ _ _ _ _ _ _ Hinv) in Hj. by injection Hj as <-.
  - destruct (inv_node _ _ _ _ _ _ _ Hinv (S j) nd Hj)
      as (_ & _ & _ & _ & q' & par & Hq' & _ & Hlook & _); [lia|].
    rewrite Hq in Hq'. injection Hq' as <-. by eapply lookup_lt_Some. }
intros Hi Hp Hpar. apply lookup_app_Some in Hi as [Hi|[Hlen Hi]].
- rewrite lookup_app_l in Hpar by by eapply Hold. by eapply Hstep.
- apply list_lookup_fmap_Some in Hi
    as (nb & -> & [Hperm Hnb]%list_elem_of_lookup_2%list_elem_of_filter).
  assert (p = cur_id) as -> by (destruct nb as [[??]?]; simpl in Hp; congruence).
  rewrite (lookup_app_l_Some _ _ _ _ Hcur) in Hpar. injection Hpar as <-.
  apply new_node_legal; [done|]. by apply Is_true_true.
Qed.

Lemma run_step_inv n s :
inv s → step_inv' s → step_inv' (final_state (run' n s)).
Proof.
revert s. induction n as [|n IH]; intros s Hinv Hstep; simpl; [done|].
pose proof (step_spec env agent_id constraints start goal max_time s Hinv) as Hspec.
pose proof (step_inv_step s Hinv Hstep) as Hstep'.
destruct (step' s) as [s1|path s1]; [|done].
apply IH; [apply Hspec|done].
Qed.

Lemma parent_chain_legal s fuel i node :
inv s → step_inv' s → nodes s !! i = Some node → (i < fuel)%nat →
chain_legal' (n_t node) (parent_chain fuel (nodes s) (Some i)).
Proof.
intros Hinv Hstep. revert i node.
induction fuel as [|fuel IH]; intros i node Hi Hlt; [lia|].
cbn [parent_chain]. rewrite Hi. destruct i as [|i].
- rewrite (inv_start _ _ _ _ _ _ _ Hinv) in Hi. injection Hi as <-. simpl.
  by destruct fuel.
- destruct (inv_node _ _ _ _ _ _ _ Hinv (S i) node Hi)
    as (_ & _ & _ & _ & p & parent & Hp & Hpi & Hlook & Ht); [lia|].
  rewrite Hp.
  destruct (parent_chain_spec env agent_id constraints start goal max_time
              s fuel p parent Hinv Hlook) as (rest & Hchain & _); [lia|].
  specialize (IH p parent Hlook ltac:(lia)). rewrite Hchain in IH |- *.
  cbn [chain_legal]. replace (n_t node - 1) with (n_t parent) by lia.
  split; [by eapply Hstep|done].
Qed.

Lemma chain_legal_reverse (t : Z) (chain : list Cell) :
chain_legal' t chain → Z.of_nat (length chain) = t + 1 →
∀ (i : nat) c c', reverse chain !! i = Some c → reverse chain !! S i = Some c' →
  legal_step' (Z.of_nat i) c c'.
Proof.
revert t. induction chain as [|c1 chain IH]; intros t Hlegal Hlen i c c' Hc Hc'.
- by rewrite reverse_nil in Hc.
- rewrite reverse_cons in Hc, Hc'. simpl in Hlen.
  destruct chain as [|c0 chain]; [by destruct i|].
  destruct Hlegal as [Hstep Hlegal].
  apply lookup_snoc_Some in Hc' as [[Hlt' Hc']|[Hlen' ->]].
  + rewrite lookup_app_l in Hc by lia.
    apply (IH (t - 1)); [done|simpl in *; lia|done..].
  + rewrite length_reverse in Hlen'. rewrite lookup_app_l in Hc
      by (rewrite length_reverse; lia).
    replace i with (pred (length (reverse (c0 :: chain)))) in Hc
      by (rewrite length_reverse; lia).
    rewrite <- last_lookup, last_reverse in Hc. injection Hc as <-.
    replace (Z.of_nat i) with (t - 1) by (simpl in *; lia). done.
Qed.

Lemma search_path_feasible :
search' ≠ [] →
feasible_path env agent_id constraints start goal max_time search'.
Proof.
intros Hne.
destruct (search_returns env agent_id constraints start goal max_time) as [s Hrun].
pose proof (run_spec env agent_id constraints start goal max_time
              (search_fuel env max_time) init' (inv_init _ _ _ _ _ _)) as [Hinv Hpath].
pose proof (run_step_inv (search_fuel env max_time) init'
              (inv_init _ _ _ _ _ _) step_inv_init) as Hstep.
rewrite Hrun in Hinv, Hstep. simpl in Hinv, Hstep.
destruct (Hpath _ _ Hrun) as [Hnil|(cur_id & current_node & Hcur & Hgoal & Heq)];
  [done|].
rewrite Heq. unfold _reconstruct_path.
pose proof (lookup_lt_Some _ _ _ Hcur) as Hlt.
destruct (parent_chain_spec env agent_id constraints start goal max_time
            s (length (nodes s)) cur_id current_node Hinv Hcur Hlt)
  as (rest & Hchain & Hlast & Hlen).
pose proof (parent_chain_legal s (length (nodes s)) cur_id current_node
              Hinv Hstep Hcur Hlt) as Hlegal.
rewrite Hchain in Hlegal |- *. unfold feasible_path.
rewrite head_reverse, last_reverse, length_reverse. split_and!.
- done.
- simpl. by rewrite Hgoal.
- simpl length. intros Hlong. destruct cur_id as [|cur_id].
  + rewrite (inv_start _ _ _ _ _ _ _ Hinv) in Hcur. injection Hcur as <-.
    simpl in Hlen. lia.
  + destruct (inv_node _ _ _ _ _ _ _ Hinv (S cur_id) current_node Hcur)
      as (_ & Ht & _); [lia|]. lia.
- eapply chain_legal_reverse; [done|]. simpl length. lia.
Qed.

(** X17: a path returned by the search, if not empty, is feasible: it starts
    on the start and ends on the goal, it has at most [max_time] steps, and
    every step goes, in one time unit, to the same or a 4-adjacent cell that is
    inside the grid and free, arrives on a cell no vertex constraint forbids
    at that time, and is a move no edge constraint forbids at the time it is
    made. *)
Theorem search_returns_a_feasible_path :
search' ≠ [] →
feasible_path env agent_id constraints start goal max_time search'.
Proof. apply search_path_feasible. Qed.

(** X18: when the start is the goal the search returns the one-cell path at
    once, whatever the grid, the constraints and [max_time] are. *)
Theorem search_from_the_goal_itself :
search env agent_id constraints start start max_time = [start].
Proof.
unfold search, search_fuel. rewrite Nat.add_1_r. cbn [run].
unfold step, init. cbn [open_list nodes].
change (heapq.heappush _ [] 0%nat) with [0%nat].
change (heapq.heappop _ [0%nat]) with (Some (0%nat, @nil nat)).
cbn [lookup list_lookup n_x n_y SippNode_init].
rewrite bool_decide_true by (by destruct start).
unfold _reconstruct_path. simpl. by destruct start.
Qed.

Lemma moves_bound_distance (path : list Cell) (a b : Cell) :
(∀ (i : nat) c c', path !! i = Some c → path !! S i = Some c' →
   (c'.1 - c.1, c'.2 - c.2) ∈ MOVES) →
head path = Some a → last path = Some b →
get_manhattan_distance a b ≤ Z.of_nat (length path) - 1.
Proof.
revert a. induction path as [|c path IH]; intros a Hsteps Ha Hb; [done|].
injection Ha as <-. destruct path as [|c' path].
- injection Hb as <-. destruct c. unfold get_manhattan_distance. simpl. lia.
- specialize (IH c' (λ i, Hsteps (S i)) eq_refl Hb).
  pose proof (Hsteps 0%nat c c' eq_refl eq_refl) as Hm%elem_of_MOVES.
  destruct c as [a1 a2], b as [b1 b2], c' as [c1 c2].
  unfold get_manhattan_distance in *. simpl in *. lia.
Qed.

(** X19: a path returned by the search, if not empty, has at least as many
    steps as the Manhattan distance from the start to the goal: the heuristic
    never overestimates. *)
Theorem search_cost_is_at_least_the_distance :
search' ≠ [] →
get_manhattan_distance start goal ≤ Z.of_nat (length search') - 1.
Proof.
intros (Hhead & Hlast & _ & Hsteps)%search_path_feasible.
apply moves_bound_distance; [|done..].
intros i c c' Hc Hc'. by destruct (Hsteps i c c' Hc Hc').
Qed.
End astar_more.

(** ** The high-level search on well-numbered agents *)
Section cbs_total.
Local Open Scope Z_scope.
Context (env : GridEnvironment) (config : Config) (agents0 : list Agent).
Context (keys : list nat).
Context (Hkeys_nodup : NoDup keys) (Hkeys_ne : keys ≠ []).
Context (Hkeys_lt : ∀ k, k ∈ keys → (k < length agents0)%nat).

Local Abbreviation total' := (total agents0).
Local Abbreviation plan_sound' := (plan_sound env config agents0).
Local Abbreviation node_sound' := (node_sound env config agents0 keys).
Local Abbreviation result_sound' := (result_sound env config agents0 keys).

Lemma total_ret {A} (a : A) (Q : A → Prop) : Q a → total' (mret a) Q.
Proof. intros Ha agents Hag. by exists a, agents. Qed.

Lemma total_lift {A} (r : Result A) (a : A) (Q : A → Prop) :
r = Ok a → Q a → total' (lift r) Q.
Proof. intros -> Ha agents Hag. by exists a, agents. Qed.

Lemma total_bind {A B} (m : M A) (f : A → M B) (P : A → Prop) (Q : B → Prop) :
total' m P → (∀ a, P a → total' (f a) Q) → total' (m ≫= f) Q.
Proof.
intros Hm Hf agents Hag. destruct (Hm agents Hag) as (a & agents1 & Hma & Ha & Hag1).
destruct (Hf a Ha agents1 Hag1) as (b & agents2 & Hfb & Hb & Hag2).
exists b, agents2. unfold mbind, M_bind. by rewrite Hma.
Qed.

Lemma dict_set_Forall {V} (P : nat * V → Prop) (d : list (nat * V)) k v :
Forall P d → P (k, v) → Forall P (dict_set d k v).
Proof.
intros Hd Hv. induction Hd as [|[k' v'] d Hkv Hd IH]; simpl.
- by repeat constructor.
- destruct (decide (k = k')); constructor; done.
Qed.

Lemma feasible_path_unconstrained agent_id constraints start goal max_time path :
feasible_path env agent_id constraints start goal max_time path →
feasible_path env agent_id ConstraintsSet_init start goal max_time path.
Proof.
intros (Hh & Hl & Hlen & Hsteps). split_and!; [done..|].
intros i c c' Hc Hc'. destruct (Hsteps i c c' Hc Hc') as (Hm & Hv & _ & _).
split_and!; [done..| |]; apply bool_decide_eq_false, not_elem_of_empty.
Qed.

Lemma low_level_sound k constraints agent :
agents0 !! k = Some agent →
low_level env config k constraints (a_start agent) (a_goal agent) ≠ [] →
entry_sound env config agents0
  (k, low_level env config k constraints (a_start agent) (a_goal agent)).
Proof.
intros Hk Hne. exists agent. split; [done|]. simpl.
eapply feasible_path_unconstrained. by apply search_path_feasible.
Qed.

Lemma replan_agent_total agent_id constraints solutions :
plan_ok keys solutions → plan_sound' solutions → agent_id ∈ keys →
total' (_replan_agent env config agent_id constraints solutions)
  (λ sols, plan_ok keys sols ∧ plan_sound' sols).
Proof.
intros [Hk Hne] Hsound Hin agents Hag. unfold _replan_agent.
pose proof (Forall2_length _ _ _ Hag) as Hlen.
destruct (lookup_lt_is_Some_2 agents agent_id) as [agent Hagent];
  [rewrite <- Hlen; by apply Hkeys_lt|].
rewrite Hagent.
destruct (lookup_lt_is_Some_2 agents0 agent_id) as [agent0 Hagent0];
  [by apply Hkeys_lt|].
destruct (Forall2_lookup_lr _ _ _ _ _ _ Hag Hagent0 Hagent) as [Hs Hg].
destruct (low_level _ _ _ _ _ _) as [|c path] eqn:E.
- eexists _, _. split; [done|]. by split_and!.
- eexists _, _. split; [done|]. split; [split; [split|]|].
  + rewrite dict_set_keys_present; by rewrite Hk.
  + by apply (dict_set_values (λ p, p ≠ [])).
  + apply dict_set_Forall; [done|]. rewrite <- E, Hs, Hg.
    apply low_level_sound; [done|]. rewrite <- Hs, <- Hg. by rewrite E.
  + rewrite <- (list_insert_id agents0 agent_id agent0) by done.
    apply Forall2_insert; [done|]. done.
Qed.

Lemma plan_ok_scan solutions :
plan_ok keys solutions → ∃ l, _find_conflicts solutions = Ok l.
Proof.
intros [Hk Hne]. eexists. apply find_conflicts_scan; [|by rewrite Hk|done].
intros ->. by rewrite <- Hk in Hkeys_ne.
Qed.

Lemma expand_total current_node conflict agent_id open_list :
node_sound' current_node → agent_id ∈ keys → Forall node_sound' open_list →
total' (expand env config current_node conflict agent_id open_list)
  (λ r, match r with
        | inl result => result_sound' result
        | inr open_list' => Forall node_sound' open_list' ∧ open_list' ≠ []
        end).
Proof.
intros [[Hplan Hc] Hsound] Hin Hopen. unfold expand.
eapply total_bind; [by apply replan_agent_total|].
intros sols [Hsols Hsols_sound]. destruct (plan_ok_scan sols Hsols) as [l Hl].
eapply (total_bind _ _ (λ cs, cs = l)); [by eapply total_lift|].
intros ? ->. destruct l as [|c l]; apply total_ret.
- by split.
- split.
  + apply heappush_Forall; [done|]. by split.
  + intros Hnil. pose proof (heappush_length CBSNode_lt open_list
      (mkCBSNode (new_constraints current_node conflict agent_id) sols
         (_calculate_solution_cost sols) (c :: l))) as Hlen.
    by rewrite Hnil in Hlen.
Qed.

Lemma search_loop_total n open_list :
Forall node_sound' open_list → open_list ≠ [] →
total' (search_loop env config n open_list) result_sound'.
Proof.
revert open_list. induction n as [|n IH]; intros open_list Hopen Hne; simpl.
- apply total_ret. unfold after_loop.
  destruct (heapq.heappop CBSNode_lt open_list) as [[best rest]|] eqn:E.
  + apply (heappop_Forall _ _ _ _ _ Hopen) in E as [[[Hb _] Hs] _]. by split.
  + by apply heappop_None in E.
- destruct (heapq.heappop CBSNode_lt open_list) as [[current rest]|] eqn:E;
    [|by apply heappop_None in E].
  apply (heappop_Forall _ _ _ _ _ Hopen) in E as [Hcur Hrest].
  destruct (conflicts current) as [|conflict others] eqn:Ec.
  { apply total_ret. destruct Hcur as [[? Hc] ?]. split; [|done]. simpl.
    by rewrite <- Ec. }
  assert (agent1 conflict ∈ keys ∧ agent2 conflict ∈ keys) as [H1 H2].
  { destruct Hcur as [Hok _].
    destruct (recorded_agents (solutions current) conflict) as [H1 H2].
    - eapply node_conflict_recorded; [done..|]. rewrite Ec. left.
    - destruct Hok as [[<- _] _]. done. }
  eapply total_bind; [by apply expand_total|].
  intros [result|open1]; [by apply total_ret|]. intros [Hopen1 _].
  eapply total_bind; [by apply expand_total|].
  intros [result|open2]; [by apply total_ret|]. intros [Hopen2 Hne2].
  by apply IH.
Qed.
End cbs_total.

Section cbs_root.
Local Open Scope Z_scope.
Context (env : GridEnvironment) (config : Config).

Lemma initial_loop_sound agents0 constraints agents solutions :
Forall (λ agent, agents0 !! a_id agent = Some agent) agents →
plan_sound env config agents0 solutions →
plan_sound env config agents0 (initial_loop env config constraints agents solutions).1
∧ endpoints_kept agents (initial_loop env config constraints agents solutions).2.
Proof.
intros Hags. revert solutions.
induction Hags as [|agent agents Hagent Hags IH]; intros solutions Hs; simpl.
- split; [done|constructor].
- destruct (low_level _ _ _ _ _ _) as [|c path] eqn:E.
  + specialize (IH solutions Hs).
    destruct (initial_loop _ _ _ _ _) as [root rest]. simpl in *.
    destruct IH as [? ?]. split; [done|]. by constructor.
  + specialize (IH (dict_set solutions (a_id agent) (c :: path))).
    destruct (initial_loop _ _ _ _ _) as [root rest]. simpl in *.
    destruct IH as [? ?].
    { apply dict_set_Forall; [done|]. rewrite <- E.
      apply low_level_sound; [done|]. by rewrite E. }
    split; [done|]. by constructor.
Qed.

Lemma ids_are_positions_lookup agents agent :
ids_are_positions agents → agent ∈ agents → agents !! a_id agent = Some agent.
Proof.
intros Hids [i Hi]%list_elem_of_lookup_1. by rewrite (Hids i agent Hi).
Qed.

Lemma root_nonempty agents :
(∃ agent, agent ∈ agents ∧ root_feasible env config agent) ↔
(initial_loop env config ConstraintsSet_init agents []).1 ≠ [].
Proof.
destruct (initial_loop_plan env config ConstraintsSet_init agents [])
  as (_ & _ & Hkeys); [constructor..|]. simpl in Hkeys. split.
- intros (agent & Hin & Hf) Hnil.
  assert (a_id agent ∈ ((initial_loop env config ConstraintsSet_init agents []).1).*1)
    as Hk by (apply Hkeys; right; eauto).
  rewrite Hnil in Hk. by apply elem_of_nil in Hk.
- intros Hne. destruct (initial_loop _ _ _ _ _).1 as [|[k p] root] eqn:E; [done|].
  destruct (Hkeys k) as [[Hk|(agent & ? & ? & ?)] _]; [left| |by exists agent].
  by apply elem_of_nil in Hk.
Qed.

Lemma root_scan agents :
(initial_loop env config ConstraintsSet_init agents []).1 ≠ [] →
∃ l, _find_conflicts (initial_loop env config ConstraintsSet_init agents []).1 = Ok l.
Proof.
intros Hne.
destruct (initial_loop_plan env config ConstraintsSet_init agents [])
  as (Hnd & Hpaths & _); [constructor..|]. simpl in *.
eexists. by apply find_conflicts_scan.
Qed.

Lemma heappop_singleton (node : CBSNode) :
heapq.heappop CBSNode_lt (heapq.heappush CBSNode_lt [] node) = Some (node, []).
Proof. reflexivity. Qed.

(** The search on agents whose identifiers are their positions, one of them
    feasible at the root: it ends without an exception, with a sound joint
    plan. *)
Lemma CBS_search_total agents :
ids_are_positions agents →
(initial_loop env config ConstraintsSet_init agents []).1 ≠ [] →
∃ r agents', CBS_search env config agents = (Ok r, agents')
  ∧ plan_sound env config agents (returned r).
Proof.
intros Hids Hne.
destruct (initial_loop_plan env config ConstraintsSet_init agents [])
  as (Hnd & Hpaths & Hkeys); [constructor..|]. simpl in *.
destruct (initial_loop_sound agents ConstraintsSet_init agents []) as [Hsound Hends].
{ apply Forall_forall. intros agent Hin. by apply ids_are_positions_lookup. }
{ constructor. }
destruct (root_scan agents Hne) as [l Hl].
unfold CBS_search, _find_initial_solutions. unfold mbind at 1, M_bind at 1.
destruct (initial_loop _ _ _ _ _) as [root agents1] eqn:E. simpl in *.
assert (total agents
  (root_conflicts ← lift (_find_conflicts root);
   search_loop env config (Z.to_nat (CBS_MAX_ITERATIONS config))
     (heapq.heappush CBSNode_lt []
        (mkCBSNode ConstraintsSet_init root (_calculate_solution_cost root)
           root_conflicts)))
  (result_sound env config agents root.*1)) as Htotal.
{ eapply total_bind with (P := λ cs, cs = l); [by eapply total_lift|].
  intros ? ->. apply search_loop_total.
  - done.
  - intros Hnil. by destruct root.
  - intros k Hk. apply Hkeys in Hk as [Hk|(agent & Hin & <- & _)];
      [by apply elem_of_nil in Hk|].
    eapply lookup_lt_Some. by apply ids_are_positions_lookup.
  - apply heappush_Forall; [constructor|]. by split.
  - intros Hnil. pose proof (heappush_length CBSNode_lt []
      (mkCBSNode ConstraintsSet_init root (_calculate_solution_cost root) l)) as Hlen.
    by rewrite Hnil in Hlen. }
destruct (Htotal agents1 Hends) as (r & agents' & Hr & [_ Hrs] & _).
by exists r, agents'.
Qed.

(** X20: when every agent's identifier is its position in the list and the
    low-level search finds a plan for at least one agent at the root,
    [CBS.search] raises no exception: it returns a result. *)
Theorem search_returns_when_an_agent_is_feasible (agents : list Agent) :
ids_are_positions agents →
(∃ agent, agent ∈ agents ∧ root_feasible env config agent) →
∃ r agents', CBS_search env config agents = (Ok r, agents').
Proof.
intros Hids Hf%root_nonempty.
destruct (CBS_search_total agents Hids Hf) as (r & agents' & Hr & _). eauto.
Qed.

(** X21: every path of a joint plan that [CBS.search] returns, on agents
    whose identifiers are their positions in the list, starts at the start
    of its agent, ends at its goal, stays within [MAX_TIME_STEPS] and moves
    by legal steps between free cells of the grid. *)
Theorem returned_paths_are_feasible (agents : list Agent) (r : SearchResult)
    (agents' : list Agent) (k : nat) (path : list Cell) :
ids_are_positions agents →
CBS_search env config agents = (Ok r, agents') →
(k, path) ∈ returned r →
∃ agent, agents !! k = Some agent
  ∧ feasible_path env k ConstraintsSet_init (a_start agent) (a_goal agent)
      (MAX_TIME_STEPS config) path.
Proof.
intros Hids Hr Hin.
destruct (decide ((initial_loop env config ConstraintsSet_init agents []).1 = []))
  as [Hnil|Hne].
- exfalso. revert Hr. unfold CBS_search, _find_initial_solutions.
  unfold mbind at 1, M_bind at 1.
  destruct (initial_loop _ _ _ _ _) as [root agents1]. simpl in Hnil. by subst root.
- destruct (CBS_search_total agents Hids Hne) as (r0 & agents0 & Hr0 & Hsound).
  rewrite Hr in Hr0. injection Hr0 as <- <-.
  exact (proj1 (Forall_forall _ _) Hsound _ Hin).
Qed.

(** X22: without an iteration budget the search returns the plans of the
    root as they are, conflicts or not, from the statement after the loop. *)
Theorem search_without_budget_returns_the_root (agents : list Agent) :
CBS_MAX_ITERATIONS config ≤ 0 →
(∃ agent, agent ∈ agents ∧ root_feasible env config agent) →
CBS_search env config agents
= (Ok (BestNode (initial_loop env config ConstraintsSet_init agents []).1),
   (initial_loop env config ConstraintsSet_init agents []).2).
Proof.
intros Hbudget Hne%root_nonempty. destruct (root_scan agents Hne) as [l Hl].
unfold CBS_search, _find_initial_solutions. unfold mbind at 1, M_bind at 1.
destruct (initial_loop _ _ _ _ _) as [root agents1]. simpl in *.
unfold mbind, M_bind, lift. rewrite Hl.
replace (Z.to_nat (CBS_MAX_ITERATIONS config)) with 0%nat by lia.
reflexivity.
Qed.

End cbs_root.

Section search_examples.
Local Open Scope Z_scope.

Lemma search_loop_terminates_witness :
∃ s, run swap_grid 0 ConstraintsSet_init (0, 1) 10 50 (init (0, 0) (0, 1))
     = Returned (search swap_grid 0 ConstraintsSet_init (0, 0) (0, 1) 10) s.
Proof.
apply (search_loop_terminates swap_grid 0 ConstraintsSet_init (0, 0) (0, 1) 10 50).
vm_compute. lia.
Defined.

Lemma search_returns_a_feasible_path_witness :
feasible_path pinch_grid 0 ConstraintsSet_init (0, 1) (2, 1) 10
  (search pinch_grid 0 ConstraintsSet_init (0, 1) (2, 1) 10).
Proof.
apply (search_returns_a_feasible_path pinch_grid 0 ConstraintsSet_init (0, 1) (2, 1) 10).
vm_compute. discriminate.
Defined.

Lemma search_cost_is_at_least_the_distance_witness :
get_manhattan_distance (0, 1) (2, 1)
≤ Z.of_nat (length (search pinch_grid 0 ConstraintsSet_init (0, 1) (2, 1) 10)) - 1.
Proof.
apply (search_cost_is_at_least_the_distance pinch_grid 0 ConstraintsSet_init
         (0, 1) (2, 1) 10).
vm_compute. discriminate.
Defined.

Lemma search_returns_when_an_agent_is_feasible_witness :
∃ r agents', CBS_search wall_grid small_config wall_agents = (Ok r, agents').
Proof.
apply (search_returns_when_an_agent_is_feasible wall_grid small_config wall_agents).
- intros [|[|i]] agent; simpl; intros [= <-]; reflexivity.
- exists (Agent_init 0 (0, 0) (0, 1)). split; [left|]. vm_compute. discriminate.
Defined.

Lemma returned_paths_are_feasible_witness :
∃ agent, pinch_agents !! 0%nat = Some agent
  ∧ feasible_path pinch_grid 0 ConstraintsSet_init (a_start agent) (a_goal agent)
      (MAX_TIME_STEPS small_config) pinch_plan_0.
Proof.
apply (returned_paths_are_feasible pinch_grid small_config pinch_agents
         (Solved [(0%nat, pinch_plan_0); (1%nat, pinch_plan_1)])
         [mkAgent 0 (0, 1) (2, 1) pinch_plan_0 3; mkAgent 1 (1, 0) (1, 2) pinch_plan_1 2]).
- intros [|[|i]] agent; simpl; intros [= <-]; reflexivity.
- vm_compute. reflexivity.
- left.
Defined.

Lemma search_without_budget_returns_the_root_witness :
CBS_search swap_grid {| MAX_TIME_STEPS := 10; CBS_MAX_ITERATIONS := 0 |} swap_agents
= (Ok (BestNode
         (initial_loop swap_grid {| MAX_TIME_STEPS := 10; CBS_MAX_ITERATIONS := 0 |}
            ConstraintsSet_init swap_agents []).1),
   (initial_loop swap_grid {| MAX_TIME_STEPS := 10; CBS_MAX_ITERATIONS := 0 |}
      ConstraintsSet_init swap_agents []).2).
Proof.
apply (search_without_budget_returns_the_root swap_grid
         {| MAX_TIME_STEPS := 10; CBS_MAX_ITERATIONS := 0 |} swap_agents).
- simpl. lia.
- exists (Agent_init 0 (0, 0) (0, 1)). split; [left|]. vm_compute. discriminate.
Defined.

End search_examples.

(** ** The heap routines lose no entry *)
Section heapq_members.
Import heapq.
Context {A : Type} (lt : A → A → bool).
Implicit Types (heap : list A).

Lemma elem_of_insert_swap heap (i j : nat) (a x y : A) :
heap !! i = Some a → j < length heap →
y ∈ <[j := x]> heap → y ∈ <[i := x]> (<[j := a]> heap).
Proof.
intros Hi Hj [k Hk]%list_elem_of_lookup_1.
pose proof (lookup_lt_Some _ _ _ Hi) as Hilt.
destruct (decide (k = j)) as [->|Hkj].
- rewrite list_lookup_insert_eq in Hk by done. injection Hk as <-.
  apply (list_elem_of_lookup_2 _ i). apply list_lookup_insert_eq.
  by rewrite length_insert.
- rewrite list_lookup_insert_ne in Hk by done.
  destruct (decide (k = i)) as [->|Hki].
  + rewrite Hi in Hk. injection Hk as <-.
    apply (list_elem_of_lookup_2 _ j).
    rewrite list_lookup_insert_ne by done. by apply list_lookup_insert_eq.
  + apply (list_elem_of_lookup_2 _ k). by rewrite !list_lookup_insert_ne by done.
Qed.

Lemma siftdown_loop_elem_of n heap newitem startpos pos y :
pos < length heap →
y ∈ <[pos := newitem]> heap → y ∈ siftdown_loop lt n heap newitem startpos pos.
Proof.
revert heap pos. induction n as [|n IH]; intros heap pos Hpos Hy; simpl; [done|].
case_bool_decide; [|done].
destruct (heap !! _) as [parent|] eqn:E; [|done].
destruct (lt _ _); [|done].
apply IH.
- rewrite length_insert. by eapply lookup_lt_Some.
- by apply elem_of_insert_swap.
Qed.

Lemma siftdown_elem_of heap startpos pos y :
y ∈ heap → y ∈ _siftdown lt heap startpos pos.
Proof.
intros Hy. unfold _siftdown. destruct (heap !! pos) as [newitem|] eqn:E; [|done].
apply siftdown_loop_elem_of; [by eapply lookup_lt_Some|].
by rewrite list_insert_id.
Qed.

Lemma siftup_loop_elem_of n heap pos newitem y :
pos < length heap →
y ∈ <[pos := newitem]> heap →
y ∈ <[(siftup_loop lt n heap pos).2 := newitem]> (siftup_loop lt n heap pos).1.
Proof.
revert heap pos. induction n as [|n IH]; intros heap pos Hpos Hy; simpl; [done|].
case_bool_decide; [|done].
match goal with |- context [heap !! ?c] =>
  destruct (heap !! c) as [c'|] eqn:E; [|done] end.
apply IH.
- rewrite length_insert. by eapply lookup_lt_Some.
- by apply elem_of_insert_swap.
Qed.

Lemma siftup_elem_of heap pos y : y ∈ heap → y ∈ _siftup lt heap pos.
Proof.
intros Hy. unfold _siftup. destruct (heap !! pos) as [newitem|] eqn:E; [|done].
pose proof (siftup_loop_elem_of (length heap) heap pos newitem y) as H.
destruct (siftup_loop lt _ _ _) as [heap' pos']. simpl in H.
apply siftdown_elem_of, H; [by eapply lookup_lt_Some|].
by rewrite list_insert_id.
Qed.

Lemma heappush_elem_of heap item y :
y ∈ heappush lt heap item ↔ y ∈ heap ∨ y = item.
Proof.
split.
- intros Hy.
  assert (Forall (λ x, x ∈ heap ∨ x = item) (heappush lt heap item)) as HF.
  { apply heappush_Forall; [|by right]. apply Forall_forall. by left. }
  exact (proj1 (Forall_forall _ _) HF y Hy).
- intros Hy. unfold heappush. apply siftdown_elem_of, elem_of_app.
  destruct Hy as [?| ->]; [by left|right; left].
Qed.

Lemma heappop_elem_of heap item heap' y :
heappop lt heap = Some (item, heap') →
y ∈ heap ↔ y = item ∨ y ∈ heap'.
Proof.
intros Hpop. split.
- revert Hpop. unfold heappop. destruct (last heap) as [a|] eqn:E; [|done].
  apply last_removelast in E. intros Hpop Hy. rewrite E in Hy.
  destruct (removelast heap) as [|b rest]; injection Hpop as <- <-.
  + apply list_elem_of_singleton in Hy. by left.
  + apply elem_of_app in Hy as [Hy|Hy%list_elem_of_singleton].
    * apply elem_of_cons in Hy as [?|?]; [by left|]. right.
      apply siftup_elem_of. by right.
    * right. apply siftup_elem_of. subst. left.
- intros Hy.
  assert (Forall (λ x, x ∈ heap) heap) as HF by by apply Forall_forall.
  destruct (heappop_Forall lt _ heap item heap' HF Hpop) as [Hitem Hrest].
  destruct Hy as [->|Hy]; [done|].
  exact (proj1 (Forall_forall _ _) Hrest y Hy).
Qed.

Lemma heapify_elem_of heap y : y ∈ heapify lt heap ↔ y ∈ heap.
Proof.
split.
- intros Hy.
  assert (Forall (λ x, x ∈ heap) (heapify lt heap)) as HF
    by by apply heapify_Forall, Forall_forall.
  exact (proj1 (Forall_forall _ _) HF y Hy).
- unfold heapify. generalize (reverse (seq 0 (length heap / 2))).
  intros l. revert heap. induction l as [|i l IH]; intros heap Hy; simpl; [done|].
  by apply IH, siftup_elem_of.
Qed.
End heapq_members.

(** ** The low-level search misses no path *)
Section astar_complete.
Local Open Scope Z_scope.
Context (env : GridEnvironment) (agent_id : nat) (constraints : ConstraintsSet).
Context (start goal : Cell) (max_time : Z).

Local Abbreviation inv := (astar_inv env agent_id constraints start goal max_time).
Local Abbreviation open_inv' := (open_inv start goal max_time).
Local Abbreviation closed_inv' := (closed_inv env agent_id constraints goal).
Local Abbreviation legal_step' := (legal_step env agent_id constraints).
Local Abbreviation visit' := (visit agent_id constraints goal).
Local Abbreviation permitted' := (permitted agent_id constraints).
Local Abbreviation step' := (step env agent_id constraints goal max_time).
Local Abbreviation run' := (run env agent_id constraints goal max_time).
Local Abbreviation init' := (init start goal).
Local Abbreviation search' := (search env agent_id constraints start goal max_time).

Lemma legal_step_neighbor current_node (c' : Cell) :
legal_step' (n_t current_node) (n_x current_node, n_y current_node) c' →
(c', n_t current_node + 1) ∈ get_neighbors env (state_of current_node)
∧ permitted' current_node (c', n_t current_node + 1) = true.
Proof.
destruct c' as [nx ny]. intros (Hm & Hv & Hc & He). simpl in Hm. split.
- unfold is_valid_state in Hv. apply andb_true_iff in Hv as [Hb Hf].
  apply bool_decide_eq_true in Hb, Hf.
  unfold state_of, get_neighbors. apply list_elem_of_omap.
  exists (nx - n_x current_node, ny - n_y current_node). split; [done|]. simpl.
  replace (n_x current_node + (nx - n_x current_node)) with nx by lia.
  replace (n_y current_node + (ny - n_y current_node)) with ny by lia.
  by rewrite !bool_decide_true by done.
- unfold permitted. by rewrite Hc, He.
Qed.

Lemma visit_frontier cur_id s nb :
open_inv' s →
open_inv' (visit' cur_id s nb)
∧ closed_set (visit' cur_id s nb) = closed_set s
∧ (∀ key, known s key → known (visit' cur_id s nb) key)
∧ (∀ current_node, nodes s !! cur_id = Some current_node →
     permitted' current_node nb = true → known (visit' cur_id s nb) nb).
Proof.
intros (Hstart & Hdict & Hopen). unfold visit.
destruct (nodes s !! cur_id) as [current_node|] eqn:Hcur; [|by split_and!].
destruct (permitted' current_node nb) eqn:Hperm.
2:{ split_and!; try done. intros ? [= <-]. by rewrite Hperm. }
destruct nb as [[nx ny] nt]. case_bool_decide as Hclosed.
{ split_and!; try done. intros _ _ _. by left. }
destruct (node_dict s !! (nx, ny, nt)) as [e_id|] eqn:He.
- assert (known s (nx, ny, nt)) as Hk by (right; by rewrite He).
  destruct (_ !! e_id) as [existing_node|]; [|by split_and!].
  case_bool_decide; [|by split_and!].
  split_and!; try done. split_and!; cbn [open_list closed_set node_dict]; [done| |].
  + intros key id Hkey. rewrite heapify_elem_of. by apply Hdict.
  + intros id Hid%heapify_elem_of. by apply Hopen.
- split_and!; cbn [open_list closed_set node_dict]; try done.
  + split_and!; cbn [open_list closed_set node_dict].
    * destruct (decide ((nx, ny, nt) = (start.1, start.2, 0))) as [->|Hne].
      -- by rewrite lookup_insert_eq.
      -- by rewrite lookup_insert_ne.
    * intros key id Hkey. rewrite heappush_elem_of.
      destruct (decide (key = (nx, ny, nt))) as [->|Hne].
      -- rewrite lookup_insert_eq in Hkey. injection Hkey as <-. left. by right.
      -- rewrite lookup_insert_ne in Hkey by done.
         destruct (Hdict key id Hkey) as [?|[?|?]]; [left; by left|by right; left|].
         by right; right.
    * intros id [Hid| ->]%heappush_elem_of.
      -- destruct (Hopen id Hid) as [key Hkey]. exists key.
         rewrite lookup_insert_ne; [done|]. intros <-. by rewrite He in Hkey.
      -- exists (nx, ny, nt). by rewrite lookup_insert_eq.
  + intros key [?|Hkey]; [by left|]. right. cbn [node_dict].
    destruct (decide (key = (nx, ny, nt))) as [->|Hne].
    * by rewrite lookup_insert_eq.
    * by rewrite lookup_insert_ne.
  + intros _ _ _. right. cbn [node_dict]. by rewrite lookup_insert_eq.
Qed.

Lemma visit_all_frontier s cur_id current_node (nbs : list State) :
inv s → nodes s !! cur_id = Some current_node → n_t current_node < max_time →
nbs ⊆ get_neighbors env (state_of current_node) →
open_inv' s →
open_inv' (foldl (visit' cur_id) s nbs)
∧ closed_set (foldl (visit' cur_id) s nbs) = closed_set s
∧ (∀ key, known s key → known (foldl (visit' cur_id) s nbs) key)
∧ (∀ nb, nb ∈ nbs → permitted' current_node nb = true →
     known (foldl (visit' cur_id) s nbs) nb).
Proof.
revert s. induction nbs as [|nb nbs IH]; intros s Hinv Hcur Ht Hsub Ho; simpl.
- split_and!; [done..|]. by intros nb Hnb%elem_of_nil.
- destruct (visit_spec env agent_id constraints start goal max_time
              s cur_id current_node nb Hinv Hcur Ht) as (Hinv' & Hnodes & _).
  { apply Hsub. left. }
  destruct (visit_frontier cur_id s nb Ho) as (Ho' & Hc' & Hk' & Hnb').
  destruct (IH (visit' cur_id s nb)) as (Ho'' & Hc'' & Hk'' & Hnbs'');
    [done| |done| |done|].
  { rewrite Hnodes. by apply lookup_app_l_Some. }
  { intros x Hx. apply Hsub. by right. }
  split_and!; [done|by rewrite Hc''|by intros key ?%Hk'%Hk''|].
  intros nb' [->|Hin]%elem_of_cons Hperm; [|by apply Hnbs''].
  by apply Hk'', (Hnb' current_node).
Qed.

Lemma frontier_init : open_inv' init' ∧ closed_inv' init'.
Proof.
split; [split_and!|].
- unfold init. cbn [node_dict]. by rewrite lookup_singleton_eq.
- intros key id Hkey. unfold init in Hkey. cbn [node_dict] in Hkey.
  apply lookup_singleton_Some in Hkey as [<- <-]. left. unfold init. cbn [open_list].
  apply heappush_elem_of. by right.
- intros id. unfold init. cbn [open_list node_dict].
  intros [Hid| ->]%heappush_elem_of; [by apply elem_of_nil in Hid|].
  eexists. apply lookup_singleton_eq.
- intros key Hkey. unfold init in Hkey. cbn [closed_set] in Hkey.
  by apply elem_of_empty in Hkey.
Qed.

Lemma step_frontier s :
inv s → open_inv' s → closed_inv' s →
match step' s with
| Running s' => open_inv' s' ∧ closed_inv' s'
| Returned path s' => path ≠ [] ∨ (open_inv' s' ∧ closed_inv' s' ∧ open_list s' = [])
end.
Proof.
intros Hinv (Hstart & Hdict & Hopen) Hclosed. unfold step.
destruct (heapq.heappop _ _) as [[cur_id open']|] eqn:Hpop.
2:{ right. apply heappop_None in Hpop. by split_and!. }
cbn [nodes open_list closed_set node_dict reopened].
destruct (Hopen cur_id) as [key Hkey].
{ apply (heappop_elem_of _ _ _ _ cur_id Hpop). by left. }
destruct (inv_dict _ _ _ _ _ _ _ Hinv key cur_id Hkey) as (current_node & Hcur & Hstate).
rewrite Hcur.
assert (Ho1 : ∀ closed', closed_set s ⊆ closed' →
  (key ∈ closed' ∨ (cell_of key ≠ goal ∧ max_time ≤ time_of key)) →
  open_inv' (mkSearchState open' closed' (node_dict s) (nodes s) (reopened s))).
{ intros closed' Hsub Hcur_key. split_and!; cbn [open_list closed_set node_dict]; [done| |].
  - intros key' id Hkey'.
    destruct (Hdict key' id Hkey') as [Hid|[?|?]]; [|right; left; set_solver|by right; right].
    apply (heappop_elem_of _ _ _ _ id Hpop) in Hid as [->|?]; [|by left].
    right. destruct (inv_dict _ _ _ _ _ _ _ Hinv key' cur_id Hkey') as (node' & Hn' & Hs').
    rewrite Hcur in Hn'. injection Hn' as <-. rewrite <- Hs', Hstate.
    destruct Hcur_key as [?|?]; [by left|by right].
  - intros id Hid. apply Hopen, (heappop_elem_of _ _ _ _ id Hpop). by right. }
case_bool_decide as Hgoal.
{ left. unfold _reconstruct_path.
  destruct (parent_chain_spec env agent_id constraints start goal max_time
              s (length (nodes s)) cur_id current_node Hinv Hcur)
    as (rest & -> & _); [by eapply lookup_lt_Some|].
  intros Hnil%(f_equal length). rewrite length_reverse in Hnil. done. }
case_bool_decide as Htime.
{ split.
  - apply Ho1; [done|]. right. rewrite <- Hstate. done.
  - intros key' Hkey'. by apply Hclosed. }
match goal with |- context [foldl _ ?s1 _] => set (s1' := s1) end.
destruct (visit_all_frontier s1' cur_id current_node
            (get_neighbors env (n_x current_node, n_y current_node, n_t current_node)))
  as (Ho & Hc & Hk & Hnbs); [by apply inv_set_open_closed|done|lia|done| |].
{ apply Ho1; [set_solver|]. left. rewrite <- Hstate. unfold state_of. set_solver. }
split; [done|]. intros key'. rewrite Hc. subst s1'. cbn [closed_set].
intros [Hin|Hin%elem_of_singleton]%elem_of_union; [|subst key'].
- destruct (Hclosed key' Hin) as [Hg Hsteps]. split; [done|].
  intros c' Hc'. apply Hk. destruct (Hsteps c' Hc') as [?|?]; [left|by right].
  cbn [closed_set]. set_solver.
- split; [done|]. intros c' Hc'. unfold cell_of, time_of in Hc' |- *. simpl in Hc' |- *.
  destruct (legal_step_neighbor current_node c' Hc') as [Hnb Hperm].
  by apply Hnbs.
Qed.

Lemma run_frontier n s path s' :
inv s → open_inv' s → closed_inv' s →
run' n s = Returned path s' →
path ≠ [] ∨ (open_inv' s' ∧ closed_inv' s' ∧ open_list s' = []).
Proof.
revert s. induction n as [|n IH]; intros s Hinv Ho Hc; simpl; [done|].
pose proof (step_spec env agent_id constraints start goal max_time s Hinv) as Hspec.
pose proof (step_frontier s Hinv Ho Hc) as Hf.
destruct (step' s) as [s1|path1 s1].
- apply IH; [apply Hspec|apply Hf..].
- by intros [= <- <-].
Qed.

(** At the end of a search that found nothing, every state of a feasible
    path has been met. *)
Lemma feasible_states_known s path :
open_inv' s → closed_inv' s → open_list s = [] →
feasible_path env agent_id constraints start goal max_time path →
∀ (i : nat) c, path !! i = Some c → known s (c, Z.of_nat i).
Proof.
intros (Hstart & Hdict & Hopen) Hclosed Hnil (Hhead & Hlast & Hlen & Hsteps).
induction i as [|i IH]; intros c Hc.
- right. destruct path as [|c0 path]; [done|]. simpl in Hhead, Hc.
  injection Hhead as ->. injection Hc as <-. by destruct start.
- destruct (lookup_lt_is_Some_2 path i) as [c0 Hc0];
    [apply lookup_lt_Some in Hc; lia|].
  pose proof (IH c0 Hc0) as Hk.
  assert ((c0, Z.of_nat i) ∈ closed_set s) as Hin.
  { destruct Hk as [?|[id Hid]]; [done|].
    destruct (Hdict _ _ Hid) as [Hid'|[?|[_ Ht]]]; [|done|].
    - rewrite Hnil in Hid'. by apply elem_of_nil in Hid'.
    - unfold time_of in Ht. simpl in Ht. apply lookup_lt_Some in Hc.
      specialize (Hlen ltac:(lia)). lia. }
  destruct (Hclosed _ Hin) as [_ Hnext].
  replace (Z.of_nat (S i)) with (Z.of_nat i + 1) by lia.
  apply (Hnext c). unfold cell_of, time_of. simpl.
  destruct c0. by apply Hsteps.
Qed.

Lemma search_complete path :
feasible_path env agent_id constraints start goal max_time path → search' ≠ [].
Proof.
intros Hpath Hnil.
destruct (search_returns env agent_id constraints start goal max_time) as [s Hrun].
rewrite Hnil in Hrun.
pose proof (run_spec env agent_id constraints start goal max_time
              (search_fuel env max_time) init' (inv_init _ _ _ _ _ _)) as [Hinv _].
rewrite Hrun in Hinv. simpl in Hinv.
destruct frontier_init as [Ho Hc].
destruct (run_frontier _ _ _ _ (inv_init _ _ _ _ _ _) Ho Hc Hrun)
  as [?|(Ho' & Hc' & Hopen)]; [done|].
pose proof Hpath as (_ & Hlast & _ & _).
rewrite last_lookup in Hlast.
pose proof (feasible_states_known s path Ho' Hc' Hopen Hpath _ _ Hlast) as Hk.
destruct Ho' as (_ & Hdict & _).
assert (cell_of (goal, Z.of_nat (pred (length path))) ≠ goal) as Hg.
{ destruct Hk as [Hin|[id Hid]]; [by apply Hc'|].
  destruct (Hdict _ _ Hid) as [Hid'|[?|[? _]]]; [|by apply Hc'|done].
  rewrite Hopen in Hid'. by apply elem_of_nil in Hid'. }
apply Hg. unfold cell_of. simpl. by destruct goal.
Qed.

(** X24: the search returns a path exactly when a feasible path exists: it
    answers with the empty list only if no sequence of legal steps leads
    from the start to the goal within [max_time] steps under the
    constraints. *)
Theorem search_finds_a_path_iff_one_exists :
search' ≠ [] ↔ ∃ path, feasible_path env agent_id constraints start goal max_time path.
Proof.
split.
- intros Hne. exists search'. by apply search_path_feasible.
- intros [path Hpath]. by eapply search_complete.
Qed.
End astar_complete.

(** ** The heap routines keep the heap order *)
Section heapq_order.
Import heapq.
Context {A : Type} (lt : A → A → bool) (P : A → Prop).
Context (Hasym : ∀ a b, P a → P b → lt a b = true → lt b a = false).
Context (Htrans : ∀ a b c, P a → P b → P c →
                    lt b a = false → lt c b = false → lt c a = false).
Implicit Types (heap : list A).

Lemma lt_irrefl a : P a → lt a a = false.
Proof.
intros Ha. destruct (lt a a) eqn:E; [|done]. by rewrite (Hasym a a Ha Ha E) in E.
Qed.

Lemma parent_lt (i : nat) : 0 < i → Nat.div2 (i - 1) < i.
Proof.
intros Hi. pose proof (Nat.div2_odd (i - 1)) as H.
destruct (Nat.odd (i - 1)); simpl in H; lia.
Qed.

Lemma parent_children (i pos : nat) :
0 < i → Nat.div2 (i - 1) = pos → i = 2 * pos + 1 ∨ i = 2 * pos + 2.
Proof.
intros Hi <-. pose proof (Nat.div2_odd (i - 1)) as H.
destruct (Nat.odd (i - 1)); simpl in H; lia.
Qed.

Lemma children_parent (pos : nat) :
Nat.div2 (2 * pos + 1 - 1) = pos ∧ Nat.div2 (2 * pos + 2 - 1) = pos.
Proof.
split.
- replace (2 * pos + 1 - 1) with (2 * pos) by lia. apply Nat.div2_double.
- replace (2 * pos + 2 - 1) with (S (2 * pos)) by lia. apply Nat.div2_succ_double.
Qed.

(** The root of an ordered heap is a least entry. *)
Lemma heap_ordered_min heap m :
heap_ordered lt heap → Forall P heap → heap !! 0 = Some m →
∀ i y, heap !! i = Some y → lt y m = false.
Proof.
intros Hord HP Hm i. induction (lt_wf i) as [i _ IH]. intros y Hy.
pose proof (Forall_lookup_1 _ _ _ _ HP Hm) as HPm.
destruct (decide (i = 0)) as [->|Hi].
- rewrite Hm in Hy. injection Hy as <-. by apply lt_irrefl.
- pose proof (parent_lt i ltac:(lia)) as Hlt.
  destruct (lookup_lt_is_Some_2 heap (Nat.div2 (i - 1))) as [p Hp].
  { apply lookup_lt_Some in Hy. lia. }
  apply (Htrans m p y); [done|by eapply Forall_lookup_1..| |].
  + by apply (IH _ Hlt).
  + apply (Hord i); [lia|done..].
Qed.

Lemma fill_hole_ordered heap newitem pos :
pos < length heap → ordered_around lt heap pos newitem →
pos = 0 ∨ (∃ pv, heap !! Nat.div2 (pos - 1) = Some pv ∧ lt newitem pv = false) →
heap_ordered lt (<[pos := newitem]> heap).
Proof.
intros Hpos (I1 & I2 & I3) Hstop i c p Hi Hc Hp. destruct (decide (i = pos)) as [->|Hne].
- rewrite list_lookup_insert_eq in Hc by done. injection Hc as <-.
  rewrite list_lookup_insert_ne in Hp by (pose proof (parent_lt pos Hi); lia).
  destruct Hstop as [->|(pv & Hpv & Hlt)]; [lia|]. congruence.
- rewrite list_lookup_insert_ne in Hc by done.
  destruct (decide (Nat.div2 (i - 1) = pos)) as [Hpar|Hpar].
  + rewrite Hpar, list_lookup_insert_eq in Hp by done. injection Hp as <-.
    by apply (I2 i).
  + rewrite list_lookup_insert_ne in Hp by done. by apply (I1 i).
Qed.

Lemma siftdown_loop_ordered n heap newitem pos :
pos ≤ n → pos < length heap → Forall P heap → P newitem →
ordered_around lt heap pos newitem →
heap_ordered lt (siftdown_loop lt n heap newitem 0 pos).
Proof.
revert heap pos. induction n as [|n IH]; intros heap pos Hn Hpos HP Hnew Hinv.
- simpl. apply fill_hole_ordered; [done..|]. left. lia.
- simpl. pose proof (fill_hole_ordered heap newitem pos Hpos Hinv) as Hfinal.
  destruct Hinv as (I1 & I2 & I3).
  case_bool_decide as H0; [|apply Hfinal; left; lia].
  pose proof (parent_lt pos H0) as Hlt.
  destruct (heap !! Nat.div2 (pos - 1)) as [pv|] eqn:Hpv.
  2:{ apply lookup_ge_None in Hpv. lia. }
  destruct (lt newitem pv) eqn:Hcmp; [|apply Hfinal; right; eauto].
  pose proof (Forall_lookup_1 _ _ _ _ HP Hpv) as HPpv.
  assert (HP' : ∀ j x, heap !! j = Some x → P x) by (intros; by eapply Forall_lookup_1).
  apply IH; [lia|by rewrite length_insert; lia|by apply Forall_insert|done|].
  split_and!.
  + intros i c p Hi Hne Hc Hp. destruct (decide (i = pos)) as [->|Hip].
    * rewrite list_lookup_insert_eq in Hc by done. injection Hc as <-.
      rewrite list_lookup_insert_ne in Hp by lia. rewrite Hpv in Hp.
      injection Hp as <-. by apply lt_irrefl.
    * rewrite list_lookup_insert_ne in Hc by done.
      destruct (decide (Nat.div2 (i - 1) = pos)) as [Hpar|Hpar].
      -- rewrite Hpar, list_lookup_insert_eq in Hp by done. injection Hp as <-.
         by apply (I3 i).
      -- rewrite list_lookup_insert_ne in Hp by done. by apply (I1 i).
  + intros i c Hi Hpar Hc. destruct (decide (i = pos)) as [->|Hip].
    * rewrite list_lookup_insert_eq in Hc by done. injection Hc as <-.
      by apply Hasym.
    * rewrite list_lookup_insert_ne in Hc by done.
      apply (Htrans newitem pv c); [done|done|by eapply HP'|by apply Hasym|].
      apply (I1 i); [done|done|done|]. by rewrite Hpar.
  + intros i c gp Hi Hpar Hpos' Hc Hgp.
    pose proof (parent_lt _ Hpos') as Hlt'.
    rewrite list_lookup_insert_ne in Hgp by lia.
    assert (lt pv gp = false) as Hgpv by by apply (I1 (Nat.div2 (pos - 1))); [|lia|..].
    destruct (decide (i = pos)) as [->|Hip].
    * rewrite list_lookup_insert_eq in Hc by done. by injection Hc as <-.
    * rewrite list_lookup_insert_ne in Hc by done.
      apply (Htrans gp pv c); [by eapply HP'|done|by eapply HP'|done|].
      apply (I1 i); [done|done|done|]. by rewrite Hpar.
Qed.

Lemma heappush_ordered heap item :
heap_ordered lt heap → Forall P heap → P item →
heap_ordered lt (heappush lt heap item).
Proof.
intros Hord HP Hitem. unfold heappush, _siftdown.
rewrite lookup_app_r, Nat.sub_diag by done. simpl.
apply siftdown_loop_ordered; [done|rewrite length_app; simpl; lia| |done|].
{ apply Forall_app. split; [done|]. by constructor. }
split_and!.
- intros i c p Hi Hne Hc Hp.
  assert (i < length heap) as Hilt.
  { apply lookup_lt_Some in Hc. rewrite length_app in Hc. simpl in Hc. lia. }
  pose proof (parent_lt i Hi).
  rewrite lookup_app_l in Hc, Hp by lia. by apply (Hord i).
- intros i c Hi Hpar Hc. apply lookup_lt_Some in Hc.
  rewrite length_app in Hc. simpl in Hc. pose proof (parent_lt i Hi). lia.
- intros i c gp Hi Hpar _ Hc _. apply lookup_lt_Some in Hc.
  rewrite length_app in Hc. simpl in Hc. pose proof (parent_lt i Hi). lia.
Qed.

Lemma siftup_loop_ordered n heap pos :
length heap ≤ n + pos → pos < length heap → Forall P heap →
ordered_but lt heap pos →
let r := siftup_loop lt n heap pos in
ordered_but lt r.1 r.2 ∧ length r.1 ≤ 2 * r.2 + 1 ∧ r.2 < length r.1
∧ Forall P r.1.
Proof.
revert heap pos. induction n as [|n IH]; intros heap pos Hn Hpos HP (U1 & U2).
- simpl. split_and!; [by split|lia|done|done].
- simpl. case_bool_decide as Hchild; [|split_and!; [by split|simpl; lia|done|done]].
  destruct (children_parent pos) as [Hpl Hpr].
  destruct (lookup_lt_is_Some_2 heap (2 * pos + 1)) as [a Ha]; [lia|].
  assert (HP' : ∀ j x, heap !! j = Some x → P x) by (intros; by eapply Forall_lookup_1).
  assert (∃ ci c, (match heap !! (pos + (pos + 0) + 1),
                         heap !! (pos + (pos + 0) + 1 + 1) with
                   | Some c, Some r =>
                       if lt c r then pos + (pos + 0) + 1 else pos + (pos + 0) + 1 + 1
                   | _, _ => pos + (pos + 0) + 1
                   end) = ci
          ∧ heap !! ci = Some c ∧ Nat.div2 (ci - 1) = pos ∧ pos < ci
          ∧ ∀ i x, 0 < i → i ≠ ci → Nat.div2 (i - 1) = pos → heap !! i = Some x →
              lt x c = false) as (ci & c & -> & Hci & Hcpar & Hclt & Hsib).
  { replace (pos + (pos + 0) + 1) with (2 * pos + 1) by lia. rewrite Ha.
    destruct (heap !! (2 * pos + 1 + 1)) as [b|] eqn:Hb.
    - replace (2 * pos + 1 + 1) with (2 * pos + 2) in * by lia.
      destruct (lt a b) eqn:Hab.
      + exists (2 * pos + 1), a. split_and!; [done..|lia|].
        intros i x Hi Hne Hpar Hx.
        destruct (parent_children i pos Hi Hpar) as [->| ->]; [done|].
        rewrite Hb in Hx. injection Hx as <-. apply Hasym; [by eapply HP'..|done].
      + exists (2 * pos + 2), b. split_and!; [done..|lia|].
        intros i x Hi Hne Hpar Hx.
        destruct (parent_children i pos Hi Hpar) as [->| ->]; [|done].
        rewrite Ha in Hx. by injection Hx as <-.
    - exists (2 * pos + 1), a. split_and!; [done..|lia|].
      intros i x Hi Hne Hpar Hx.
      destruct (parent_children i pos Hi Hpar) as [->| ->]; [done|].
      replace (2 * pos + 1 + 1) with (2 * pos + 2) in * by lia. congruence. }
  rewrite Hci.
  apply IH; [rewrite length_insert; lia|by rewrite length_insert; eapply lookup_lt_Some
            |apply Forall_insert; [done|by eapply HP']|].
  split.
  + intros i x p Hi Hne Hpar Hx Hp. destruct (decide (i = pos)) as [->|Hip].
    * rewrite list_lookup_insert_eq in Hx by done. injection Hx as <-.
      pose proof (parent_lt pos Hi).
      rewrite list_lookup_insert_ne in Hp by lia.
      apply (U2 ci); [lia|done..].
    * rewrite list_lookup_insert_ne in Hx by done.
      destruct (decide (Nat.div2 (i - 1) = pos)) as [Hipar|Hipar].
      -- rewrite Hipar, list_lookup_insert_eq in Hp by done. injection Hp as <-.
         by apply (Hsib i).
      -- rewrite list_lookup_insert_ne in Hp by done. by apply (U1 i).
  + intros i x gp Hi Hpar _ Hx Hgp.
    rewrite Hcpar, list_lookup_insert_eq in Hgp by done. injection Hgp as <-.
    pose proof (parent_lt i Hi).
    rewrite list_lookup_insert_ne in Hx by lia.
    apply (U1 i); [done|lia|lia|done|]. by rewrite Hpar.
Qed.

Lemma heappop_ordered heap item heap' :
heap_ordered lt heap → Forall P heap → heappop lt heap = Some (item, heap') →
heap_ordered lt heap' ∧ ∀ y, y ∈ heap → lt y item = false.
Proof.
intros Hord HP. unfold heappop. destruct (last heap) as [lastelt|] eqn:E; [|done].
apply last_removelast in E.
destruct (removelast heap) as [|returnitem rest] eqn:Erest; intros [= <- <-].
- split; [by intros i c p _ Hc|]. rewrite E. simpl.
  intros y ->%list_elem_of_singleton. apply lt_irrefl.
  rewrite E in HP. by apply Forall_inv in HP.
- split.
  2:{ intros y [i Hi]%list_elem_of_lookup_1.
      apply (heap_ordered_min heap returnitem Hord HP) with i; [|done].
      by rewrite E. }
  assert (Hlook : ∀ i, 0 < i → i < S (length rest) →
            (lastelt :: rest) !! i = heap !! i).
  { intros i Hi Hlt. rewrite E. destruct i as [|i]; [lia|]. simpl.
    by rewrite lookup_app_l by lia. }
  assert (HP0 : Forall P (lastelt :: rest)).
  { rewrite E in HP. apply Forall_app in HP as [HP Hl].
    apply Forall_cons in HP as [_ HP]. apply Forall_inv in Hl. by constructor. }
  unfold _siftup. simpl (_ !! 0).
  pose proof (siftup_loop_ordered (length (lastelt :: rest)) (lastelt :: rest) 0)
    as Hup.
  destruct (siftup_loop lt _ _ _) as [heap1 pos1]. simpl in Hup.
  destruct Hup as ((U1 & U2) & Hleaf & Hpos1 & HP1); [lia|lia|done| |].
  { split; [|intros; lia]. intros i c p Hi _ Hpar Hc Hp.
    pose proof (parent_lt i Hi) as Hlt. pose proof (lookup_lt_Some _ _ _ Hc) as Hil.
    change (i < S (length rest)) in Hil.
    rewrite Hlook in Hc by lia.
    destruct (Nat.div2 (i - 1)) as [|k] eqn:Ek; [done|].
    rewrite Hlook in Hp by lia. rewrite <- Ek in Hp. by apply (Hord i). }
  pose proof (Forall_inv HP0) as HPl.
  unfold _siftdown. rewrite list_lookup_insert_eq by done.
  apply siftdown_loop_ordered;
    [done|by rewrite length_insert|by apply Forall_insert|done|].
  assert (Hnochild : ∀ i c, 0 < i → Nat.div2 (i - 1) = pos1 →
            (<[pos1 := lastelt]> heap1) !! i = Some c → False).
  { intros i c Hi Hpar Hc. apply lookup_lt_Some in Hc. rewrite length_insert in Hc.
    destruct (parent_children i pos1 Hi Hpar); lia. }
  split_and!.
  + intros i c p Hi Hne Hc Hp.
    destruct (decide (Nat.div2 (i - 1) = pos1)) as [Hpar|Hpar];
      [by destruct (Hnochild i c)|].
    rewrite list_lookup_insert_ne in Hc, Hp by done. by apply (U1 i).
  + intros i c Hi Hpar Hc. by destruct (Hnochild i c).
  + intros i c gp Hi Hpar _ Hc _. by destruct (Hnochild i c).
Qed.
End heapq_order.

(** ** The low-level search returns a shortest path *)
Section astar_optimal.
Local Open Scope Z_scope.
Context (env : GridEnvironment) (agent_id : nat) (constraints : ConstraintsSet).
Context (start goal : Cell) (max_time : Z).

Local Abbreviation inv := (astar_inv env agent_id constraints start goal max_time).
Local Abbreviation open_inv' := (open_inv start goal max_time).
Local Abbreviation closed_inv' := (closed_inv env agent_id constraints goal).
Local Abbreviation heap_inv' := (heap_inv goal).
Local Abbreviation feasible := (feasible_path env agent_id constraints start goal max_time).
Local Abbreviation visit' := (visit agent_id constraints goal).
Local Abbreviation permitted' := (permitted agent_id constraints).
Local Abbreviation step' := (step env agent_id constraints goal max_time).
Local Abbreviation run' := (run env agent_id constraints goal max_time).
Local Abbreviation init' := (init start goal).
Local Abbreviation search' := (search env agent_id constraints start goal max_time).

Lemma node_lt_asym nodes (a b : nat) :
(a < length nodes)%nat → (b < length nodes)%nat →
node_lt nodes a b = true → node_lt nodes b a = false.
Proof.
intros _ _. unfold node_lt. destruct (nodes !! a), (nodes !! b); try done.
rewrite bool_decide_eq_true, bool_decide_eq_false. lia.
Qed.

Lemma node_lt_trans nodes (a b c : nat) :
(a < length nodes)%nat → (b < length nodes)%nat → (c < length nodes)%nat →
node_lt nodes b a = false → node_lt nodes c b = false → node_lt nodes c a = false.
Proof.
intros [na Ha]%lookup_lt_is_Some_2 [nb Hb]%lookup_lt_is_Some_2
  [nc Hc]%lookup_lt_is_Some_2.
unfold node_lt. rewrite Ha, Hb, Hc, !bool_decide_eq_false. lia.
Qed.

Lemma node_lt_app nodes l (i j : nat) :
(i < length nodes)%nat → (j < length nodes)%nat →
node_lt (nodes ++ l) i j = node_lt nodes i j.
Proof. intros Hi Hj. unfold node_lt. by rewrite !lookup_app_l by done. Qed.

Lemma heap_ordered_app nodes l (heap : list nat) :
Forall (λ id, (id < length nodes)%nat) heap →
heap_ordered (node_lt nodes) heap → heap_ordered (node_lt (nodes ++ l)) heap.
Proof.
intros Hvalid Hord i c p Hi Hc Hp. rewrite node_lt_app.
- by apply (Hord i).
- exact (Forall_lookup_1 _ _ _ _ Hvalid Hc).
- exact (Forall_lookup_1 _ _ _ _ Hvalid Hp).
Qed.

Lemma heap_inv_alloc s open' closed' dict' node r :
heap_inv' s → open' = open_list s →
n_h node = get_manhattan_distance (n_x node, n_y node) goal →
n_f node = n_g node + n_h node →
heap_inv' (mkSearchState open' closed' dict' (nodes s ++ [node]) r).
Proof.
intros (Hord & Hvalid & Hnodes) -> Hh Hf. split_and!; cbn [open_list nodes].
- by apply heap_ordered_app.
- eapply Forall_impl; [done|]. intros id Hid. simpl in Hid. rewrite length_app. simpl. lia.
- apply Forall_app. split; [done|]. by constructor.
Qed.

Lemma visit_heap s cur_id current_node nb :
inv s → nodes s !! cur_id = Some current_node → n_t current_node < max_time →
nb ∈ get_neighbors env (state_of current_node) →
heap_inv' s → heap_inv' (visit' cur_id s nb).
Proof.
intros Hinv Hcur Hlt Hnb Hheap. unfold visit. rewrite Hcur.
destruct (permitted' current_node nb) eqn:Hperm; [|done].
destruct nb as [[nx ny] nt].
case_bool_decide as Hclosed; [by apply heap_inv_alloc|].
destruct (node_dict s !! (nx, ny, nt)) as [e_id|] eqn:Hd.
- destruct (inv_dict _ _ _ _ _ _ _ Hinv _ _ Hd) as (existing & He & Hk).
  rewrite (lookup_app_l_Some _ _ _ _ He).
  destruct (inv_node_time env agent_id constraints start goal max_time
              s e_id existing Hinv He) as [Hge _].
  destruct (inv_node_time env agent_id constraints start goal max_time
              s cur_id current_node Hinv Hcur) as [Hgc _].
  apply get_neighbors_elem_of in Hnb as (Hnt & _).
  injection Hk as _ _ Hte.
  rewrite bool_decide_false by (simpl; lia).
  by apply heap_inv_alloc.
- destruct Hheap as (Hord & Hvalid & Hnodes).
  assert (Forall (λ id, (id < length (nodes s ++ [SippNode_init nx ny nt
            (n_g current_node + 1) (get_manhattan_distance (nx, ny) goal)
            (Some cur_id)]))%nat) (open_list s)) as Hvalid'.
  { eapply Forall_impl; [done|]. intros id Hid. simpl in Hid. rewrite length_app. simpl. lia. }
  split_and!; cbn [open_list nodes].
  + eapply (heappush_ordered _ _ (node_lt_asym _) (node_lt_trans _)).
    * by apply heap_ordered_app.
    * exact Hvalid'.
    * rewrite length_app. simpl. lia.
  + apply heappush_Forall; [done|]. rewrite length_app. simpl. lia.
  + apply Forall_app. split; [done|]. by constructor.
Qed.

Lemma visit_all_heap s cur_id current_node (nbs : list State) :
inv s → nodes s !! cur_id = Some current_node → n_t current_node < max_time →
nbs ⊆ get_neighbors env (state_of current_node) →
heap_inv' s → heap_inv' (foldl (visit' cur_id) s nbs).
Proof.
revert s. induction nbs as [|nb nbs IH]; intros s Hinv Hcur Ht Hsub Hheap; [done|].
simpl.
destruct (visit_spec env agent_id constraints start goal max_time
            s cur_id current_node nb Hinv Hcur Ht) as (Hinv' & Hnodes & _).
{ apply Hsub. left. }
apply IH; [done| |done| |].
- rewrite Hnodes. by apply lookup_app_l_Some.
- intros x Hx. apply Hsub. by right.
- apply (visit_heap s cur_id current_node nb); [done..| |done]. apply Hsub. left.
Qed.

Lemma heap_init : heap_inv' init'.
Proof.
unfold init. split_and!; cbn [open_list nodes].
- intros [|[|i]] c p Hi Hc Hp; [lia|done..].
- by repeat constructor.
- repeat constructor.
Qed.

Lemma step_heap s :
inv s → heap_inv' s → heap_inv' (final_state (step' s)).
Proof.
intros Hinv (Hord & Hvalid & Hnodes). unfold step.
destruct (heapq.heappop _ _) as [[cur_id open']|] eqn:Hpop; [|done].
destruct (heappop_ordered _ _ (node_lt_asym _) (node_lt_trans _) _ _ _
            Hord Hvalid Hpop) as [Hord' _].
destruct (heappop_Forall _ _ _ _ _ Hvalid Hpop) as [_ Hvalid'].
assert (heap_inv' (mkSearchState open' (closed_set s) (node_dict s) (nodes s)
                     (reopened s))) as Hheap1 by done.
cbn [nodes open_list closed_set node_dict reopened].
destruct (nodes s !! cur_id) as [current_node|] eqn:Hcur; [|done].
case_bool_decide as Hgoal; [done|]. case_bool_decide as Htime; [done|].
cbn [final_state]. eapply visit_all_heap; [by apply inv_set_open_closed|done|lia|done|].
done.
Qed.

Lemma dropped_state_absurd fpath (i : nat) (c : Cell) :
feasible fpath → fpath !! i = Some c →
cell_of (c, Z.of_nat i) ≠ goal → max_time ≤ time_of (c, Z.of_nat i) → False.
Proof.
intros (_ & Hlast & Hlen & _) Hc Hcell Ht. unfold cell_of, time_of in *. simpl in *.
pose proof (lookup_lt_Some _ _ _ Hc) as Hi.
destruct (decide (i = pred (length fpath))) as [->|Hne].
- rewrite last_lookup, Hc in Hlast. injection Hlast as <-. by destruct c.
- specialize (Hlen ltac:(lia)). lia.
Qed.

(** While the search runs, some state of any feasible path waits in the open
    list. *)
Lemma feasible_state_open s fpath :
open_inv' s → closed_inv' s → feasible fpath →
∃ (i : nat) c id, fpath !! i = Some c ∧ node_dict s !! (c, Z.of_nat i) = Some id
                  ∧ id ∈ open_list s.
Proof.
intros (Hstart & Hdict & Hopen) Hclosed Hf.
assert (Hcase : ∀ (i : nat) c id, fpath !! i = Some c →
  node_dict s !! (c, Z.of_nat i) = Some id →
  id ∈ open_list s ∨ (c, Z.of_nat i) ∈ closed_set s).
{ intros i c id Hc Hid. destruct (Hdict _ _ Hid) as [?|[?|[Hg Ht]]]; [by left|by right|].
  by destruct (dropped_state_absurd fpath i c). }
assert (H : ∀ (i : nat) c, fpath !! i = Some c →
  (∃ (j : nat) c' id, fpath !! j = Some c'
     ∧ node_dict s !! (c', Z.of_nat j) = Some id ∧ id ∈ open_list s)
  ∨ (c, Z.of_nat i) ∈ closed_set s).
{ pose proof Hf as (Hhead & _ & _ & Hsteps).
  induction i as [|i IH]; intros c Hc.
  - destruct fpath as [|c0 fpath]; [done|]. simpl in Hhead, Hc.
    injection Hhead as ->. injection Hc as <-. destruct Hstart as [id Hid].
    assert (node_dict s !! (start, Z.of_nat 0) = Some id) as Hid' by by destruct start.
    destruct (Hcase 0%nat start id eq_refl Hid'); [left; by exists 0%nat, start, id|by right].
  - destruct (lookup_lt_is_Some_2 fpath i) as [c0 Hc0];
      [apply lookup_lt_Some in Hc; lia|].
    destruct (IH c0 Hc0) as [?|Hin]; [by left|].
    destruct (Hclosed _ Hin) as [_ Hnext].
    destruct (Hnext c) as [?|[id Hid]].
    + unfold cell_of, time_of. simpl. destruct c0. by apply Hsteps.
    + right. unfold time_of in *. simpl in *.
      by replace (Z.of_nat (S i)) with (Z.of_nat i + 1) by lia.
    + unfold time_of in Hid. simpl in Hid.
      replace (Z.of_nat i + 1) with (Z.of_nat (S i)) in Hid by lia.
      destruct (Hcase (S i) c id Hc Hid); [left; by exists (S i), c, id|by right]. }
pose proof Hf as (_ & Hlast & _ & _). rewrite last_lookup in Hlast.
destruct (H _ _ Hlast) as [?|Hin]; [done|].
destruct (Hclosed _ Hin) as [Hg _]. unfold cell_of in Hg. simpl in Hg. by destruct goal.
Qed.

Lemma feasible_rest_distance fpath (i : nat) (c : Cell) :
feasible fpath → fpath !! i = Some c →
get_manhattan_distance c goal ≤ Z.of_nat (length fpath) - Z.of_nat i - 1.
Proof.
intros (_ & Hlast & _ & Hsteps) Hc. pose proof (lookup_lt_Some _ _ _ Hc) as Hi.
pose proof (moves_bound_distance (drop i fpath) c goal) as H.
rewrite length_drop in H. etrans; [apply H|lia].
- intros j c1 c2. rewrite !lookup_drop. replace (i + S j)%nat with (S (i + j)) by lia.
  intros H1 H2. by destruct (Hsteps _ _ _ H1 H2).
- rewrite <- (Nat.add_0_r i) in Hc. rewrite <- lookup_drop in Hc.
  by destruct (drop i fpath).
- rewrite last_lookup in Hlast |- *. rewrite lookup_drop, length_drop.
  by replace (i + pred (length fpath - i))%nat with (pred (length fpath)) by lia.
Qed.

Lemma step_shortest s path s' fpath :
inv s → open_inv' s → closed_inv' s → heap_inv' s →
step' s = Returned path s' → path ≠ [] → feasible fpath →
(length path ≤ length fpath)%nat.
Proof.
intros Hinv Ho Hc (Hord & Hvalid & Hnodes). unfold step.
destruct (heapq.heappop _ _) as [[cur_id open']|] eqn:Hpop; [|by intros [= <- _]].
cbn [nodes open_list closed_set node_dict reopened].
destruct (nodes s !! cur_id) as [current_node|] eqn:Hcur; [|by intros [= <- _]].
case_bool_decide as Hgoal; [|by case_bool_decide].
intros [= <- _] _ Hf.
destruct (feasible_state_open s fpath Ho Hc Hf) as (i & c & id & Hi & Hid & Hin).
destruct (inv_dict _ _ _ _ _ _ _ Hinv _ _ Hid) as (node & Hnode & Hstate).
destruct (inv_node_time env agent_id constraints start goal max_time
            s id node Hinv Hnode) as [Hg _].
destruct (inv_node_time env agent_id constraints start goal max_time
            s cur_id current_node Hinv Hcur) as [Hgc _].
destruct (Forall_lookup_1 _ _ _ _ Hnodes Hnode) as [Hh Hfn].
destruct (Forall_lookup_1 _ _ _ _ Hnodes Hcur) as [Hhc Hfc].
destruct (heappop_ordered _ _ (node_lt_asym _) (node_lt_trans _) _ _ _
            Hord Hvalid Hpop) as [_ Hmin].
specialize (Hmin id Hin). unfold node_lt in Hmin. rewrite Hnode, Hcur in Hmin.
apply bool_decide_eq_false in Hmin.
pose proof (feasible_rest_distance fpath i c Hf Hi) as Hdist.
injection Hstate as Hcell Ht.
assert (n_h node = get_manhattan_distance c goal) as Hhn by by rewrite Hh, Hcell.
assert (n_h current_node = 0) as Hh0.
{ rewrite Hhc, Hgoal. destruct goal. unfold get_manhattan_distance. simpl. lia. }
unfold _reconstruct_path. rewrite length_reverse.
destruct (parent_chain_spec env agent_id constraints start goal max_time
            s (length (nodes s)) cur_id current_node Hinv Hcur)
  as (rest & -> & _ & Hlen); [by eapply lookup_lt_Some|].
simpl. lia.
Qed.

Lemma run_shortest n s path s' fpath :
inv s → open_inv' s → closed_inv' s → heap_inv' s →
run' n s = Returned path s' → path ≠ [] → feasible fpath →
(length path ≤ length fpath)%nat.
Proof.
revert s. induction n as [|n IH]; intros s Hinv Ho Hc Hh; simpl; [done|].
pose proof (step_spec env agent_id constraints start goal max_time s Hinv) as Hspec.
pose proof (step_frontier env agent_id constraints start goal max_time s Hinv Ho Hc)
  as Hfront.
pose proof (step_heap s Hinv Hh) as Hheap.
pose proof (step_shortest s) as Hshort.
destruct (step' s) as [s1|path1 s1].
- apply IH; [apply Hspec|apply Hfront..|done].
- intros [= <- <-]. by eapply Hshort.
Qed.

Lemma search_shortest (fpath : list Cell) :
feasible fpath → (length search' ≤ length fpath)%nat.
Proof.
intros Hf.
assert (search' ≠ []) as Hne by by eapply search_complete.
destruct (search_returns env agent_id constraints start goal max_time) as [s Hrun].
destruct (frontier_init env agent_id constraints start goal max_time) as [Ho Hc].
by eapply (run_shortest _ _ _ _ fpath (inv_init _ _ _ _ _ _) Ho Hc heap_init Hrun).
Qed.

(** X25: the path the search returns is a shortest one: whenever a feasible
    path exists, the search returns a path, and it is no longer than that
    path. *)
Theorem search_returns_a_shortest_path (fpath : list Cell) :
feasible_path env agent_id constraints start goal max_time fpath →
search' ≠ [] ∧ (length search' ≤ length fpath)%nat.
Proof.
intros Hf. split; [by eapply search_complete|by apply search_shortest].
Qed.
End astar_optimal.

Section shortest_examples.
Local Open Scope Z_scope.

(** Waiting once on the way is feasible, on the free 3 x 3 grid. *)
Lemma pinch_plan_0_feasible :
feasible_path pinch_grid 0 ConstraintsSet_init (0, 1) (2, 1) 10 pinch_plan_0.
Proof.
split_and!; [done|done|simpl; lia|].
intros [|[|[|[|i]]]] c c'; simpl; intros [= <-] [= <-];
  (split_and!; [apply elem_of_MOVES; simpl; lia|reflexivity..]).
Qed.

Lemma search_returns_a_shortest_path_witness :
search pinch_grid 0 ConstraintsSet_init (0, 1) (2, 1) 10 ≠ []
∧ (length (search pinch_grid 0 ConstraintsSet_init (0, 1)%Z (2, 1)%Z 10%Z)
   ≤ length pinch_plan_0)%nat.
Proof.
apply (search_returns_a_shortest_path pinch_grid 0 ConstraintsSet_init
         (0, 1) (2, 1) 10 pinch_plan_0).
apply pinch_plan_0_feasible.
Defined.
End shortest_examples.

(** ** The search end to end *)
Section end_to_end.
Local Open Scope Z_scope.
Context (env : GridEnvironment) (config : Config).

Lemma root_feasible_iff_path agent :
root_feasible env config agent ↔
∃ path, feasible_path env (a_id agent) ConstraintsSet_init (a_start agent) (a_goal agent)
          (MAX_TIME_STEPS config) path.
Proof.
unfold root_feasible, low_level. split.
- intros Hne. eexists. by apply search_path_feasible.
- intros [path Hpath]. by eapply search_complete.
Qed.

Lemma initial_loop_Forall (R : nat * list Cell → Prop) constraints agents solutions :
Forall R solutions →
(∀ agent, agent ∈ agents →
   low_level env config (a_id agent) constraints (a_start agent) (a_goal agent) ≠ [] →
   R (a_id agent,
      low_level env config (a_id agent) constraints (a_start agent) (a_goal agent))) →
Forall R (initial_loop env config constraints agents solutions).1.
Proof.
revert solutions. induction agents as [|agent agents IH]; intros solutions Hs HR; simpl;
  [done|].
destruct (low_level _ _ _ _ _ _) as [|c path] eqn:E.
- specialize (IH solutions Hs).
  destruct (initial_loop _ _ _ _ _) as [root rest]. simpl in *.
  apply IH. intros a Ha. apply HR. by right.
- specialize (IH (dict_set solutions (a_id agent) (c :: path))).
  destruct (initial_loop _ _ _ _ _) as [root rest]. simpl in *.
  apply IH.
  + apply dict_set_Forall; [done|]. rewrite <- E. apply HR; [left|by rewrite E].
  + intros a Ha. apply HR. by right.
Qed.

(** X26: the agents of a joint plan that [CBS.search] returns are exactly
    the agents for which some feasible path exists at all: an agent is left
    out of the plan only if no sequence of legal steps leads from its start
    to its goal within [MAX_TIME_STEPS]. *)
Theorem planned_agents_are_those_with_a_path (agents : list Agent) (r : SearchResult)
    (agents' : list Agent) (k : nat) :
CBS_search env config agents = (Ok r, agents') →
k ∈ (returned r).*1 ↔
  ∃ agent path, agent ∈ agents ∧ a_id agent = k
    ∧ feasible_path env k ConstraintsSet_init (a_start agent) (a_goal agent)
        (MAX_TIME_STEPS config) path.
Proof.
intros Hr. apply CBS_search_ok in Hr as (_ & Hr).
destruct (initial_loop_plan env config ConstraintsSet_init agents [])
  as (_ & _ & Hkeys); [constructor..|].
assert ((returned r).*1 = ((initial_loop env config ConstraintsSet_init agents []).1).*1)
  as ->.
{ destruct r as [sols|sols|]; simpl in *; [|by destruct Hr|done].
  by destruct Hr as [[? _] _]. }
rewrite Hkeys. split.
- intros [Hin|(agent & Hin & <- & [path Hpath]%root_feasible_iff_path)];
    [by apply elem_of_nil in Hin|]. by exists agent, path.
- intros (agent & path & Hin & <- & Hpath). right. exists agent.
  split_and!; [done..|]. apply root_feasible_iff_path. by exists path.
Qed.

(** X27: the plans [_find_initial_solutions] finds under the empty
    constraint set, the plans of the root, are shortest paths: the plan of
    an agent is feasible and no longer than any feasible path of the
    agent. *)
Theorem root_plans_are_shortest_paths (agents : list Agent) (root : Solutions)
    (agents' : list Agent) (k : nat) (path : list Cell) :
ids_are_positions agents →
_find_initial_solutions env config ConstraintsSet_init agents = (Ok root, agents') →
(k, path) ∈ root →
∃ agent, agents !! k = Some agent
  ∧ feasible_path env k ConstraintsSet_init (a_start agent) (a_goal agent)
      (MAX_TIME_STEPS config) path
  ∧ ∀ fpath, feasible_path env k ConstraintsSet_init (a_start agent) (a_goal agent)
               (MAX_TIME_STEPS config) fpath →
             (length path ≤ length fpath)%nat.
Proof.
intros Hids Hroot Hin. unfold _find_initial_solutions in Hroot.
pose proof (initial_loop_Forall
  (λ kp, ∃ agent, agents !! kp.1 = Some agent
     ∧ feasible_path env kp.1 ConstraintsSet_init (a_start agent) (a_goal agent)
         (MAX_TIME_STEPS config) kp.2
     ∧ ∀ fpath, feasible_path env kp.1 ConstraintsSet_init (a_start agent)
                  (a_goal agent) (MAX_TIME_STEPS config) fpath →
                (length kp.2 ≤ length fpath)%nat)
  ConstraintsSet_init agents []) as H.
destruct (initial_loop _ _ _ _ _) as [root' rest]. injection Hroot as <- <-.
simpl in H. refine (proj1 (Forall_forall _ _) (H _ _) (k, path) Hin); [constructor|].
intros agent Ha Hne. exists agent. simpl.
split_and!; [by apply ids_are_positions_lookup|by apply search_path_feasible|].
intros fpath Hf. by apply search_shortest.
Qed.

(** X28: a joint plan that [CBS.search] returns as conflict-free passes
    [Metrics.check_collisions]: the check raises nothing and reports no
    collision. *)
Theorem successful_plan_passes_the_collision_check (agents : list Agent)
    (solutions : Solutions) (agents' : list Agent) :
CBS_search env config agents = (Ok (Solved solutions), agents') →
check_collisions solutions = Ok [].
Proof.
intros (_ & _ & Hc)%CBS_search_ok.
pose proof (check_collisions_length solutions (find_conflicts_Ok_nonempty _ _ Hc)) as H.
rewrite Hc in H. destruct (check_collisions solutions) as [[|c l]|e]; done.
Qed.
End end_to_end.

Section end_to_end_examples.
Local Open Scope Z_scope.

Lemma planned_agents_are_those_with_a_path_witness :
0%nat ∈ (returned (Solved [(0%nat, [(0, 0); (0, 1)])])).*1 ↔
  ∃ agent path, agent ∈ wall_agents ∧ a_id agent = 0%nat
    ∧ feasible_path wall_grid 0 ConstraintsSet_init (a_start agent) (a_goal agent)
        (MAX_TIME_STEPS small_config) path.
Proof.
apply (planned_agents_are_those_with_a_path wall_grid small_config wall_agents
         (Solved [(0%nat, [(0, 0); (0, 1)])])
         [mkAgent 0 (0, 0) (0, 1) [(0, 0); (0, 1)] 1; Agent_init 1 (0, 3) (0, 0)]).
vm_compute. reflexivity.
Defined.

Lemma root_plans_are_shortest_paths_witness :
∃ agent, pinch_agents !! 0%nat = Some agent
  ∧ feasible_path pinch_grid 0 ConstraintsSet_init (a_start agent) (a_goal agent)
      (MAX_TIME_STEPS small_config) [(0, 1); (1, 1); (2, 1)]
  ∧ ∀ fpath, feasible_path pinch_grid 0 ConstraintsSet_init (a_start agent)
               (a_goal agent) (MAX_TIME_STEPS small_config) fpath →
             (length [(0, 1); (1, 1); (2, 1)] ≤ length fpath)%nat.
Proof.
apply (root_plans_are_shortest_paths pinch_grid small_config pinch_agents
         [(0%nat, [(0, 1); (1, 1); (2, 1)]); (1%nat, pinch_plan_1)]
         [mkAgent 0 (0, 1) (2, 1) [(0, 1); (1, 1); (2, 1)] 2;
          mkAgent 1 (1, 0) (1, 2) pinch_plan_1 2]).
- intros [|[|i]] agent; simpl; intros [= <-]; reflexivity.
- vm_compute. reflexivity.
- left.
Defined.

Lemma successful_plan_passes_the_collision_check_witness :
check_collisions [(0%nat, pinch_plan_0); (1%nat, pinch_plan_1)] = Ok [].
Proof.
apply (successful_plan_passes_the_collision_check pinch_grid small_config pinch_agents
         [(0%nat, pinch_plan_0); (1%nat, pinch_plan_1)]
         [mkAgent 0 (0, 1) (2, 1) pinch_plan_0 3; mkAgent 1 (1, 0) (1, 2) pinch_plan_1 2]).
vm_compute. reflexivity.
Defined.
End end_to_end_examples.

(** ** Replanning under more constraints *)
Section more_constraints.
Local Open Scope Z_scope.
Context (env : GridEnvironment) (agent_id : nat).

Lemma feasible_path_fewer_constraints (cs cs' : ConstraintsSet) start goal max_time path :
vertex_constraints cs ⊆ vertex_constraints cs' →
edge_constraints cs ⊆ edge_constraints cs' →
feasible_path env agent_id cs' start goal max_time path →
feasible_path env agent_id cs start goal max_time path.
Proof.
intros Hv He (Hh & Hl & Hlen & Hsteps). split_and!; [done..|].
intros i c c' Hc Hc'. destruct (Hsteps i c c' Hc Hc') as (Hm & Hval & Hvc & Hec).
unfold is_constrained, is_edge_constrained in *.
apply bool_decide_eq_false in Hvc, Hec.
split_and!; [done..| |]; apply bool_decide_eq_false; set_solver.
Qed.

(** X29: constraints only ever lengthen the answer of the low-level
    search: if the search finds a path under a constraint set, it finds one
    under every smaller constraint set, and that path is no longer. *)
Theorem fewer_constraints_give_no_longer_path (cs cs' : ConstraintsSet)
    (start goal : Cell) (max_time : Z) :
vertex_constraints cs ⊆ vertex_constraints cs' →
edge_constraints cs ⊆ edge_constraints cs' →
search env agent_id cs' start goal max_time ≠ [] →
search env agent_id cs start goal max_time ≠ []
∧ (length (search env agent_id cs start goal max_time)
   ≤ length (search env agent_id cs' start goal max_time))%nat.
Proof.
intros Hv He Hne.
assert (feasible_path env agent_id cs start goal max_time
          (search env agent_id cs' start goal max_time)) as Hf.
{ eapply feasible_path_fewer_constraints; [done..|]. by apply search_path_feasible. }
split; [by eapply search_complete|by apply search_shortest].
Qed.
End more_constraints.

Section more_constraints_examples.
Local Open Scope Z_scope.

Lemma fewer_constraints_give_no_longer_path_witness :
search swap_grid 0 ConstraintsSet_init (0, 0) (0, 1) 10 ≠ []
∧ (length (search swap_grid 0 ConstraintsSet_init (0, 0)%Z (0, 1)%Z 10%Z)
   ≤ length (search swap_grid 0 edge_at_departure (0, 0)%Z (0, 1)%Z 10%Z))%nat.
Proof.
apply (fewer_constraints_give_no_longer_path swap_grid 0 ConstraintsSet_init
         edge_at_departure (0, 0) (0, 1) 10).
- simpl. set_solver.
- simpl. set_solver.
- vm_compute. discriminate.
Defined.
End more_constraints_examples.

(** * The search as a whole *)

(** ** The conflict the search splits on *)
Section split_conflict.
Local Open Scope Z_scope.
Context (env : GridEnvironment) (config : Config).

Local Abbreviation budget := (Z.to_nat (CBS_MAX_ITERATIONS config)).

Lemma initial_loop_sorted constraints agents solutions :
StronglySorted lt (solutions.*1 ++ (a_id <$> agents)) →
StronglySorted lt (initial_loop env config constraints agents solutions).1.*1.
Proof.
revert solutions. induction agents as [|agent agents IH]; intros solutions Hs; simpl.
- by rewrite app_nil_r in Hs.
- rewrite fmap_cons in Hs. destruct (low_level _ _ _ _ _ _) as [|c path] eqn:E.
  + specialize (IH solutions).
    destruct (initial_loop _ _ _ _ _) as [root rest]. simpl in *. apply IH.
    apply StronglySorted_app in Hs as (H12 & H1 & H2). apply StronglySorted_app.
    split_and!; [|done|by apply StronglySorted_inv in H2 as [? _]].
    intros x1 x2 Hx1 Hx2. apply H12; [done|by right].
  + specialize (IH (dict_set solutions (a_id agent) (c :: path))).
    destruct (initial_loop _ _ _ _ _) as [root rest]. simpl in *. apply IH.
    rewrite dict_set_fresh.
    * rewrite fmap_app. simpl. by rewrite <- app_assoc.
    * intros Hin.
      pose proof (StronglySorted_app_1_elem_of _ _ _ _ _ Hs Hin
                    ltac:(left)) as Hlt. lia.
Qed.

Lemma at_loop_head_ok agents k open_list agents_k :
at_loop_head env config agents k open_list agents_k →
Forall (node_ok (initial_loop env config ConstraintsSet_init agents []).1.*1) open_list.
Proof.
destruct (initial_loop_plan env config ConstraintsSet_init agents [])
  as (Hnd & Hpaths & _); [constructor..|]. simpl in Hnd, Hpaths.
induction 1 as [root_solutions root_conflicts agents_0 Hroot Hscan
  |k open_list agents_k current_node rest conflict others open_1 agents_1 open_2
   agents_2 _ IH Hpop Hconf Hexp1 Hexp2].
- unfold _find_initial_solutions in Hroot.
  destruct (initial_loop _ _ _ _ _) as [root agents1]. injection Hroot as <- <-.
  apply heappush_Forall; [constructor|]. by split.
- destruct (heappop_Forall _ _ _ _ _ IH Hpop) as [Hcur Hrest].
  assert (agent1 conflict ∈ (initial_loop env config ConstraintsSet_init agents []).1.*1
          ∧ agent2 conflict ∈ (initial_loop env config ConstraintsSet_init agents []).1.*1)
    as [H1 H2].
  { destruct (recorded_agents (solutions current_node) conflict) as [H1 H2].
    - eapply node_conflict_recorded; [done..|]. rewrite Hconf. left.
    - destruct Hcur as [[<- _] _]. done. }
  destruct (expand_ok env config _ current_node conflict (agent1 conflict) rest
              Hnd Hcur H1 Hrest _ _ _ Hexp1) as [Hopen1 _].
  by destruct (expand_ok env config _ current_node conflict (agent2 conflict) open_1
                 Hnd Hcur H2 Hopen1 _ _ _ Hexp2) as [Hopen2 _].
Qed.

(** The search is the loop from any of its loop heads on, with what is left
    of the budget. *)
Lemma at_loop_head_search agents k open_list agents_k :
at_loop_head env config agents k open_list agents_k → (k ≤ budget)%nat →
CBS_search env config agents = search_loop env config (budget - k) open_list agents_k.
Proof.
induction 1 as [root_solutions root_conflicts agents_0 Hroot Hscan
  |k open_list agents_k current_node rest conflict others open_1 agents_1 open_2
   agents_2 _ IH Hpop Hconf Hexp1 Hexp2]; intros Hk.
- unfold CBS_search. unfold mbind at 1, M_bind at 1. rewrite Hroot.
  unfold mbind, M_bind, lift. rewrite Hscan. by rewrite Nat.sub_0_r.
- rewrite IH by lia. replace (budget - k)%nat with (S (budget - S k)) by lia.
  cbn [search_loop]. rewrite Hpop, Hconf.
  unfold mbind at 1, M_bind at 1. rewrite Hexp1.
  unfold mbind at 1, M_bind at 1. by rewrite Hexp2.
Qed.

(** C4, as the code has it. Whenever the search, on agents listed by
    increasing identifier, is at the head of its loop with budget left and
    pops a node that has conflicts, the [conflicts] of that node are the
    scan of its joint plan, the plan lists its agents by increasing
    identifier, and the iteration is the split on [conflicts[0]], which is a
    recorded conflict of the plan and the least one in the order
    [(t, type_order, a, b)], vertex before edge; a swap between [t - 1] and
    [t] counts as an edge conflict at time [t], the time of arrival, with the
    cell the first agent arrives on, whether or not the agents move. *)
Theorem first_conflict_is_least (agents : list Agent) (k : nat)
    (open_list : list CBSNode) (agents_k : list Agent)
    (current_node : CBSNode) (rest : list CBSNode) :
StronglySorted lt (a_id <$> agents) →
at_loop_head env config agents k open_list agents_k →
(k < budget)%nat →
heapq.heappop CBSNode_lt open_list = Some (current_node, rest) →
conflicts current_node ≠ [] →
∃ c, head (conflicts current_node) = Some c
  ∧ _find_conflicts (solutions current_node) = Ok (conflicts current_node)
  ∧ StronglySorted lt (solutions current_node).*1
  ∧ recorded (solutions current_node) c
  ∧ (∀ c', recorded (solutions current_node) c' →
           key_le (conflict_key c) (conflict_key c'))
  ∧ CBS_search env config agents
    = split_on env config current_node c rest
        (search_loop env config (budget - S k)) agents_k.
Proof.
intros Hsorted Hhead Hk Hpop Hne.
pose proof (at_loop_head_ok agents k open_list agents_k Hhead) as Hopen.
destruct (heappop_Forall _ _ _ _ _ Hopen Hpop) as [[[Hkeys Hpaths] Hscan] _].
assert (StronglySorted lt (solutions current_node).*1) as Hs.
{ rewrite Hkeys. by apply initial_loop_sorted. }
destruct (conflicts current_node) as [|c others] eqn:Hconf; [done|].
destruct (scan_head_is_least (solutions current_node) c others Hs Hpaths Hscan)
  as [Hrec Hleast].
exists c. split_and!; [done..|].
rewrite (at_loop_head_search agents k open_list agents_k Hhead) by lia.
replace (budget - k)%nat with (S (budget - S k)) by lia.
cbn [search_loop]. by rewrite Hpop, Hconf.
Qed.
End split_conflict.

Section split_conflict_examples.
Local Open Scope Z_scope.

Lemma first_conflict_is_least_witness :
∃ c, head (conflicts meet_root) = Some c
  ∧ _find_conflicts (solutions meet_root) = Ok (conflicts meet_root)
  ∧ StronglySorted lt (solutions meet_root).*1
  ∧ recorded (solutions meet_root) c
  ∧ (∀ c', recorded (solutions meet_root) c' →
           key_le (conflict_key c) (conflict_key c'))
  ∧ CBS_search meet_grid small_config meet_agents
    = split_on meet_grid small_config meet_root c []
        (search_loop meet_grid small_config
           (Z.to_nat (CBS_MAX_ITERATIONS small_config) - 1))
        meet_agents_planned.
Proof.
apply (first_conflict_is_least meet_grid small_config meet_agents 0
         [meet_root] meet_agents_planned meet_root []).
- repeat constructor; lia.
- apply (at_entry meet_grid small_config meet_agents meet_solutions meet_conflicts
           meet_agents_planned); vm_compute; reflexivity.
- vm_compute. lia.
- vm_compute. reflexivity.
- discriminate.
Defined.

(** The root of this search holds three conflicts, and the split is on the
    vertex conflict at time 1, before the vertex conflict and the swap
    recorded at time 2. *)
Lemma meet_root_is_split_on_the_least :
_find_conflicts meet_solutions
= Ok [mkConflict 0 1 (0, 1) 1 vertex; mkConflict 0 1 (0, 1) 2 vertex;
      mkConflict 0 1 (0, 1) 2 edge]
∧ head (conflicts meet_root) = Some (mkConflict 0 1 (0, 1) 1 vertex).
Proof. split; [vm_compute; reflexivity|reflexivity]. Qed.

(** After that split the search is at the head of its loop a second time,
    with the two children in the open list. *)
Lemma meet_second_loop_head :
∃ open_list agents_1,
  at_loop_head meet_grid small_config meet_agents 1 open_list agents_1
  ∧ length open_list = 2%nat.
Proof.
eexists _, _. split.
- eapply (at_next meet_grid small_config meet_agents 0 [meet_root]
            meet_agents_planned meet_root []).
  + apply (at_entry meet_grid small_config meet_agents meet_solutions meet_conflicts
             meet_agents_planned); vm_compute; reflexivity.
  + vm_compute. reflexivity.
  + reflexivity.
  + vm_compute. reflexivity.
  + vm_compute. reflexivity.
- reflexivity.
Qed.
End split_conflict_examples.

(** ** What the search writes to the agents *)
Section agent_writes.
Local Open Scope Z_scope.
Context (env : GridEnvironment) (config : Config).

Local Abbreviation agent_after_root' := (agent_after_root env config).
Local Abbreviation agent_after_search' := (agent_after_search env config).
Local Abbreviation root_plans' := (root_plans env config).

(** A plan found under any constraints, for any identifier, shows that the
    agent is feasible at the root. *)
Lemma low_level_root_feasible k constraints agent :
low_level env config k constraints (a_start agent) (a_goal agent) ≠ [] →
root_feasible env config agent.
Proof.
intros Hne%search_path_feasible. unfold root_feasible, low_level.
eapply search_complete.
destruct Hne as (Hh & Hl & Hlen & Hsteps). split_and!; [done..|].
intros i c c' Hc Hc'. destruct (Hsteps i c c' Hc Hc') as (Hm & Hv & _ & _).
split_and!; [done..| |]; apply bool_decide_eq_false, not_elem_of_empty.
Qed.

Lemma initial_loop_after_root constraints agents solutions :
Forall2 (agent_after_root' constraints) agents
  (initial_loop env config constraints agents solutions).2.
Proof.
revert solutions. induction agents as [|agent agents IH]; intros solutions; simpl.
- constructor.
- destruct (low_level _ _ _ _ _ _) as [|c path] eqn:E.
  + specialize (IH solutions).
    destruct (initial_loop _ _ _ _ _) as [s' rest]. simpl in *.
    constructor; [|done]. unfold agent_after_root. rewrite E. by repeat split.
  + specialize (IH (dict_set solutions (a_id agent) (c :: path))).
    destruct (initial_loop _ _ _ _ _) as [s' rest]. simpl in *.
    constructor; [|done]. unfold agent_after_root. rewrite E. by repeat split.
Qed.

Lemma agent_after_root_search agent agent' :
agent_after_root' ConstraintsSet_init agent agent' → agent_after_search' agent agent'.
Proof.
intros [Hsame Hroot]. split; [done|]. unfold root_feasible.
destruct (low_level _ _ _ _ _ _) as [|c path] eqn:E.
- split; [done|]. by intros _.
- split; [|by intros []]. intros _. pose proof Hroot as [Hp Hc].
  split; [by rewrite Hp|].
  exists (a_id agent), ConstraintsSet_init. by rewrite E.
Qed.

Lemma agent_after_search_frame a a1 a2 :
agent_after_search' a a1 → agent_frame env config a1 a2 → agent_after_search' a a2.
Proof.
intros ((Hi & Hs & Hg) & Hfeas & Hnot) (Hi' & Hs' & Hg' & Hw).
split; [by split_and!; congruence|].
destruct Hw as [[Hp Hc]|(Hne & Hc & k & cs & Hp)].
- split.
  + intros (Hne & k & cs & Hp' & Hc')%Hfeas. split; [congruence|].
    exists k, cs. split; congruence.
  + intros [Hp' Hc']%Hnot. split; congruence.
- rewrite Hs, Hg in Hp. split.
  + intros _. split; [done|]. exists k, cs. split; [done|]. by rewrite <- Hp.
  + intros Hnf. destruct Hnf. apply (low_level_root_feasible k cs). by rewrite <- Hp.
Qed.

Lemma agents_after_search_frame l l1 l2 :
Forall2 agent_after_search' l l1 → Forall2 (agent_frame env config) l1 l2 →
Forall2 agent_after_search' l l2.
Proof.
intros H1. revert l2. induction H1 as [|a a1 l l1 H _ IH]; intros l2 H2.
- by inversion H2.
- inversion H2; subst. constructor; [by eapply agent_after_search_frame|by apply IH].
Qed.

Lemma CBS_search_after agents :
Forall2 agent_after_search' agents (CBS_search env config agents).2.
Proof.
unfold CBS_search. unfold mbind at 1, M_bind at 1. unfold _find_initial_solutions at 1.
pose proof (initial_loop_after_root ConstraintsSet_init agents []) as Hroot.
destruct (initial_loop _ _ _ _ _) as [root agents1]. simpl in Hroot.
eapply agents_after_search_frame.
- eapply Forall2_impl; [done|]. apply agent_after_root_search.
- match goal with |- Forall2 _ agents1 (?m agents1).2 =>
    change (Forall2 (agent_frame env config) agents1 (m agents1).2) end.
  apply frames_bind; [apply frames_lift|]. intros cs. apply frames_search_loop.
Qed.

(** C7, as the code has it. A search leaves the list of agents and the
    identifier, the start and the goal of every agent as they were, and it
    does write to the agents. However the call ends, an exception
    included, every agent that is feasible at the root holds a plan of the
    low-level search between its start and its goal, with the number of
    moves of that plan as its cost, and an agent that is not feasible is as
    it was. The writes are those of [_find_initial_solutions], after which
    every agent for which the low-level search found a plan holds that plan
    and its number of moves, and of [_replan_agent], which overwrites the
    path and the cost of the agent it replans with the new plan and its
    number of moves when that plan is not empty. The grid is only ever
    read. *)
Theorem search_overwrites_only_path_and_cost (agents : list Agent) :
Forall2 agent_after_search' agents (CBS_search env config agents).2
∧ (∀ constraints,
     Forall2 (agent_after_root' constraints) agents
       (_find_initial_solutions env config constraints agents).2)
∧ (∀ agent_id constraints solutions agent c path,
     agents !! agent_id = Some agent →
     low_level env config agent_id constraints (a_start agent) (a_goal agent)
     = c :: path →
     ∃ agent',
       (_replan_agent env config agent_id constraints solutions agents).2
       = <[agent_id := agent']> agents
       ∧ same_agent agent agent' ∧ holds_plan agent' (c :: path)).
Proof.
split_and!.
- apply CBS_search_after.
- intros constraints. unfold _find_initial_solutions.
  pose proof (initial_loop_after_root constraints agents []) as H.
  by destruct (initial_loop _ _ _ _ _).
- intros agent_id constraints solutions agent c path Hagent Hplan.
  unfold _replan_agent. rewrite Hagent, Hplan. eexists. split; [done|].
  by split.
Qed.

Lemma dict_get_None {V} (d : list (nat * V)) k : k ∉ d.*1 → dict_get d k = None.
Proof.
induction d as [|[k' v'] d IH]; simpl; [done|].
intros [Hne Hk]%not_elem_of_cons. rewrite decide_False by done. by apply IH.
Qed.

Lemma root_plans_keys agents k :
k ∈ (root_plans' agents).*1 → k ∈ a_id <$> agents.
Proof.
intros ([k' p] & -> & Hin)%list_elem_of_fmap.
apply list_elem_of_omap in Hin as (agent & Hin & Hplan).
destruct (low_level _ _ _ _ _ _); [done|]. injection Hplan as <- _.
simpl. by apply (list_elem_of_fmap_2 a_id).
Qed.

Lemma initial_loop_root_plans agents solutions :
NoDup (solutions.*1 ++ (a_id <$> agents)) →
(initial_loop env config ConstraintsSet_init agents solutions).1
= solutions ++ root_plans' agents.
Proof.
revert solutions. induction agents as [|agent agents IH]; intros solutions Hnd.
- simpl. by rewrite app_nil_r.
- rewrite fmap_cons in Hnd. cbn [initial_loop root_plans omap list_omap].
  destruct (low_level _ _ _ _ _ _) as [|c path] eqn:E.
  + specialize (IH solutions).
    destruct (initial_loop _ _ _ _ _) as [root rest]. simpl in *. apply IH.
    apply NoDup_app in Hnd as (H1 & H12 & H2). apply NoDup_app.
    split_and!; [done| |by apply NoDup_cons in H2 as [_ ?]].
    intros x Hx Hin. apply (H12 x Hx). by right.
  + specialize (IH (dict_set solutions (a_id agent) (c :: path))).
    destruct (initial_loop _ _ _ _ _) as [root rest]. simpl in *.
    assert (a_id agent ∉ solutions.*1) as Hfresh.
    { apply NoDup_app in Hnd as (_ & H12 & _). intros Hin. apply (H12 _ Hin). left. }
    rewrite dict_set_fresh in IH by done. rewrite IH.
    * by rewrite <- app_assoc.
    * rewrite fmap_app. simpl. by rewrite <- app_assoc.
Qed.

Lemma dict_get_root_plans agents agent :
NoDup (a_id <$> agents) → agent ∈ agents →
dict_get (root_plans' agents) (a_id agent)
= match low_level env config (a_id agent) ConstraintsSet_init
          (a_start agent) (a_goal agent) with
  | [] => None
  | (_ :: _) as path => Some path
  end.
Proof.
induction agents as [|a agents IH]; [by intros _ ?%elem_of_nil|].
rewrite fmap_cons. intros [Ha Hnd]%NoDup_cons Hin.
cbn [root_plans omap list_omap]. apply elem_of_cons in Hin as [->|Hin].
- destruct (low_level _ _ _ _ _ _) as [|c path] eqn:E.
  + apply dict_get_None. intros Hk. by apply Ha, root_plans_keys.
  + simpl. by rewrite decide_True.
- assert (a_id agent ≠ a_id a) as Hne.
  { intros Heq. apply Ha. rewrite <- Heq. by apply list_elem_of_fmap_2. }
  destruct (low_level env config (a_id a) _ _ _) as [|c path].
  + by apply IH.
  + simpl. rewrite decide_False by done. by apply IH.
Qed.

(** X23: when the agents have distinct identifiers, the plans the low-level
    search finds for them under the empty constraint set have no conflict,
    and the budget allows one iteration, the search returns exactly these
    plans, and every agent that has a plan among them holds it, with its
    number of moves as the cost, the other agents being as they were. *)
Theorem search_returns_a_conflict_free_root (agents : list Agent) :
NoDup (a_id <$> agents) →
1 ≤ CBS_MAX_ITERATIONS config →
_find_conflicts (root_plans' agents) = Ok [] →
∃ agents',
  CBS_search env config agents = (Ok (Solved (root_plans' agents)), agents')
  ∧ Forall2 (agent_holds (root_plans' agents)) agents agents'.
Proof.
intros Hnd Hbudget Hscan.
pose proof (initial_loop_root_plans agents [] Hnd) as Hroot.
pose proof (initial_loop_after_root ConstraintsSet_init agents []) as Hafter.
exists (initial_loop env config ConstraintsSet_init agents []).2. split.
- unfold CBS_search, _find_initial_solutions. unfold mbind at 1, M_bind at 1.
  destruct (initial_loop _ _ _ _ _) as [root agents1]. simpl in *. subst root.
  unfold mbind, M_bind, lift. rewrite Hscan.
  destruct (Z.to_nat (CBS_MAX_ITERATIONS config)) as [|n] eqn:En; [lia|].
  reflexivity.
- apply Forall2_same_length_lookup. split; [by eapply Forall2_length|].
  intros i agent agent' Hi Hi'.
  destruct (Forall2_lookup_lr _ _ _ _ _ _ Hafter Hi Hi') as [Hsame Hplan].
  split; [done|].
  rewrite dict_get_root_plans by (done || by eapply list_elem_of_lookup_2).
  by destruct (low_level _ _ _ _ _ _).
Qed.
End agent_writes.

Section agent_writes_examples.
Local Open Scope Z_scope.

Lemma search_returns_a_conflict_free_root_witness :
∃ agents',
  CBS_search wall_grid small_config wall_agents
  = (Ok (Solved (root_plans wall_grid small_config wall_agents)), agents')
  ∧ Forall2 (agent_holds (root_plans wall_grid small_config wall_agents))
      wall_agents agents'.
Proof.
apply (search_returns_a_conflict_free_root wall_grid small_config wall_agents).
- vm_compute. repeat constructor; set_solver.
- simpl. lia.
- vm_compute. reflexivity.
Defined.
End agent_writes_examples.
